(** * Offering cache and semester scheduler

    A shallow embedding of the offering-cache-and-scheduling code:
    - [src/lib/sfuOfferings.ts]: term keys, the JSON file cache, the
      resolver, the predictor and the semester horizon;
    - the recommend-courses route: [normalizeCode] and [buildSemesterPlan];
    - the second copy of the offerings module kept in the repository
      (module [Part003]), whose cache store differs.

    Conventions.  JS strings are modelled as ASCII [string]s, JS numbers
    that are integers in the code (years, months, counts, the capacity) as
    [Z].  A [Set<string>] is a duplicate-free list in insertion order (the
    order [Array.from] and [forEach] observe), a [Map<string,string>] and a
    [Record<string, string[]>] are [gmap]s.  The clock, the file system and
    the remote catalog are fields of an explicit [World]; code that can throw
    lives in the monad [M].  The debug logging of the source (console.log
    and the fire-and-forget ingest call, whose rejection is caught) has no
    effect on results and is left out. *)

From Stdlib Require Import ZArith Ascii String List Lia.
From stdpp Require Import base tactics option list sorting gmap strings pretty.

Local Open Scope string_scope.
Local Open Scope list_scope.
Local Open Scope Z_scope.

(** ** JS string primitives (ASCII) *)

(** A JS string is modelled by the [string] of its code units when all of
    them are below 128 ([isAsciiChar]).  On such strings the functions
    below are those of JS: the members of [\s] and what [trim] strips are
    TAB, LF, VT, FF, CR and SPACE, and the case mappings move [a-z] and
    [A-Z] only.  From 128 up JS does more (U+00A0 is whitespace, letters
    outside [a-z] have case), which these definitions do not follow:
    properties of the character rules are stated for ASCII strings. *)

Definition isUpperAZ (c : ascii) : bool :=
  let n := N_of_ascii c in ((65 <=? n) && (n <=? 90))%N.

Definition isLowerAZ (c : ascii) : bool :=
  let n := N_of_ascii c in ((97 <=? n) && (n <=? 122))%N.

Definition isDigit (c : ascii) : bool :=
  let n := N_of_ascii c in ((48 <=? n) && (n <=? 57))%N.

(** The ASCII members of the regexp class [\s]: TAB, LF, VT, FF, CR, SPACE. *)
Definition isSpace (c : ascii) : bool :=
  let n := N_of_ascii c in (((9 <=? n) && (n <=? 13)) || (n =? 32))%N.

Definition lowerChar (c : ascii) : ascii :=
  if isUpperAZ c then ascii_of_N (N_of_ascii c + 32) else c.

Definition upperChar (c : ascii) : ascii :=
  if isLowerAZ c then ascii_of_N (N_of_ascii c - 32) else c.

Fixpoint toLowerCase (s : string) : string :=
  match s with
  | EmptyString => EmptyString
  | String c s' => String (lowerChar c) (toLowerCase s')
  end.

Fixpoint toUpperCase (s : string) : string :=
  match s with
  | EmptyString => EmptyString
  | String c s' => String (upperChar c) (toUpperCase s')
  end.

Fixpoint dropSpaces (s : string) : string :=
  match s with
  | String c s' => if isSpace c then dropSpaces s' else s
  | EmptyString => EmptyString
  end.

(** [s.replace(/\s+/g, " ")]: every maximal run of whitespace becomes one
    space. *)
Fixpoint collapseWhitespace (s : string) : string :=
  match s with
  | EmptyString => EmptyString
  | String c s' =>
      if isSpace c
      then match s' with
           | String c' _ =>
               if isSpace c' then collapseWhitespace s'
               else String " " (collapseWhitespace s')
           | EmptyString => String " " EmptyString
           end
      else String c (collapseWhitespace s')
  end.

(** [s.trim()] *)
Definition trim (s : string) : string :=
  String.rev (dropSpaces (String.rev (dropSpaces s))).

(** The longest prefix of [A-Z] letters and what follows it. *)
Fixpoint spanUpper (s : string) : string * string :=
  match s with
  | String c s' =>
      if isUpperAZ c
      then let '(letters, rest) := spanUpper s' in (String c letters, rest)
      else (EmptyString, s)
  | EmptyString => (EmptyString, EmptyString)
  end.

(** The match of [s] against the pattern of [normalizeCode] (upper-case
    letters, optional whitespace, then a digit followed by anything): its
    two groups, when the match succeeds.  [s] has no line terminator when
    this is called (they were collapsed to spaces), so the second group
    reaches the end of the string. *)
Definition matchDeptNumber (s : string) : option (string * string) :=
  let '(letters, rest) := spanUpper s in
  match letters with
  | EmptyString => None
  | _ =>
      match dropSpaces rest with
      | String d tl => if isDigit d then Some (letters, String d tl) else None
      | EmptyString => None
      end
  end.

(** [normalizeCode]: "CMPT 120" / "CMPT120" -> "CMPT 120". *)
Definition normalizeCode (code : string) : string :=
  let s := toUpperCase (trim (collapseWhitespace code)) in
  match matchDeptNumber s with
  | Some (dept, num) => dept +:+ " " +:+ num
  | None => s
  end.

(** ** Arrays, Sets and Maps *)

(** [arr.indexOf(x)], [-1] when absent. *)
Fixpoint indexOf (arr : list string) (x : string) : Z :=
  match arr with
  | [] => -1
  | y :: arr' =>
      if bool_decide (y = x) then 0
      else let i := indexOf arr' x in if i <? 0 then -1 else i + 1
  end.

(** [arr.slice(0, n)] for an integer [n]: a negative [n] counts from the
    end of the array. *)
Definition slice0 {A} (n : Z) (arr : list A) : list A :=
  let len := Z.of_nat (length arr) in
  let final := if n <? 0 then Z.max (len + n) 0 else Z.min n len in
  take (Z.to_nat final) arr.

(** A [Set<string>] as its elements in insertion order. *)
Definition setHas (s : list string) (x : string) : bool := bool_decide (x ∈ s).

Definition setAdd (s : list string) (x : string) : list string :=
  if setHas s x then s else s ++ [x].

Definition setDelete (s : list string) (x : string) : list string :=
  filter (λ y, y ≠ x) s.

(** [new Set(arr)] *)
Definition newSet (arr : list string) : list string := foldl setAdd [] arr.

(** ** The world: clock, storage medium, remote catalog *)

Record JsDate := {
  getFullYear : Z;
  getMonth : Z;            (* 0..11 *)
  toISOString : string
}.

(** What the cache file holds: text that [JSON.parse] rejects, or a JSON
    document with its [lastUpdated] and, when present and an object, its
    [semesters]. *)
Inductive FileDoc :=
  | Unparseable
  | JsonDoc (lastUpdatedField : string)
            (semestersField : option (gmap string (list string))).

(** The storage medium: whether the [data] directory exists, the cache
    file when it exists, and which operations the medium refuses. *)
Record FS := {
  dirExists : bool;
  cacheFile : option FileDoc;
  mkdirFails : bool;
  readFails : bool;
  writeFails : bool
}.

Record World := {
  fs : FS;
  ticks : nat;                                  (* number of [new Date()] so far *)
  clock : nat → JsDate;                         (* what the n-th [new Date()] reads *)
  fetchLog : list (Z * string);                 (* catalog fetches so far, oldest first *)
  remote : nat → Z → string → list string       (* answer of the n-th catalog fetch *)
}.

Inductive Exn :=
  | FsError (code : string)
  | SyntaxError.

Inductive Outcome (A : Type) :=
  | Returned (a : A)
  | Thrown (e : Exn).
Arguments Returned {A} a.
Arguments Thrown {A} e.

(** Computations that read and write the world and may throw. *)
Definition M (A : Type) : Type := World → Outcome A * World.

Definition ret {A} (a : A) : M A := λ w, (Returned a, w).

Definition throw {A} (e : Exn) : M A := λ w, (Thrown e, w).

Definition bind {A B} (m : M A) (k : A → M B) : M B :=
  λ w, match m w with
       | (Returned a, w') => k a w'
       | (Thrown e, w') => (Thrown e, w')
       end.

(** [try { body } catch (e) { handler }] *)
Definition tryCatch {A} (body : M A) (handler : Exn → M A) : M A :=
  λ w, match body w with
       | (Returned a, w') => (Returned a, w')
       | (Thrown e, w') => handler e w'
       end.

Notation "'let*' x := m 'in' k" := (bind m (λ x, k))
  (at level 10, x name, m at level 100, k at level 200,
   format "'[v' 'let*'  x  :=  m  'in'  '/' k ']'").

Definition withFs (f : FS) (w : World) : World :=
  {| fs := f; ticks := ticks w; clock := clock w;
     fetchLog := fetchLog w; remote := remote w |}.

(** [new Date()] *)
Definition newDate : M JsDate :=
  λ w, (Returned (clock w (ticks w)),
        {| fs := fs w; ticks := S (ticks w); clock := clock w;
           fetchLog := fetchLog w; remote := remote w |}).

(** [fs.existsSync] never throws. *)
Definition existsSyncDir : M bool := λ w, (Returned (dirExists (fs w)), w).

Definition existsSyncFile : M bool :=
  λ w, (Returned (bool_decide (is_Some (cacheFile (fs w)))), w).

(** [fs.mkdirSync(dir, { recursive: true })] *)
Definition mkdirSync : M unit :=
  λ w, if mkdirFails (fs w) then (Thrown (FsError "EROFS"), w)
       else (Returned tt,
             withFs {| dirExists := true; cacheFile := cacheFile (fs w);
                       mkdirFails := mkdirFails (fs w);
                       readFails := readFails (fs w);
                       writeFails := writeFails (fs w) |} w).

(** [fs.readFileSync(p, "utf-8")] *)
Definition readFileSync : M FileDoc :=
  λ w, if readFails (fs w) then (Thrown (FsError "EACCES"), w)
       else match cacheFile (fs w) with
            | Some doc => (Returned doc, w)
            | None => (Thrown (FsError "ENOENT"), w)
            end.

(** [fs.writeFileSync(p, text, "utf-8")]: fails on a medium that refuses
    writes and when the directory is missing. *)
Definition writeFileSync (doc : FileDoc) : M unit :=
  λ w, if writeFails (fs w) then (Thrown (FsError "EROFS"), w)
       else if negb (dirExists (fs w)) then (Thrown (FsError "ENOENT"), w)
       else (Returned tt,
             withFs {| dirExists := dirExists (fs w); cacheFile := Some doc;
                       mkdirFails := mkdirFails (fs w);
                       readFails := readFails (fs w);
                       writeFails := writeFails (fs w) |} w).

(** ** src/lib/sfuOfferings.ts *)

Definition TERMS : list string := ["spring"; "summer"; "fall"].

Definition CACHE_FILENAME : string := "sfu-offerings-cache.json".

Record CurrentSemester := { curYear : Z; curTerm : string }.

(** The body of [getCurrentSemester] once the date is read. *)
Definition semesterOfDate (d : JsDate) : CurrentSemester :=
  let year := getFullYear d in
  let month := getMonth d + 1 in
  let term := if month <=? 4 then "spring"
              else if month <=? 8 then "summer" else "fall" in
  {| curYear := year; curTerm := term |}.

Definition getCurrentSemester : M CurrentSemester :=
  let* d := newDate in ret (semesterOfDate d).

Record OfferingsCache := {
  lastUpdated : string;
  semesters : gmap string (list string)
}.

Definition getCachePath : M string :=
  let* _ := tryCatch
              (let* ex := existsSyncDir in if negb ex then mkdirSync else ret tt)
              (λ _, ret tt) in
  ret ("data/" +:+ CACHE_FILENAME).

(** [JSON.parse(raw) as OfferingsCache] *)
Definition jsonParse (raw : FileDoc) : M FileDoc :=
  match raw with
  | Unparseable => throw SyntaxError
  | JsonDoc _ _ => ret raw
  end.

(** [JSON.stringify(data, null, 2)] *)
Definition jsonStringify (data : OfferingsCache) : FileDoc :=
  JsonDoc (lastUpdated data) (Some (semesters data)).

Definition readCache : M (option OfferingsCache) :=
  tryCatch
    (let* _p := getCachePath in
     let* ex := existsSyncFile in
     if negb ex then ret None
     else
       let* raw := readFileSync in
       let* data := jsonParse raw in
       match data with
       | JsonDoc lu (Some sems) =>
           ret (Some {| lastUpdated := lu; semesters := sems |})
       | _ => ret None
       end)
    (λ _, ret None).

Definition writeCache (data : OfferingsCache) : M unit :=
  let* _p := getCachePath in
  tryCatch
    (writeFileSync (jsonStringify data))
    (λ _, ret tt).

Definition semesterKey (year : Z) (term : string) : string :=
  pretty year +:+ "-" +:+ toLowerCase term.

(** [fetchSemesterFromAPI]: the catalog is external; the n-th fetch
    answers [remote w n year term] (the empty list when the catalog is
    unreachable) and is logged. *)
Definition fetchSemesterFromAPI (year : Z) (term : string) : M (list string) :=
  λ w, (Returned (remote w (length (fetchLog w)) year term),
        {| fs := fs w; ticks := ticks w; clock := clock w;
           fetchLog := fetchLog w ++ [(year, term)]; remote := remote w |}).

Definition getOfferingsForSemester (year : Z) (term : string)
    (cache : option OfferingsCache) : M (list string * OfferingsCache) :=
  let key := semesterKey year term in
  let* nextCache :=
    match cache with
    | Some c => ret {| lastUpdated := lastUpdated c; semesters := semesters c |}
    | None => let* d := newDate in
              ret {| lastUpdated := toISOString d; semesters := ∅ |}
    end in
  match semesters nextCache !! key with
  | Some (o :: os) => ret (o :: os, nextCache)
  | _ =>
      let* offerings := fetchSemesterFromAPI year term in
      let* d := newDate in
      let nextCache := {| lastUpdated := toISOString d;
                          semesters := <[key := offerings]> (semesters nextCache) |} in
      let* _ := writeCache nextCache in
      ret (offerings, nextCache)
  end.

Definition predictOfferingsForSemester (year : Z) (term : string)
    (cache : option OfferingsCache) : list string :=
  match cache with
  | None => []
  | Some c =>
      let prevKey := semesterKey (year - 1) term in
      default [] (semesters c !! prevKey)
  end.

(** What [getOfferingsForSemesterWithPrediction] returns:
    [{ offerings, cache, fromPrediction }]. *)
Record Resolution := {
  resOfferings : list string;
  resCache : OfferingsCache;
  resFromPrediction : bool
}.

Definition getOfferingsForSemesterWithPrediction (year : Z) (term : string)
    (cache : option OfferingsCache) : M Resolution :=
  let* r := getOfferingsForSemester year term cache in
  let '(offerings, nextCache) := r in
  if 0 <? Z.of_nat (length offerings)
  then ret {| resOfferings := offerings; resCache := nextCache;
              resFromPrediction := false |}
  else
    let predicted := predictOfferingsForSemester year term (Some nextCache) in
    ret {| resOfferings := predicted; resCache := nextCache;
           resFromPrediction := true |}.

(** An element of the horizon: [{ year, term, label }]. *)
Record Semester := { semYear : Z; semTerm : string; semLabel : string }.

(** [s.charAt(0).toUpperCase() + s.slice(1)] *)
Definition cap (s : string) : string :=
  match s with
  | EmptyString => EmptyString
  | String c s' => String (upperChar c) s'
  end.

(** The [for] loop of [listSemesters], [n] iterations to go. *)
Fixpoint listSemestersLoop (n : nat) (termIdx year : Z) (out : list Semester)
    : list Semester :=
  match n with
  | O => out
  | S n' =>
      let term := nth (Z.to_nat termIdx) TERMS "" in
      let out := out ++ [{| semYear := year; semTerm := term;
                            semLabel := cap term +:+ " " +:+ pretty year |}] in
      let termIdx := termIdx + 1 in
      if termIdx >=? Z.of_nat (length TERMS)
      then listSemestersLoop n' 0 (year + 1) out
      else listSemestersLoop n' termIdx year out
  end.

Definition listSemesters (startYear : Z) (startTerm : string) (maxSemesters : Z)
    : list Semester :=
  let termIdx := indexOf TERMS (toLowerCase startTerm) in
  let termIdx := if termIdx <? 0 then 0 else termIdx in
  listSemestersLoop (Z.to_nat maxSemesters) termIdx startYear [].

(** ** The older copy of the offerings module (src/unnamed/part_003)

    It differs from [src/lib/sfuOfferings.ts] in its cache store:
    [getCachePath] and [writeCache] have no [try]/[catch]. *)

Module Part003.

Definition getCachePath : M string :=
  let* ex := existsSyncDir in
  let* _ := (if negb ex then mkdirSync else ret tt) in
  ret ("data/" +:+ CACHE_FILENAME).

Definition writeCache (data : OfferingsCache) : M unit :=
  let* _p := getCachePath in
  writeFileSync (jsonStringify data).

Definition getOfferingsForSemester (year : Z) (term : string)
    (cache : option OfferingsCache) : M (list string * OfferingsCache) :=
  let key := semesterKey year term in
  let* nextCache :=
    match cache with
    | Some c => ret {| lastUpdated := lastUpdated c; semesters := semesters c |}
    | None => let* d := newDate in
              ret {| lastUpdated := toISOString d; semesters := ∅ |}
    end in
  match semesters nextCache !! key with
  | Some (o :: os) => ret (o :: os, nextCache)
  | _ =>
      let* offerings := fetchSemesterFromAPI year term in
      let* d := newDate in
      let nextCache := {| lastUpdated := toISOString d;
                          semesters := <[key := offerings]> (semesters nextCache) |} in
      let* _ := writeCache nextCache in
      ret (offerings, nextCache)
  end.

End Part003.

(** ** The recommend-courses route: [buildSemesterPlan] *)

Definition MAX_SEMESTERS_PLAN : Z := 12.

Record SemesterPlanItem := {
  year : Z;
  term : string;
  label : string;
  courses : list string;
  fromPrediction : option bool       (* [fromPrediction || undefined] *)
}.

(** The variables of [buildSemesterPlan] that its loop updates. *)
Record PlanState := {
  plan : list SemesterPlanItem;
  remaining : list string;
  cache : option OfferingsCache
}.

(** The [codeToOriginal] map after its filling loop. *)
Definition buildCodeToOriginal (normalizeCodeFn : string → string)
    (recommendedCodes : list string) : gmap string string :=
  foldl (λ m c, <[normalizeCodeFn c := c]> m) ∅ recommendedCodes.

(** [codeToOriginal.get(code) ?? code] *)
Definition displayForm (codeToOriginal : gmap string string) (code : string)
    : string :=
  default code (codeToOriginal !! code).

(** [offeredFromList]: the remaining codes offered this term, in the
    order of [remaining]. *)
Definition offeredFromList (normalizeCodeFn : string → string)
    (offerings remaining : list string) : list string :=
  let offeredSet := newSet (normalizeCodeFn <$> offerings) in
  filter (λ code, setHas offeredSet code) remaining.

(** The loop body after the resolution call: choose this term's courses,
    remove them from [remaining], push the plan item when there is one. *)
Definition assignTerm (normalizeCodeFn : string → string)
    (coursesPerSemester : Z) (codeToOriginal : gmap string string)
    (sem : Semester) (r : Resolution) (st : PlanState) : PlanState :=
  let taken := slice0 coursesPerSemester
                 (offeredFromList normalizeCodeFn (resOfferings r) (remaining st)) in
  let remaining' := foldl setDelete (remaining st) taken in
  let plan' :=
    if 0 <? Z.of_nat (length taken)
    then plan st ++
         [{| year := semYear sem; term := semTerm sem; label := semLabel sem;
             courses := displayForm codeToOriginal <$> taken;
             fromPrediction := if resFromPrediction r then Some true else None |}]
    else plan st in
  {| plan := plan'; remaining := remaining'; cache := Some (resCache r) |}.

Definition loopBody (normalizeCodeFn : string → string)
    (coursesPerSemester : Z) (codeToOriginal : gmap string string)
    (sem : Semester) (st : PlanState) : M PlanState :=
  let* r := getOfferingsForSemesterWithPrediction
              (semYear sem) (semTerm sem) (cache st) in
  ret (assignTerm normalizeCodeFn coursesPerSemester codeToOriginal sem r st).

(** [for (const sem of semesters) { if (remaining.size === 0) break; ... }] *)
Fixpoint forSemesters (body : Semester → PlanState → M PlanState)
    (semesters : list Semester) (st : PlanState) : M PlanState :=
  match semesters with
  | [] => ret st
  | sem :: rest =>
      match remaining st with
      | [] => ret st
      | _ :: _ => let* st' := body sem st in forSemesters body rest st'
      end
  end.

(** The state [buildSemesterPlan] enters its loop with, and the horizon. *)
Definition planSetup (recommendedCodes : list string)
    (normalizeCodeFn : string → string)
    : M (gmap string string * list Semester * PlanState) :=
  let remaining := newSet (normalizeCodeFn <$> recommendedCodes) in
  let codeToOriginal := buildCodeToOriginal normalizeCodeFn recommendedCodes in
  let* cache := readCache in
  let* cur := getCurrentSemester in
  let semesters := listSemesters (curYear cur) (curTerm cur) MAX_SEMESTERS_PLAN in
  ret (codeToOriginal, semesters,
       {| plan := []; remaining := remaining; cache := cache |}).

Definition buildSemesterPlan (recommendedCodes : list string)
    (coursesPerSemester : Z) (normalizeCodeFn : string → string)
    : M (list SemesterPlanItem) :=
  let* s := planSetup recommendedCodes normalizeCodeFn in
  let '(codeToOriginal, semesters, st0) := s in
  let* st := forSemesters
               (loopBody normalizeCodeFn coursesPerSemester codeToOriginal)
               semesters st0 in
  ret (plan st).

(** The loop iterations that [buildSemesterPlan] runs from state [st] in
    world [w]: for each one the semester, the state it starts from and the
    resolution it obtains.  This observes [forSemesters]; it is not code of
    the repository. *)
Fixpoint iterations (normalizeCodeFn : string → string)
    (coursesPerSemester : Z) (codeToOriginal : gmap string string)
    (semesters : list Semester) (st : PlanState) (w : World)
    : list (Semester * PlanState * Resolution) :=
  match semesters with
  | [] => []
  | sem :: rest =>
      match remaining st with
      | [] => []
      | _ :: _ =>
          match getOfferingsForSemesterWithPrediction
                  (semYear sem) (semTerm sem) (cache st) w with
          | (Returned r, w') =>
              (sem, st, r) ::
              iterations normalizeCodeFn coursesPerSemester codeToOriginal rest
                (assignTerm normalizeCodeFn coursesPerSemester codeToOriginal
                   sem r st) w'
          | (Thrown _, _) => []
          end
      end
  end.

Definition planIterations (recommendedCodes : list string)
    (coursesPerSemester : Z) (normalizeCodeFn : string → string) (w : World)
    : list (Semester * PlanState * Resolution) :=
  match planSetup recommendedCodes normalizeCodeFn w with
  | (Returned (codeToOriginal, semesters, st0), w') =>
      iterations normalizeCodeFn coursesPerSemester codeToOriginal
        semesters st0 w'
  | (Thrown _, _) => []
  end.

(** The semesters map of the cache a resolution starts from ([null] has
    none). *)
Definition inputSemesters (c : option OfferingsCache) : gmap string (list string) :=
  match c with
  | Some c => semesters c
  | None => ∅
  end.

(** All course codes of a plan, in plan order. *)
Definition allCourses (p : list SemesterPlanItem) : list string := p ≫= courses.

(** ** Concrete worlds used by the examples *)

Definition writableFs : FS :=
  {| dirExists := true; cacheFile := None;
     mkdirFails := false; readFails := false; writeFails := false |}.

(** A read-only deployment: the directory is there, every write fails. *)
Definition readOnlyFs : FS :=
  {| dirExists := true; cacheFile := None;
     mkdirFails := true; readFails := false; writeFails := true |}.

Definition september2024 : JsDate :=
  {| getFullYear := 2024; getMonth := 8;
     toISOString := "2024-09-01T00:00:00.000Z" |}.

Definition silentCatalog : nat → Z → string → list string := λ _ _ _, [].

(** Fall 2024 offers CMPT 225 and MATH 240, Spring 2025 offers CMPT 295. *)
Definition sampleCatalog : nat → Z → string → list string :=
  λ _ y t,
    if bool_decide (y = 2024 ∧ t = "fall") then ["CMPT 225"; "MATH 240"]
    else if bool_decide (y = 2025 ∧ t = "spring") then ["CMPT 295"]
    else [].

Definition worldWith (f : FS) (catalog : nat → Z → string → list string) : World :=
  {| fs := f; ticks := 0; clock := λ _, september2024;
     fetchLog := []; remote := catalog |}.

Definition cache2023 : OfferingsCache :=
  {| lastUpdated := "2023-12-31T00:00:00.000Z";
     semesters := {[ "2023-fall" := ["CMPT 120"] ]} |}.

(** ** What the loop of [buildSemesterPlan] maintains *)

(** The rank of a normalized code: the index of its first occurrence in
    the normalized desired list ([-1] when it is not desired). *)
Definition firstIndex (normalizeCodeFn : string → string)
    (desired : list string) (code : string) : Z :=
  indexOf (normalizeCodeFn <$> desired) code.

(** [remaining] is the deduplicated desired list minus what the plan
    holds; the plan holds no normalized code twice, only display forms that
    [codeToOriginal] gives, and no empty item; under a non-negative
    capacity no item exceeds it. *)
Definition PlanInv (normalizeCodeFn : string → string)
    (desired : list string) (coursesPerSemester : Z) (st : PlanState) : Prop :=
  remaining st =
    filter (λ code, code ∉ normalizeCodeFn <$> allCourses (plan st))
      (newSet (normalizeCodeFn <$> desired)) ∧
  NoDup (normalizeCodeFn <$> allCourses (plan st)) ∧
  (∀ c, c ∈ allCourses (plan st) →
        buildCodeToOriginal normalizeCodeFn desired !! normalizeCodeFn c = Some c) ∧
  Forall (λ it, courses it ≠ [] ∧
                (0 ≤ coursesPerSemester →
                 Z.of_nat (length (courses it)) ≤ coursesPerSemester))
         (plan st).

(** A read-only deployment that ships with a cache file. *)
Definition shippedFs : FS :=
  {| dirExists := true; cacheFile := Some (jsonStringify cache2023);
     mkdirFails := true; readFails := false; writeFails := true |}.

(** The index in [TERMS] at which [listSemesters] starts: that of the
    lower-cased start term, [0] when it is not a term of the cycle. *)
Definition startIndex (startTerm : string) : Z :=
  Z.max 0 (indexOf TERMS (toLowerCase startTerm)).

(** The semester [i] terms after the term of index [k] of year [y]. *)
Definition semesterAfter (y k : Z) (i : nat) : Semester :=
  let year := y + (k + Z.of_nat i) / 3 in
  let term := nth (Z.to_nat ((k + Z.of_nat i) mod 3)) TERMS "" in
  {| semYear := year; semTerm := term;
     semLabel := cap term +:+ " " +:+ pretty year |}.

(** The semester a plan item stands for. *)
Definition itemSemester (it : SemesterPlanItem) : Semester :=
  {| semYear := year it; semTerm := term it; semLabel := label it |}.

(** The (year, term) pair a catalog fetch for a semester is logged as. *)
Definition semesterQuery (sem : Semester) : Z * string :=
  (semYear sem, semTerm sem).

(** ** The recommend-courses route: completed and taken courses *)

(** SFU BSc CS "pick one" groups and mutually exclusive courses. *)
Definition EQUIVALENCE_GROUPS : list (list string) :=
  [["MATH 150"; "MATH 151"; "MATH 154"; "MATH 157"];
   ["MATH 152"; "MATH 155"; "MATH 158"];
   ["MATH 232"; "MATH 240"];
   ["STAT 270"; "STAT 271"]].

(** The parsed transcript as the route receives it in the request body.
    [completed_courses] may be missing, and an entry stands for what
    [c?.code] reads from it: [None] for a null entry or one without code. *)
Record ParsedTranscript := {
  student_major : string;
  completed_courses : option (list (option string));
  total_credits_completed : Z
}.

Definition completedSet (parsed : ParsedTranscript) : list string :=
  foldl (λ set c,
           match c with
           | Some code =>
               if bool_decide (code = "") then set
               else setAdd set (normalizeCode code)
           | None => set
           end)
        [] (default [] (completed_courses parsed)).

(** The body of the loop of [expandedTaken] for one group. *)
Definition expandGroup (completed out group : list string) : list string :=
  let normalizedGroup := normalizeCode <$> group in
  let hasAny := existsb (λ c, setHas completed c) normalizedGroup in
  if hasAny then foldl setAdd out normalizedGroup else out.

Definition expandedTaken (completed : list string) : list string :=
  foldl (expandGroup completed) (newSet completed) EQUIVALENCE_GROUPS.

(** A transcript listing MATH 150 in a loose spelling. *)
Definition sampleTranscript : ParsedTranscript :=
  {| student_major := "Computing Science";
     completed_courses := Some [Some "math150"; None; Some ""; Some "CMPT 120"];
     total_credits_completed := 30 |}.

(** ** Normal forms of course codes *)

(** [s] with [f] applied to each character. *)
Fixpoint mapString (f : ascii → ascii) (s : string) : string :=
  match s with
  | EmptyString => EmptyString
  | String c s' => String (f c) (mapString f s')
  end.

(** [s] without its trailing whitespace. *)
Fixpoint dropTrailingSpaces (s : string) : string :=
  match s with
  | EmptyString => EmptyString
  | String c s' =>
      match dropTrailingSpaces s' with
      | EmptyString => if isSpace c then EmptyString else String c EmptyString
      | String c' r => String c (String c' r)
      end
  end.

(** Every whitespace character of [s] is a space, and no two are
    adjacent. *)
Fixpoint wsNormal (s : string) : Prop :=
  match s with
  | EmptyString => True
  | String c s' =>
      (isSpace c = true →
       c = " "%char ∧
       match s' with String c' _ => isSpace c' = false | EmptyString => True end) ∧
      wsNormal s'
  end.

Fixpoint allChars (P : ascii → bool) (s : string) : bool :=
  match s with
  | EmptyString => true
  | String c s' => P c && allChars P s'
  end.

(** A code unit of the ASCII range. *)
Definition isAsciiChar (c : ascii) : bool := (N_of_ascii c <? 128)%N.

(** The first character of [s], when there is one, satisfies [P]. *)
Definition headIs (P : ascii → bool) (s : string) : Prop :=
  match s with String c _ => P c = true | EmptyString => True end.

(** What [normalizeCode] matches its pattern against. *)
Definition preNormal (s : string) : string :=
  toUpperCase (trim (collapseWhitespace s)).

(** The characters of a course number: digits and upper-case letters. *)
Definition codeChar (c : ascii) : bool := isDigit c || isUpperAZ c.

(** ** [buildCacheForRange] *)

(** [TERMS[t]]: [undefined] outside the array. *)
Definition termAt (t : Z) : option string :=
  if t <? 0 then None else TERMS !! Z.to_nat t.

(** How [buildCacheForRange] can fail: with the TypeError of
    [semesterKey] reading [term.toLowerCase()] of an [undefined] term, or
    with an exception of the cache store. *)
Inductive RangeFailure :=
  | TypeError
  | StoreError (e : Exn).

Inductive RangeOutcome (A : Type) :=
  | RangeOk (a : A)
  | RangeFailed (f : RangeFailure).
Arguments RangeOk {A} a.
Arguments RangeFailed {A} f.

(** [for (let t = start; t <= end; t++) { ... }], [fuel] iterations to
    go: resolve the term, then re-read the cache from the store. *)
Fixpoint rangeTerms (fuel : nat) (y t : Z) (cache : option OfferingsCache)
    (w : World) : RangeOutcome (option OfferingsCache) * World :=
  match fuel with
  | O => (RangeOk cache, w)
  | S fuel' =>
      match termAt t with
      | None => (RangeFailed TypeError, w)
      | Some term =>
          match getOfferingsForSemester y term cache w with
          | (Thrown e, w1) => (RangeFailed (StoreError e), w1)
          | (Returned _, w1) =>
              match readCache w1 with
              | (Thrown e, w2) => (RangeFailed (StoreError e), w2)
              | (Returned cache', w2) => rangeTerms fuel' y (t + 1) cache' w2
              end
          end
      end
  end.

(** [for (let y = startYear; y <= endYear; y++) { ... }], [fuel]
    iterations to go. *)
Fixpoint rangeYears (fuel : nat) (y startYear endYear startTermIdx endTermIdx : Z)
    (cache : option OfferingsCache) (w : World)
    : RangeOutcome (option OfferingsCache) * World :=
  match fuel with
  | O => (RangeOk cache, w)
  | S fuel' =>
      let start := if y =? startYear then startTermIdx else 0 in
      let end_ := if y =? endYear then endTermIdx
                  else Z.of_nat (length TERMS) - 1 in
      match rangeTerms (Z.to_nat (end_ - start + 1)) y start cache w with
      | (RangeFailed f, w1) => (RangeFailed f, w1)
      | (RangeOk cache', w1) =>
          rangeYears fuel' (y + 1) startYear endYear startTermIdx endTermIdx
            cache' w1
      end
  end.

Definition buildCacheForRange (startYear : Z) (startTerm : string)
    (endYear : Z) (endTerm : string) (w : World)
    : RangeOutcome OfferingsCache * World :=
  match readCache w with
  | (Thrown e, w0) => (RangeFailed (StoreError e), w0)
  | (Returned cache, w0) =>
      let startTermIdx := indexOf TERMS (toLowerCase startTerm) in
      let endTermIdx := indexOf TERMS (toLowerCase endTerm) in
      match rangeYears (Z.to_nat (endYear - startYear + 1)) startYear
              startYear endYear startTermIdx endTermIdx cache w0 with
      | (RangeFailed f, w1) => (RangeFailed f, w1)
      | (RangeOk _, w1) =>
          match readCache w1 with
          | (Thrown e, w2) => (RangeFailed (StoreError e), w2)
          | (Returned (Some c), w2) => (RangeOk c, w2)
          | (Returned None, w2) =>
              match newDate w2 with
              | (Returned d, w3) =>
                  (RangeOk {| lastUpdated := toISOString d; semesters := ∅ |}, w3)
              | (Thrown e, w3) => (RangeFailed (StoreError e), w3)
              end
          end
      end
  end.

(** The cache a stored document reads back as. *)
Definition storedCache (doc : option FileDoc) : option OfferingsCache :=
  match doc with
  | Some (JsonDoc lu (Some sems)) =>
      Some {| lastUpdated := lu; semesters := sems |}
  | _ => None
  end.

(** A medium on which the cache store works: it accepts reads and
    writes, and the data directory exists or can be created. *)
Definition workingStore (f : FS) : Prop :=
  writeFails f = false ∧ readFails f = false ∧
  (dirExists f = true ∨ mkdirFails f = false).

(** ** The recommend-courses route: from the ranking to the plan *)

Definition TOP_N : Z := 10.

Definition COURSES_PER_SEMESTER_NORMAL : Z := 3.

Definition COURSES_PER_SEMESTER_SPEEDRUN : Z := 5.

(** An element of the ranking the route parsed:
    [{ course_code?: string; reason?: string }]. *)
Record RankedCourse := {
  rankedCode : option string;
  rankedReason : option string
}.

Record RecommendedCourse := {
  course_code : string;
  course_name : option string;
  reason : string
}.

(** [(r.course_code || "").trim()] *)
Definition rankedCodeOf (r : RankedCourse) : string :=
  trim (default "" (rankedCode r)).

(** The body of the loop of [POST] that fills [recommended_courses] and
    [seen]; [outlineTitle code] stands for
    [codeToOutline.get(code)?.title]. *)
Definition recommendStep (outlineTitle : string → option string)
    (acc : list RecommendedCourse * list string) (r : RankedCourse)
    : list RecommendedCourse * list string :=
  let code := rankedCodeOf r in
  if bool_decide (code = "") || setHas (snd acc) (normalizeCode code)
  then acc
  else (fst acc ++
          [{| course_code := code;
              course_name := outlineTitle (normalizeCode code);
              reason := default "Relevant for your target role."
                          (rankedReason r) |}],
        setAdd (snd acc) (normalizeCode code)).

(** [recommended_courses] as [POST] computes it from the ranking. *)
Definition recommendedCourses (outlineTitle : string → option string)
    (ranked : list RankedCourse) : list RecommendedCourse :=
  fst (foldl (recommendStep outlineTitle) ([], []) (slice0 TOP_N ranked)).

(** [pace === "speedrun" ? COURSES_PER_SEMESTER_SPEEDRUN
    : COURSES_PER_SEMESTER_NORMAL] *)
Definition coursesPerSemesterOf (pace : string) : Z :=
  if bool_decide (pace = "speedrun") then COURSES_PER_SEMESTER_SPEEDRUN
  else COURSES_PER_SEMESTER_NORMAL.

(** The [semester_plan] of the response of [POST]. *)
Definition routeSemesterPlan (outlineTitle : string → option string)
    (ranked : list RankedCourse) (pace : string) : M (list SemesterPlanItem) :=
  buildSemesterPlan (course_code <$> recommendedCourses outlineTitle ranked)
    (coursesPerSemesterOf pace) normalizeCode.

(** A ranking with a repeated code, a blank code and a missing code. *)
Definition sampleRanking : list RankedCourse :=
  [{| rankedCode := Some " CMPT 225 "; rankedReason := Some "core" |};
   {| rankedCode := Some "cmpt225"; rankedReason := None |};
   {| rankedCode := Some "  "; rankedReason := None |};
   {| rankedCode := None; rankedReason := Some "?" |};
   {| rankedCode := Some "MATH 240"; rankedReason := None |}].

(** ** The catalog client: [fetchSemesterFromAPI] on given responses *)

(** A record of the catalog: [{ text?: string; value?: string }]. *)
Record ApiRecord := {
  apiText : option string;
  apiValue : option string
}.

(** What one GET on the catalog gives: the request throws (unreachable,
    timeout, error status), or it delivers data, an array of records or
    something that is not an array. *)
Inductive HttpResponse :=
  | RequestFailed
  | NotAnArray
  | Records (records : list ApiRecord).

(** [(r.value ?? r.text ?? "").toString().trim()] *)
Definition recordValue (r : ApiRecord) : string :=
  trim (match apiValue r with
        | Some v => v
        | None => default "" (apiText r)
        end).

(** The department's part of the loop: on a failed request the
    department is skipped. *)
Definition addDeptCourses (dept : string) (numRes : HttpResponse)
    (courses : list string) : list string :=
  match numRes with
  | RequestFailed => courses
  | NotAnArray => courses
  | Records nums =>
      foldl (λ cs n,
               let num := recordValue n in
               if bool_decide (num = "") then cs
               else setAdd cs (toUpperCase dept +:+ " " +:+ num))
            courses nums
  end.

(** [for (const dept of deptValues) { ... }]; [numRes i dept] is the
    response to the [i]-th department request. *)
Fixpoint collectDepts (numRes : nat → string → HttpResponse) (i : nat)
    (deptValues : list string) (courses : list string) : list string :=
  match deptValues with
  | [] => courses
  | dept :: rest =>
      collectDepts numRes (S i) rest
        (addDeptCourses dept (numRes i dept) courses)
  end.

(** [deptValues]: the trimmed, lower-cased, non-empty department values. *)
Definition deptValuesOf (depts : list ApiRecord) : list string :=
  filter (λ d, d ≠ "") ((λ d, toLowerCase (recordValue d)) <$> depts).

(** What [fetchSemesterFromAPI] returns when the department request is
    answered by [deptsRes] and the [i]-th department request by
    [numRes i dept]. *)
Definition fetchSemesterCourses (deptsRes : HttpResponse)
    (numRes : nat → string → HttpResponse) : list string :=
  match deptsRes with
  | RequestFailed => []
  | NotAnArray => collectDepts numRes 0 [] []
  | Records depts => collectDepts numRes 0 (deptValuesOf depts) []
  end.

(** ** The recommend-courses route: the courses not yet taken *)

(** [`${o.dept} ${o.number}`.trim()], for outlines of any type with a
    department and a number. *)
Definition outlineCode {A} (dept number : A → string) (o : A) : string :=
  trim (dept o +:+ " " +:+ number o).

(** [allOutlines.filter((o) => !taken.has(normalizeCode(code)))] *)
Definition untakenOutlines {A} (dept number : A → string)
    (taken : list string) (allOutlines : list A) : list A :=
  filter (λ o, setHas taken (normalizeCode (outlineCode dept number o)) = false)
    allOutlines.

(** Two departments, the second of which cannot be fetched. *)
Definition sampleDepts : HttpResponse :=
  Records [{| apiText := Some "CMPT"; apiValue := Some " cmpt " |};
           {| apiText := None; apiValue := None |};
           {| apiText := Some "MATH"; apiValue := None |}].

Definition sampleNums (i : nat) (dept : string) : HttpResponse :=
  if bool_decide (dept = "cmpt")
  then Records [{| apiText := None; apiValue := Some "120" |};
                {| apiText := Some "120"; apiValue := None |};
                {| apiText := None; apiValue := Some "" |};
                {| apiText := None; apiValue := Some "105w" |}]
  else RequestFailed.

(** * Properties *)

(** ** Running the cache store *)

Ltac unfold_io :=
  unfold getCachePath, tryCatch, bind, ret, throw, existsSyncDir,
    existsSyncFile, mkdirSync, readFileSync, writeFileSync, newDate,
    fetchSemesterFromAPI, withFs in *.

(** The cache store of [src/lib/sfuOfferings.ts] swallows every failure of
    the medium: [writeCache] returns, and touches the file system only. *)
Lemma writeCache_never_throws (data : OfferingsCache) (w : World) :
  ∃ f, writeCache data w = (Returned tt, withFs f w).
Proof.
  destruct w as [[d c mk rd wr] tk cl fl rm].
  unfold writeCache. unfold_io. cbn.
  destruct d, mk, wr; cbn; eexists; reflexivity.
Qed.

Lemma readCache_never_throws (w : World) :
  ∃ c f, readCache w = (Returned c, withFs f w).
Proof.
  destruct w as [[d c mk rd wr] tk cl fl rm].
  unfold readCache. unfold_io. cbn.
  destruct d, mk; cbn;
    (destruct c as [[|lu [sems|]]|]; cbn;
     [destruct rd; cbn; eexists _, _; reflexivity ..]).
Qed.

Lemma cache_eta (c : OfferingsCache) :
  {| lastUpdated := lastUpdated c; semesters := semesters c |} = c.
Proof. by destruct c. Qed.

(** A cache hit: the entry comes back and nothing else happens. *)
Lemma getOfferingsForSemester_hit y t c o os w :
  semesters c !! semesterKey y t = Some (o :: os) →
  getOfferingsForSemester y t (Some c) w = (Returned (o :: os, c), w).
Proof.
  intros Hhit. unfold getOfferingsForSemester, bind, ret. cbn.
  rewrite Hhit. by rewrite cache_eta.
Qed.

(** A cache miss: one catalog fetch, merged under the key. *)
Lemma getOfferingsForSemester_miss y t c w :
  (∀ o os, inputSemesters c !! semesterKey y t ≠ Some (o :: os)) →
  ∃ lu w',
    getOfferingsForSemester y t c w =
      (Returned (remote w (length (fetchLog w)) y t,
                 {| lastUpdated := lu;
                    semesters := <[semesterKey y t := remote w (length (fetchLog w)) y t]>
                                   (inputSemesters c) |}), w') ∧
    fetchLog w' = fetchLog w ++ [(y, t)] ∧ remote w' = remote w.
Proof.
  intros Hmiss. unfold getOfferingsForSemester.
  destruct c as [c|]; cbn in Hmiss |- *.
  - unfold bind at 1, ret at 1.
    cbn [semesters].
    destruct (semesters c !! semesterKey y t) as [[|o os]|] eqn:E;
      try (by destruct (Hmiss o os)).
    all: unfold bind, fetchSemesterFromAPI, newDate, ret;
      match goal with
      | |- context [writeCache ?d ?w0] =>
          destruct (writeCache_never_throws d w0) as [f ->]
      end; eexists _, _; split; [reflexivity | by cbn].
  - unfold bind at 1, newDate at 1, bind at 1, ret at 1. cbn [semesters].
    rewrite lookup_empty.
    unfold bind, fetchSemesterFromAPI, newDate, ret; cbn [fetchLog remote].
    match goal with
    | |- context [writeCache ?d ?w0] =>
        destruct (writeCache_never_throws d w0) as [f ->]
    end. eexists _, _; split; [reflexivity | by cbn].
Qed.

(** Resolution always returns, and its result is one of the two above. *)
Lemma getOfferingsForSemester_returns y t c w :
  ∃ offs next w',
    getOfferingsForSemester y t c w = (Returned (offs, next), w') ∧
    remote w' = remote w ∧
    semesters next !! semesterKey y t = Some offs ∧
    (∀ k, k ≠ semesterKey y t → semesters next !! k = inputSemesters c !! k).
Proof.
  destruct (inputSemesters c !! semesterKey y t) as [[|o os]|] eqn:E.
  2: { destruct c as [c|]; [|cbn in E; by rewrite lookup_empty in E].
       exists (o :: os), c, w. by rewrite (getOfferingsForSemester_hit _ _ _ o os). }
  all: destruct (getOfferingsForSemester_miss y t c w) as (lu & w' & -> & _ & Hr);
    [intros o os; rewrite E; congruence|];
    eexists _, _, _; split; [reflexivity|]; cbn; split; [done|];
    split; [by rewrite lookup_insert_eq | by intros k Hk; rewrite lookup_insert_ne].
Qed.

Lemma getOfferingsForSemesterWithPrediction_returns y t c w :
  ∃ r w', getOfferingsForSemesterWithPrediction y t c w = (Returned r, w').
Proof.
  destruct (getOfferingsForSemester_returns y t c w) as (offs & next & w' & E & _).
  unfold getOfferingsForSemesterWithPrediction, bind. rewrite E.
  destruct (0 <? Z.of_nat (length offs)); eexists _, _; reflexivity.
Qed.

(** ** The resolver and its prediction wrapper *)

(** C3.  The prediction wrapper returns what resolution yields, with
    [fromPrediction = false], when that is non-empty; when it is empty it
    returns the entry of [(year - 1, term)] in the updated cache (empty when
    there is none) with [fromPrediction = true].  In particular a cache
    holding ["CMPT 120"] under "2023-fall" and nothing under "2024-fall",
    with a catalog fetch that comes back empty, resolves (2024, "fall") to
    ["CMPT 120"] from prediction. *)
Theorem prediction_wrapper_correct :
  (∀ y t c w, ∃ offs next w',
     getOfferingsForSemester y t c w = (Returned (offs, next), w') ∧
     (offs ≠ [] →
      getOfferingsForSemesterWithPrediction y t c w =
        (Returned {| resOfferings := offs; resCache := next;
                     resFromPrediction := false |}, w')) ∧
     (offs = [] →
      predictOfferingsForSemester y t (Some next) =
        default [] (semesters next !! semesterKey (y - 1) t) ∧
      getOfferingsForSemesterWithPrediction y t c w =
        (Returned {| resOfferings := predictOfferingsForSemester y t (Some next);
                     resCache := next; resFromPrediction := true |}, w'))) ∧
  (∀ c w,
     semesters c !! "2023-fall" = Some ["CMPT 120"] →
     semesters c !! "2024-fall" = None →
     remote w (length (fetchLog w)) 2024 "fall" = [] →
     ∃ next w',
       getOfferingsForSemesterWithPrediction 2024 "fall" (Some c) w =
         (Returned {| resOfferings := ["CMPT 120"]; resCache := next;
                      resFromPrediction := true |}, w')).
Proof.
  split.
  - intros y t c w.
    destruct (getOfferingsForSemester_returns y t c w) as (offs & next & w' & E & _).
    exists offs, next, w'. split; [done|].
    unfold getOfferingsForSemesterWithPrediction, bind. rewrite E.
    split; intros H.
    + destruct offs; [done|]. reflexivity.
    + subst offs. split; reflexivity.
  - intros c w H23 H24 Hfetch.
    destruct (getOfferingsForSemester_miss 2024 "fall" (Some c) w)
      as (lu & w' & E & _).
    { intros o os. change (semesterKey 2024 "fall") with "2024-fall".
      cbn. rewrite H24. congruence. }
    unfold getOfferingsForSemesterWithPrediction, bind. rewrite E, Hfetch. cbn.
    change (semesterKey (2024 - 1) "fall") with "2023-fall".
    change (semesterKey 2024 "fall") with "2024-fall".
    rewrite lookup_insert_ne by done. rewrite H23. cbn.
    eexists _, _. reflexivity.
Qed.

Lemma prediction_wrapper_correct_witness :
  ∃ next w',
    getOfferingsForSemesterWithPrediction 2024 "fall" (Some cache2023)
      (worldWith writableFs silentCatalog) =
      (Returned {| resOfferings := ["CMPT 120"]; resCache := next;
                   resFromPrediction := true |}, w').
Proof.
  apply (proj2 prediction_wrapper_correct cache2023
           (worldWith writableFs silentCatalog)).
  - vm_compute. reflexivity.
  - vm_compute. reflexivity.
  - reflexivity.
Defined.

(** C5.  When the cache entry of the term key exists and is non-empty,
    resolution returns it with the cache as it was and the world untouched:
    no catalog fetch, no write.  With a catalog whose answer for the term
    does not depend on when it is asked, resolving the same term again,
    from the same starting cache or from the cache the first call returned,
    yields the same offerings and the same offering data; after a
    non-empty first result the second call is a hit and leaves the world
    untouched. *)
Theorem resolution_idempotent (y : Z) (t : string) :
  (∀ c o os w,
     semesters c !! semesterKey y t = Some (o :: os) →
     getOfferingsForSemester y t (Some c) w = (Returned (o :: os, c), w)) ∧
  (∀ c w,
     (∀ n m, remote w n y t = remote w m y t) →
     ∃ o1 c1 w1 c2 w2 c3 w3,
       getOfferingsForSemester y t c w = (Returned (o1, c1), w1) ∧
       getOfferingsForSemester y t c w1 = (Returned (o1, c2), w2) ∧
       semesters c2 = semesters c1 ∧
       getOfferingsForSemester y t (Some c1) w1 = (Returned (o1, c3), w3) ∧
       semesters c3 = semesters c1 ∧
       (o1 ≠ [] → c3 = c1 ∧ w3 = w1)).
Proof.
  split; [intros; by apply getOfferingsForSemester_hit|].
  intros c w Hdet.
  destruct (inputSemesters c !! semesterKey y t) as [[|o os]|] eqn:E.
  2: { destruct c as [c|]; [|cbn in E; by rewrite lookup_empty in E].
       exists (o :: os), c, w, c, w, c, w.
       rewrite !(getOfferingsForSemester_hit _ _ _ o os) by done. done. }
  all: destruct (getOfferingsForSemester_miss y t c w) as (lu & w1 & E1 & _ & Hr1);
    [intros o os; rewrite E; congruence|];
    destruct (getOfferingsForSemester_miss y t c w1) as (lu2 & w2 & E2 & _ & Hr2);
    [intros o os; rewrite E; congruence|];
    rewrite Hr1, (Hdet _ (length (fetchLog w))) in E2;
    set (o1 := remote w (length (fetchLog w)) y t) in *;
    set (c1 := {| lastUpdated := lu;
                  semesters := <[semesterKey y t := o1]> (inputSemesters c) |}) in *.
  all: destruct o1 as [|o os] eqn:Eo.
  all: try (destruct (getOfferingsForSemester_miss y t (Some c1) w1)
              as (lu3 & w3 & E3 & _ & Hr3);
            [intros o' os'; subst c1; cbn; rewrite lookup_insert_eq; congruence|];
            rewrite Hr1, (Hdet _ (length (fetchLog w))) in E3; fold o1 in E3;
            rewrite Eo in E3;
            eexists _, _, _, _, _, _, _;
            split; [exact E1|]; split; [exact E2|]; split; [done|];
            split; [exact E3|]; split; [by subst c1; cbn; rewrite insert_insert_eq | done]).
  all: eexists _, _, _, _, _, _, _;
    split; [exact E1|]; split; [exact E2|]; split; [done|];
    split; [apply (getOfferingsForSemester_hit _ _ c1 o os);
            by subst c1; cbn; rewrite lookup_insert_eq|];
    done.
Qed.

Lemma resolution_idempotent_witness :
  getOfferingsForSemester 2023 "fall" (Some cache2023)
    (worldWith writableFs sampleCatalog) =
    (Returned (["CMPT 120"], cache2023), worldWith writableFs sampleCatalog).
Proof.
  apply (proj1 (resolution_idempotent 2023 "fall") cache2023 "CMPT 120" []).
  vm_compute. reflexivity.
Defined.

(** C6.  The cache a resolution returns differs from the one it was given
    at most under the resolved term key: every other key keeps its offering
    list, every key of the input is still present, and the resolved key
    holds the offerings returned. *)
Theorem resolution_preserves_other_keys y t c w :
  ∃ offs next w',
    getOfferingsForSemester y t c w = (Returned (offs, next), w') ∧
    (∀ k, k ≠ semesterKey y t → semesters next !! k = inputSemesters c !! k) ∧
    (∀ k, is_Some (inputSemesters c !! k) → is_Some (semesters next !! k)) ∧
    semesters next !! semesterKey y t = Some offs.
Proof.
  destruct (getOfferingsForSemester_returns y t c w)
    as (offs & next & w' & E & _ & Hkey & Hother).
  exists offs, next, w'. repeat split; try done.
  intros k Hk. destruct (decide (k = semesterKey y t)) as [->|Hne].
  - by rewrite Hkey.
  - by rewrite Hother.
Qed.

Lemma resolution_preserves_other_keys_witness :
  ∃ offs next w',
    getOfferingsForSemester 2024 "fall" (Some cache2023)
      (worldWith readOnlyFs sampleCatalog) = (Returned (offs, next), w') ∧
    semesters next !! "2023-fall" = Some ["CMPT 120"].
Proof.
  destruct (resolution_preserves_other_keys 2024 "fall" (Some cache2023)
              (worldWith readOnlyFs sampleCatalog))
    as (offs & next & w' & E & Hother & _).
  exists offs, next, w'. split; [exact E|].
  rewrite Hother; [reflexivity | by vm_compute].
Defined.

(** ** The cache store *)

(** C7.  On a read-only medium the cache store of
    [src/lib/sfuOfferings.ts] swallows the failed write and returns, while
    the [writeCache] of the older copy propagates the exception of
    [fs.writeFileSync], and with it so does the resolver built on it. *)
Theorem writeCache_part003_propagates :
  writeCache cache2023 (worldWith readOnlyFs silentCatalog) =
    (Returned tt, worldWith readOnlyFs silentCatalog) ∧
  Part003.writeCache cache2023 (worldWith readOnlyFs silentCatalog) =
    (Thrown (FsError "EROFS"), worldWith readOnlyFs silentCatalog) ∧
  fst (Part003.getOfferingsForSemester 2024 "fall" (Some cache2023)
         (worldWith readOnlyFs silentCatalog)) =
    Thrown (FsError "EROFS") ∧
  fst (getOfferingsForSemester 2024 "fall" (Some cache2023)
         (worldWith readOnlyFs silentCatalog)) =
    Returned ([], {| lastUpdated := "2024-09-01T00:00:00.000Z";
                     semesters := <["2024-fall" := []]> (semesters cache2023) |}).
Proof. split_and!; vm_compute; reflexivity. Qed.

(** ** The horizon *)

Lemma indexOf_absent (arr : list string) (x : string) :
  x ∉ arr → indexOf arr x = -1.
Proof.
  induction arr as [|y arr IH]; [done|].
  intros Hx. apply not_elem_of_cons in Hx as [Hne Hx]. cbn.
  rewrite bool_decide_eq_false_2 by congruence.
  by rewrite IH.
Qed.




(** C10.  [getCurrentSemester] returns the calendar year of the date it
    reads and a term of the cycle fixed by the month alone: "spring" for
    months 1-4, "summer" for 5-8, "fall" for 9-12; the horizon built from
    it starts at that very term. *)
Theorem getCurrentSemester_by_month (w : World) :
  ∃ s w',
    getCurrentSemester w = (Returned s, w') ∧
    curYear s = getFullYear (clock w (ticks w)) ∧
    curTerm s ∈ TERMS ∧
    (getMonth (clock w (ticks w)) + 1 ≤ 4 → curTerm s = "spring") ∧
    (5 ≤ getMonth (clock w (ticks w)) + 1 ≤ 8 → curTerm s = "summer") ∧
    (9 ≤ getMonth (clock w (ticks w)) + 1 → curTerm s = "fall") ∧
    head (listSemesters (curYear s) (curTerm s) MAX_SEMESTERS_PLAN) =
      Some {| semYear := curYear s; semTerm := curTerm s;
              semLabel := cap (curTerm s) +:+ " " +:+ pretty (curYear s) |}.
Proof.
  eexists _, _. split; [reflexivity|].
  unfold semesterOfDate. cbn [curYear curTerm].
  set (month := getMonth (clock w (ticks w)) + 1).
  split; [done|].
  destruct (Z.leb_spec month 4) as [H4|H4];
    [|destruct (Z.leb_spec month 8) as [H8|H8]].
  - split_and!; [set_solver | done | intros; lia | intros; lia | done].
  - split_and!; [set_solver | intros; lia | done | intros; lia | done].
  - split_and!; [set_solver | intros; lia | intros; lia | done | done].
Qed.

Lemma getCurrentSemester_by_month_witness :
  ∃ s w',
    getCurrentSemester (worldWith writableFs sampleCatalog) = (Returned s, w') ∧
    curYear s = 2024 ∧ curTerm s = "fall".
Proof.
  destruct (getCurrentSemester_by_month (worldWith writableFs sampleCatalog))
    as (s & w' & E & Hy & _ & _ & _ & Hfall & _).
  exists s, w'. split; [exact E|]. split; [exact Hy|].
  apply Hfall. cbn. lia.
Defined.

(** ** Sets in insertion order, slices and ranks *)

Lemma elem_of_setAdd (s : list string) (x y : string) :
  y ∈ setAdd s x ↔ y ∈ s ∨ y = x.
Proof.
  unfold setAdd, setHas. case_bool_decide as Hx.
  - split; [by left|]. intros [?| ->]; done.
  - rewrite elem_of_app, list_elem_of_singleton. done.
Qed.

Lemma NoDup_setAdd (s : list string) (x : string) :
  NoDup s → NoDup (setAdd s x).
Proof.
  intros Hs. unfold setAdd, setHas. case_bool_decide as Hx; [done|].
  apply NoDup_app. split; [done|]. split; [|apply NoDup_singleton].
  intros y Hy ->%list_elem_of_singleton. done.
Qed.

Lemma newSet_snoc (l : list string) (x : string) :
  newSet (l ++ [x]) = setAdd (newSet l) x.
Proof. unfold newSet. by rewrite foldl_snoc. Qed.

Lemma elem_of_newSet (l : list string) (x : string) : x ∈ newSet l ↔ x ∈ l.
Proof.
  induction l as [|y l IH] using rev_ind; [done|].
  rewrite newSet_snoc, elem_of_setAdd, elem_of_app, list_elem_of_singleton.
  by rewrite IH.
Qed.

Lemma NoDup_newSet (l : list string) : NoDup (newSet l).
Proof.
  induction l as [|y l IH] using rev_ind; [apply NoDup_nil_2|].
  rewrite newSet_snoc. by apply NoDup_setAdd.
Qed.

Lemma foldl_setDelete (s taken : list string) :
  foldl setDelete s taken = filter (λ y, y ∉ taken) s.
Proof.
  revert s. induction taken as [|x taken IH]; intros s; cbn.
  - symmetry. induction s as [|y s IHs]; [done|].
    rewrite filter_cons_True by apply not_elem_of_nil. by f_equal.
  - rewrite IH. unfold setDelete. rewrite list_filter_filter.
    apply list_filter_iff. intros y. rewrite not_elem_of_cons. tauto.
Qed.

Lemma slice0_take {A} (n : Z) (l : list A) : ∃ k, slice0 n l = take k l.
Proof. unfold slice0. eexists. reflexivity. Qed.

Lemma slice0_sublist {A} (n : Z) (l : list A) : slice0 n l `sublist_of` l.
Proof. destruct (slice0_take n l) as [k ->]. apply sublist_take. Qed.

Lemma slice0_split {A} (n : Z) (l : list A) : ∃ rest, l = slice0 n l ++ rest.
Proof.
  destruct (slice0_take n l) as [k ->]. exists (drop k l).
  by rewrite take_drop.
Qed.

Lemma slice0_length {A} (n : Z) (l : list A) :
  0 ≤ n → Z.of_nat (length (slice0 n l)) = Z.min n (Z.of_nat (length l)).
Proof.
  intros Hn. unfold slice0.
  destruct (Z.ltb_spec n 0) as [?|_]; [lia|].
  rewrite length_take. lia.
Qed.

Lemma indexOf_elem (arr : list string) (x : string) :
  x ∈ arr → 0 ≤ indexOf arr x < Z.of_nat (length arr).
Proof.
  induction arr as [|y arr IH]; [by intros ?%elem_of_nil|].
  intros Hx. cbn [indexOf length]. case_bool_decide as Hy; [lia|].
  apply elem_of_cons in Hx as [->|Hx]; [done|].
  specialize (IH Hx). destruct (Z.ltb_spec (indexOf arr x) 0); lia.
Qed.

Lemma indexOf_app_l (arr arr' : list string) (x : string) :
  x ∈ arr → indexOf (arr ++ arr') x = indexOf arr x.
Proof.
  induction arr as [|y arr IH]; [by intros ?%elem_of_nil|].
  intros Hx. cbn [indexOf app]. case_bool_decide as Hy; [done|].
  apply elem_of_cons in Hx as [->|Hx]; [done|]. by rewrite IH.
Qed.

Lemma indexOf_snoc_fresh (arr : list string) (x : string) :
  x ∉ arr → indexOf (arr ++ [x]) x = Z.of_nat (length arr).
Proof.
  induction arr as [|y arr IH]; intros Hx; cbn [indexOf app length].
  - by rewrite bool_decide_eq_true_2.
  - apply not_elem_of_cons in Hx as [Hne Hx].
    rewrite bool_decide_eq_false_2 by congruence.
    rewrite (IH Hx). destruct (Z.ltb_spec (Z.of_nat (length arr)) 0); lia.
Qed.

Lemma StronglySorted_on_elements {A} (R R' : relation A) (l : list A) :
  (∀ a b, a ∈ l → b ∈ l → R a b → R' a b) →
  StronglySorted R l → StronglySorted R' l.
Proof.
  intros HR Hl. induction Hl as [|a l Hl IH Ha]; [constructor|].
  constructor.
  - apply IH. intros x y Hx Hy. apply HR; by right.
  - rewrite Forall_forall in Ha |- *. intros b Hb.
    apply HR; [by left | by right | by apply Ha].
Qed.

Lemma StronglySorted_sublist {A} (R : relation A) (l k : list A) :
  l `sublist_of` k → StronglySorted R k → StronglySorted R l.
Proof.
  induction 1 as [|x l k Hlk IH|x l k Hlk IH]; [done| |].
  - intros [Hx Hk]%StronglySorted_cons. apply StronglySorted_cons.
    split; [|by apply IH].
    rewrite Forall_forall in Hx |- *. intros y Hy. apply Hx.
    by eapply sublist_subseteq.
  - intros [_ Hk]%StronglySorted_cons. by apply IH.
Qed.

(** The insertion order of [new Set(arr)] is the order of first
    occurrences in [arr]. *)
Lemma newSet_sorted_by_first_index (arr : list string) :
  StronglySorted (λ a b, indexOf arr a < indexOf arr b) (newSet arr).
Proof.
  induction arr as [|x arr IH] using rev_ind; [constructor|].
  rewrite newSet_snoc. unfold setAdd, setHas.
  assert (Hold : StronglySorted
            (λ a b, indexOf (arr ++ [x]) a < indexOf (arr ++ [x]) b)
            (newSet arr)).
  { eapply StronglySorted_on_elements; [|exact IH].
    intros a b Ha Hb Hab. rewrite elem_of_newSet in Ha, Hb. cbn beta in *.
    by rewrite !indexOf_app_l. }
  case_bool_decide as Hx; [done|].
  apply StronglySorted_app. split; [|split; [done|]].
  - intros a ? Ha ->%list_elem_of_singleton.
    rewrite elem_of_newSet in Hx, Ha.
    rewrite indexOf_app_l, indexOf_snoc_fresh by done.
    by apply indexOf_elem.
  - repeat constructor.
Qed.

(** ** The display-form map *)

Lemma buildCodeToOriginal_snoc norm (l : list string) (x : string) :
  buildCodeToOriginal norm (l ++ [x]) =
    <[norm x := x]> (buildCodeToOriginal norm l).
Proof. unfold buildCodeToOriginal. by rewrite foldl_snoc. Qed.

(** [codeToOriginal] maps a code to the last element of the input that
    normalizes to it. *)
Lemma buildCodeToOriginal_lookup norm (l : list string) (code c : string) :
  buildCodeToOriginal norm l !! code = Some c →
  norm c = code ∧
  ∃ pre post, l = pre ++ c :: post ∧ ∀ d, d ∈ post → norm d ≠ code.
Proof.
  induction l as [|x l IH] using rev_ind;
    [by unfold buildCodeToOriginal; cbn; rewrite lookup_empty|].
  rewrite buildCodeToOriginal_snoc, lookup_insert.
  case_decide as Hx.
  - intros [= ->]. split; [done|]. exists l, []. split; [done|].
    by intros d ?%elem_of_nil.
  - intros [Hc (pre & post & -> & Hpost)]%IH. split; [done|].
    exists pre, (post ++ [x]). split; [by rewrite <-app_assoc|].
    intros d [Hd| ->%list_elem_of_singleton]%elem_of_app; [by apply Hpost|done].
Qed.

Lemma buildCodeToOriginal_is_Some norm (l : list string) (code : string) :
  code ∈ norm <$> l → is_Some (buildCodeToOriginal norm l !! code).
Proof.
  induction l as [|x l IH] using rev_ind; [by intros ?%elem_of_nil|].
  rewrite fmap_app, elem_of_app, buildCodeToOriginal_snoc, lookup_insert.
  case_decide; [done|].
  intros [Hl| ->%list_elem_of_singleton]; [by apply IH | done].
Qed.

(** ** The scheduler's loop *)

Lemma filter_not_elem_of_nil (l : list string) : filter (λ y, y ∉ []) l = l.
Proof.
  induction l as [|y l IH]; [done|].
  rewrite filter_cons_True by apply not_elem_of_nil. by f_equal.
Qed.

Lemma allCourses_snoc (p : list SemesterPlanItem) (it : SemesterPlanItem) :
  allCourses (p ++ [it]) = allCourses p ++ courses it.
Proof. unfold allCourses. rewrite bind_app. cbn. by rewrite app_nil_r. Qed.

Section Scheduler.

Context (norm : string → string) (desired : list string) (cap : Z).

Local Abbreviation rank := (newSet (norm <$> desired)).
Local Abbreviation cto := (buildCodeToOriginal norm desired).

Lemma displayForm_of_ranked (code : string) :
  code ∈ rank →
  norm (displayForm cto code) = code ∧
  cto !! code = Some (displayForm cto code).
Proof.
  intros Hc. rewrite elem_of_newSet in Hc.
  destruct (buildCodeToOriginal_is_Some norm desired code Hc) as [c Hlk].
  unfold displayForm. rewrite Hlk. cbn.
  by destruct (buildCodeToOriginal_lookup _ _ _ _ Hlk) as [-> _].
Qed.

Lemma fmap_norm_displayForm (codes : list string) :
  (∀ x, x ∈ codes → x ∈ rank) →
  norm <$> (displayForm cto <$> codes) = codes.
Proof.
  induction codes as [|x codes IH]; [done|]. intros Hin. cbn.
  rewrite (proj1 (displayForm_of_ranked x (Hin x (list_elem_of_here _ _)))).
  f_equal. apply IH. intros y Hy. apply Hin. by right.
Qed.

(** What one iteration does to [remaining] and to [plan]. *)
Lemma assignTerm_effect (sem : Semester) (r : Resolution) (st : PlanState) :
  let taken := slice0 cap (offeredFromList norm (resOfferings r) (remaining st)) in
  remaining (assignTerm norm cap cto sem r st) =
    filter (λ y, y ∉ taken) (remaining st) ∧
  plan (assignTerm norm cap cto sem r st) =
    plan st ++
    (if decide (taken = []) then []
     else [{| year := semYear sem; term := semTerm sem; label := semLabel sem;
              courses := displayForm cto <$> taken;
              fromPrediction := if resFromPrediction r then Some true else None |}]).
Proof.
  intros taken. unfold assignTerm. cbn. fold taken.
  rewrite foldl_setDelete. split; [done|].
  destruct taken as [|x tk]; cbn; [by rewrite app_nil_r | done].
Qed.

Lemma PlanInv_initial (c : option OfferingsCache) :
  PlanInv norm desired cap {| plan := []; remaining := rank; cache := c |}.
Proof.
  repeat split; cbn.
  - by rewrite filter_not_elem_of_nil.
  - apply NoDup_nil_2.
  - by intros c' ?%elem_of_nil.
  - constructor.
Qed.

Lemma PlanInv_assignTerm (sem : Semester) (r : Resolution) (st : PlanState) :
  PlanInv norm desired cap st →
  PlanInv norm desired cap (assignTerm norm cap cto sem r st).
Proof.
  intros (Hrem & Hnd & Hcto & Hall).
  destruct (assignTerm_effect sem r st) as [Hr' Hp'].
  set (taken := slice0 cap (offeredFromList norm (resOfferings r) (remaining st))) in *.
  assert (Hsub : taken `sublist_of` remaining st).
  { etrans; [apply slice0_sublist | apply sublist_filter]. }
  assert (Htaken : ∀ x, x ∈ taken →
            x ∈ rank ∧ x ∉ norm <$> allCourses (plan st)).
  { intros x Hx. apply (sublist_subseteq _ _ Hsub) in Hx.
    rewrite Hrem in Hx. apply list_elem_of_filter in Hx. tauto. }
  assert (HndT : NoDup taken).
  { eapply sublist_NoDup; [apply NoDup_newSet|].
    etrans; [exact Hsub|]. rewrite Hrem. apply sublist_filter. }
  unfold PlanInv. rewrite Hr', Hp'. clear Hr' Hp'.
  destruct (decide (taken = [])) as [E|E].
  - rewrite E, app_nil_r, filter_not_elem_of_nil. done.
  - rewrite allCourses_snoc. cbn [courses].
    rewrite fmap_app, fmap_norm_displayForm by (intros x Hx; by apply Htaken).
    repeat split.
    + rewrite Hrem, list_filter_filter. apply list_filter_iff.
      intros x. rewrite elem_of_app. tauto.
    + apply NoDup_app. repeat split; [done| |done].
      intros x Hx Hx'. by apply (Htaken x Hx').
    + intros c [Hc|Hc]%elem_of_app; [by apply Hcto|].
      apply list_elem_of_fmap in Hc as (code & -> & Hcode).
      destruct (displayForm_of_ranked code) as [Hn Hl]; [by apply Htaken|].
      by rewrite Hn.
    + apply Forall_app. split; [done|]. apply Forall_singleton. cbn. split.
      * destruct taken; [done|]. discriminate.
      * intros Hcap. rewrite length_fmap. unfold taken.
        rewrite slice0_length by done. lia.
Qed.

(** The loop returns, keeps what its body keeps, and only appends to
    the plan; every iteration it runs starts from a state that satisfies
    what the body keeps, and what it pushes stays in the plan. *)
Lemma forSemesters_runs (P : PlanState → Prop)
    (semesters : list Semester) (st0 : PlanState) (w : World) :
  (∀ sem r st, P st → P (assignTerm norm cap cto sem r st)) →
  P st0 →
  ∃ stf w',
    forSemesters (loopBody norm cap cto) semesters st0 w = (Returned stf, w') ∧
    P stf ∧
    plan st0 `prefix_of` plan stf ∧
    ∀ sem st r, (sem, st, r) ∈ iterations norm cap cto semesters st0 w →
      P st ∧ plan (assignTerm norm cap cto sem r st) `prefix_of` plan stf.
Proof.
  intros Hstep. revert st0 w.
  induction semesters as [|sem rest IH]; intros st0 w H0; cbn.
  { exists st0, w. split_and!; [done..|]. by intros ??? ?%elem_of_nil. }
  destruct (remaining st0) as [|code rem] eqn:Erem.
  { exists st0, w. split_and!; [done..|]. by intros ??? ?%elem_of_nil. }
  unfold bind at 1. unfold loopBody at 1. unfold bind at 1.
  destruct (getOfferingsForSemesterWithPrediction_returns
              (semYear sem) (semTerm sem) (cache st0) w) as (r & w1 & ->).
  unfold ret at 1.
  destruct (IH (assignTerm norm cap cto sem r st0) w1 (Hstep _ _ _ H0))
    as (stf & w' & -> & Hf & Hpre & Hit).
  exists stf, w'. split_and!; [done..| |].
  - etrans; [|exact Hpre].
    rewrite (proj2 (assignTerm_effect sem r st0)). by apply prefix_app_r.
  - intros sem' st r' [[= -> -> ->]|Hin]%elem_of_cons; [done|].
    by apply Hit.
Qed.

Lemma planSetup_returns (w : World) :
  ∃ c semesters w',
    planSetup desired norm w =
      (Returned (cto, semesters, {| plan := []; remaining := rank; cache := c |}),
       w').
Proof.
  unfold planSetup, bind at 1.
  destruct (readCache_never_throws w) as (c & f & ->).
  eexists _, _, _. reflexivity.
Qed.

(** [buildSemesterPlan] returns, and its plan is the plan of a state that
    satisfies the loop invariant. *)
Lemma buildSemesterPlan_runs (w : World) :
  ∃ stf w',
    buildSemesterPlan desired cap norm w = (Returned (plan stf), w') ∧
    PlanInv norm desired cap stf ∧
    ∀ sem st r, (sem, st, r) ∈ planIterations desired cap norm w →
      PlanInv norm desired cap st ∧
      plan (assignTerm norm cap cto sem r st) `prefix_of` plan stf.
Proof.
  unfold buildSemesterPlan, planIterations, bind at 1.
  destruct (planSetup_returns w) as (c & semesters & w0 & ->).
  destruct (forSemesters_runs (PlanInv norm desired cap) semesters
              {| plan := []; remaining := rank; cache := c |} w0)
    as (stf & w' & E & Hf & _ & Hit);
    [apply PlanInv_assignTerm | apply PlanInv_initial |].
  unfold bind. rewrite E. by exists stf, w'.
Qed.

End Scheduler.

(** ** What an iteration of the loop resolves, offers and pushes *)

Lemma elem_of_offeredFromList (norm : string → string)
    (offerings remaining : list string) (a : string) :
  a ∈ offeredFromList norm offerings remaining ↔
  a ∈ remaining ∧ a ∈ norm <$> offerings.
Proof.
  unfold offeredFromList, setHas. rewrite list_elem_of_filter.
  rewrite bool_decide_spec, elem_of_newSet. tauto.
Qed.

Lemma iterations_resolved (norm : string → string) (cap : Z)
    (cto : gmap string string) (semesters : list Semester)
    (st0 : PlanState) (w : World) (sem : Semester) (st : PlanState)
    (r : Resolution) :
  (sem, st, r) ∈ iterations norm cap cto semesters st0 w →
  sem ∈ semesters ∧
  ∃ w1 w2, getOfferingsForSemesterWithPrediction
             (semYear sem) (semTerm sem) (cache st) w1 = (Returned r, w2).
Proof.
  revert st0 w. induction semesters as [|s rest IH]; intros st0 w; cbn.
  { by intros ?%elem_of_nil. }
  destruct (remaining st0) as [|code rem]; [by intros ?%elem_of_nil|].
  destruct (getOfferingsForSemesterWithPrediction
              (semYear s) (semTerm s) (cache st0) w) as [[r0|e] w1] eqn:E;
    [|by intros ?%elem_of_nil].
  intros [[= -> -> ->]|Hin]%elem_of_cons.
  - split; [apply list_elem_of_here|]. by exists w, w1.
  - destruct (IH _ _ Hin) as [Hs Hr]. split; [by right | done].
Qed.

Lemma forSemesters_plan_items (norm : string → string) (desired : list string)
    (cap : Z) (semesters : list Semester) (st0 stf : PlanState) (w w' : World) :
  forSemesters (loopBody norm cap (buildCodeToOriginal norm desired))
    semesters st0 w = (Returned stf, w') →
  ∀ it, it ∈ plan stf →
    it ∈ plan st0 ∨
    ∃ sem st r,
      (sem, st, r) ∈ iterations norm cap (buildCodeToOriginal norm desired)
                       semesters st0 w ∧
      slice0 cap (offeredFromList norm (resOfferings r) (remaining st)) ≠ [] ∧
      it = {| year := semYear sem; term := semTerm sem; label := semLabel sem;
              courses := displayForm (buildCodeToOriginal norm desired) <$>
                slice0 cap (offeredFromList norm (resOfferings r) (remaining st));
              fromPrediction :=
                if resFromPrediction r then Some true else None |}.
Proof.
  revert st0 w. induction semesters as [|s rest IH]; intros st0 w; cbn.
  { intros [= <- <-] it Hit. by left. }
  destruct (remaining st0) as [|code rem] eqn:Erem.
  { intros [= <- <-] it Hit. by left. }
  unfold bind at 1. unfold loopBody at 1. unfold bind at 1.
  destruct (getOfferingsForSemesterWithPrediction
              (semYear s) (semTerm s) (cache st0) w) as [[r0|e] w1] eqn:E;
    [|discriminate].
  unfold ret at 1. intros Hf it Hit.
  destruct (IH _ _ Hf it Hit) as [Hin|(sem & st & r & Hin & Hne & ->)].
  - rewrite (proj2 (assignTerm_effect norm desired cap s r0 st0)) in Hin.
    apply elem_of_app in Hin as [Hin|Hin]; [by left|]. right.
    destruct (decide (slice0 cap (offeredFromList norm (resOfferings r0)
                                   (remaining st0)) = [])) as [E0|E0];
      [by apply elem_of_nil in Hin|].
    apply list_elem_of_singleton in Hin as ->.
    exists s, st0, r0. split_and!; [apply list_elem_of_here|done|done].
  - right. exists sem, st, r. split_and!; [by right|done|done].
Qed.

Lemma NoDup_fmap_bind_disjoint {A B C} (f : B → C) (g : A → list B)
    (l : list A) (i j : nat) (x y : A) (b1 b2 : B) :
  NoDup (f <$> (l ≫= g)) →
  (i < j)%nat → l !! i = Some x → l !! j = Some y →
  b1 ∈ g x → b2 ∈ g y → f b1 ≠ f b2.
Proof.
  intros Hnd Hij Hi Hj Hb1 Hb2 Heq.
  rewrite <-(take_drop_middle l i x Hi) in Hnd.
  rewrite bind_app, bind_cons, !fmap_app in Hnd.
  apply NoDup_app in Hnd as (_ & _ & Hnd).
  apply NoDup_app in Hnd as (_ & Hdisj & _).
  apply (Hdisj (f b1)); [by apply list_elem_of_fmap_2|].
  rewrite Heq. apply list_elem_of_fmap_2, list_elem_of_bind.
  exists y. split; [done|].
  apply list_elem_of_lookup. exists (j - S i)%nat.
  rewrite lookup_drop. rewrite <-Hj. f_equal. lia.
Qed.

(** ** The scheduler *)

(** C1 (as the code has it).  Under a non-negative per-term capacity
    [buildSemesterPlan] returns a plan none of whose items has more courses
    than the capacity, and under capacity zero the plan is empty. *)
Theorem capacity_respected (desired : list string) (cap : Z)
    (norm : string → string) (w : World) :
  0 ≤ cap →
  ∃ p w',
    buildSemesterPlan desired cap norm w = (Returned p, w') ∧
    Forall (λ it, Z.of_nat (length (courses it)) ≤ cap) p ∧
    (cap = 0 → p = []).
Proof.
  intros Hcap.
  destruct (buildSemesterPlan_runs norm desired cap w)
    as (stf & w' & E & (_ & _ & _ & Hall) & _).
  exists (plan stf), w'. split; [done|]. split.
  - eapply Forall_impl; [exact Hall|]. intros it [_ Hit]. by apply Hit.
  - intros ->. destruct (plan stf) as [|it p]; [done|].
    apply Forall_cons in Hall as [[Hne Hlen] _].
    specialize (Hlen Hcap). destruct (courses it); [done|]. cbn in Hlen. lia.
Qed.

Lemma capacity_respected_witness :
  ∃ p w',
    buildSemesterPlan ["CMPT 225"; "CMPT 295"; "MATH 240"] 2 normalizeCode
      (worldWith writableFs sampleCatalog) = (Returned p, w') ∧
    Forall (λ it, Z.of_nat (length (courses it)) ≤ 2) p.
Proof.
  destruct (capacity_respected ["CMPT 225"; "CMPT 295"; "MATH 240"] 2
              normalizeCode (worldWith writableFs sampleCatalog))
    as (p & w' & E & Hall & _); [lia|].
  exists p, w'. split; [exact E | exact Hall].
Defined.

(** C1, counterexample.  Capacity [-1] is not treated as zero:
    [slice(0, -1)] drops the last offered code only, and the plan has an
    item with one course. *)
Lemma negative_capacity_not_clamped :
  fst (buildSemesterPlan ["CMPT 225"; "MATH 240"] (-1) normalizeCode
         (worldWith writableFs sampleCatalog)) =
    Returned [{| year := 2024; term := "fall"; label := "Fall 2024";
                 courses := ["CMPT 225"]; fromPrediction := None |}] ∧
  ¬ (Z.of_nat (length ["CMPT 225"]) ≤ -1).
Proof. split; [vm_compute; reflexivity | cbn; lia]. Qed.

(** C2.  [buildSemesterPlan] returns a plan in which no course code
    appears twice, as written and under normalization, and in which the
    course lists of two distinct items share no code. *)
Theorem no_duplicate_scheduling (desired : list string) (cap : Z)
    (norm : string → string) (w : World) :
  ∃ p w',
    buildSemesterPlan desired cap norm w = (Returned p, w') ∧
    NoDup (norm <$> allCourses p) ∧
    NoDup (allCourses p) ∧
    ∀ (i j : nat) it1 it2 c1 c2,
      i ≠ j → p !! i = Some it1 → p !! j = Some it2 →
      c1 ∈ courses it1 → c2 ∈ courses it2 →
      norm c1 ≠ norm c2 ∧ c1 ≠ c2.
Proof.
  destruct (buildSemesterPlan_runs norm desired cap w)
    as (stf & w' & E & (_ & Hnd & _ & _) & _).
  exists (plan stf), w'. split_and!; [done|done|by eapply NoDup_fmap_1|].
  intros i j it1 it2 c1 c2 Hij Hi Hj Hc1 Hc2.
  assert (Hn : norm c1 ≠ norm c2).
  { destruct (decide (i < j)%nat) as [Hlt|Hge].
    - by eapply (NoDup_fmap_bind_disjoint norm courses (plan stf) i j).
    - intros Heq. symmetry in Heq. revert Heq.
      eapply (NoDup_fmap_bind_disjoint norm courses (plan stf) j i); [done|lia|done..]. }
  split; [done | congruence].
Qed.

Lemma no_duplicate_scheduling_witness :
  ∃ p w',
    buildSemesterPlan ["CMPT 225"; "cmpt225"; "MATH 240"] 1 normalizeCode
      (worldWith writableFs sampleCatalog) = (Returned p, w') ∧
    NoDup (normalizeCode <$> allCourses p).
Proof.
  destruct (no_duplicate_scheduling ["CMPT 225"; "cmpt225"; "MATH 240"] 1
              normalizeCode (worldWith writableFs sampleCatalog))
    as (p & w' & E & Hnd & _).
  exists p, w'. split; [exact E | exact Hnd].
Defined.

(** C4.  Every item of the plan that [buildSemesterPlan] returns is pushed
    by one iteration of its loop, with as courses the display forms of the
    codes that iteration takes.  In every iteration the resolution is the
    one obtained for that semester; the remaining codes are the
    deduplicated desired codes not yet in the plan; the codes offered are
    exactly the remaining codes that are among the normalized offerings of
    the resolution, listed by strictly increasing rank (the index of the
    first occurrence in the normalized desired list); the codes taken are
    a prefix of that list, so that every code taken ranks before every
    remaining offered code that is not taken.  When more are offered than
    a non-negative capacity allows, exactly capacity many are taken, and
    what is taken is pushed as that term's plan item. *)
Theorem scheduler_takes_earliest_ranked (desired : list string) (cap : Z)
    (norm : string → string) (w : World) :
  ∃ p w',
    buildSemesterPlan desired cap norm w = (Returned p, w') ∧
    (∀ it, it ∈ p →
       ∃ sem st r,
         (sem, st, r) ∈ planIterations desired cap norm w ∧
         it = {| year := semYear sem; term := semTerm sem;
                 label := semLabel sem;
                 courses :=
                   displayForm (buildCodeToOriginal norm desired) <$>
                     slice0 cap (offeredFromList norm (resOfferings r)
                                   (remaining st));
                 fromPrediction :=
                   if resFromPrediction r then Some true else None |}) ∧
    ∀ sem st r, (sem, st, r) ∈ planIterations desired cap norm w →
      let offered := offeredFromList norm (resOfferings r) (remaining st) in
      let taken := slice0 cap offered in
      (∃ w1 w2, getOfferingsForSemesterWithPrediction
                  (semYear sem) (semTerm sem) (cache st) w1 = (Returned r, w2)) ∧
      remaining st =
        filter (λ code, code ∉ norm <$> allCourses (plan st))
          (newSet (norm <$> desired)) ∧
      (∀ a, a ∈ offered ↔ a ∈ remaining st ∧ a ∈ norm <$> resOfferings r) ∧
      StronglySorted (λ a b, firstIndex norm desired a < firstIndex norm desired b)
        offered ∧
      (∀ a, a ∈ offered → 0 ≤ firstIndex norm desired a) ∧
      (∃ left, offered = taken ++ left ∧
         ∀ a b, a ∈ taken → b ∈ left →
                firstIndex norm desired a < firstIndex norm desired b) ∧
      (∀ a b, a ∈ taken →
              b ∈ remaining st → b ∈ norm <$> resOfferings r → b ∉ taken →
              firstIndex norm desired a < firstIndex norm desired b) ∧
      (0 ≤ cap < Z.of_nat (length offered) → Z.of_nat (length taken) = cap) ∧
      (taken ≠ [] →
       plan st ++
         [{| year := semYear sem; term := semTerm sem; label := semLabel sem;
             courses := displayForm (buildCodeToOriginal norm desired) <$> taken;
             fromPrediction := if resFromPrediction r then Some true else None |}]
         `prefix_of` p).
Proof.
  destruct (buildSemesterPlan_runs norm desired cap w)
    as (stf & w' & E & _ & Hit).
  exists (plan stf), w'. split; [done|]. split.
  { revert E. unfold buildSemesterPlan, planIterations, bind at 1.
    destruct (planSetup_returns norm desired w) as (c & semesters & w0 & ->).
    unfold bind at 1.
    destruct (forSemesters _ semesters _ w0) as [[stf'|e] w1] eqn:Ef;
      [|discriminate].
    unfold ret. intros [= Hp _] it Hin. rewrite <-Hp in Hin.
    destruct (forSemesters_plan_items _ _ _ _ _ _ _ _ Ef it Hin)
      as [Hnil|(sem & st & r & Hmem & _ & ->)]; [by apply elem_of_nil in Hnil|].
    by exists sem, st, r. }
  intros sem st r Hmem.
  destruct (Hit sem st r Hmem) as [(Hrem & _) Hpre]. intros offered taken.
  assert (Hsub : offered `sublist_of` newSet (norm <$> desired)).
  { etrans; [apply sublist_filter|]. rewrite Hrem. apply sublist_filter. }
  pose proof (StronglySorted_sublist _ _ _ Hsub
                (newSet_sorted_by_first_index (norm <$> desired))) as Hs.
  destruct (slice0_split cap offered) as [left Hleft]. fold taken in Hleft.
  assert (Hrank : ∀ a b, a ∈ taken → b ∈ left →
            firstIndex norm desired a < firstIndex norm desired b).
  { intros a b Ha Hb. rewrite Hleft in Hs.
    by apply (StronglySorted_app_1_elem_of _ _ _ _ _ Hs). }
  split_and!.
  - revert Hmem. unfold planIterations.
    destruct (planSetup_returns norm desired w) as (c & semesters & w0 & ->).
    by intros [_ ?]%iterations_resolved.
  - done.
  - intros a. apply elem_of_offeredFromList.
  - exact Hs.
  - intros a Ha. apply (sublist_subseteq _ _ Hsub) in Ha.
    rewrite elem_of_newSet in Ha.
    unfold firstIndex. pose proof (indexOf_elem _ _ Ha). lia.
  - by exists left.
  - intros a b Ha Hb1 Hb2 Hb3. apply Hrank; [done|].
    assert (Hb : b ∈ offered) by by apply elem_of_offeredFromList.
    rewrite Hleft in Hb. apply elem_of_app in Hb as [Hb|Hb]; done.
  - intros [Hcap Hlt]. unfold taken. rewrite slice0_length by done. lia.
  - intros Hne. rewrite (proj2 (assignTerm_effect norm desired cap sem r st)) in Hpre.
    fold offered taken in Hpre. by destruct (decide (taken = [])).
Qed.

Lemma scheduler_takes_earliest_ranked_witness :
  ∃ p w' sem st r,
    buildSemesterPlan ["MATH 240"; "CMPT 225"; "CMPT 295"] 1 normalizeCode
      (worldWith writableFs sampleCatalog) = (Returned p, w') ∧
    (sem, st, r) ∈ planIterations ["MATH 240"; "CMPT 225"; "CMPT 295"] 1
                     normalizeCode (worldWith writableFs sampleCatalog) ∧
    resOfferings r = ["CMPT 225"; "MATH 240"] ∧
    remaining st = ["MATH 240"; "CMPT 225"; "CMPT 295"] ∧
    offeredFromList normalizeCode (resOfferings r) (remaining st) =
      ["MATH 240"; "CMPT 225"] ∧
    0 ≤ 1 < Z.of_nat (length (offeredFromList normalizeCode (resOfferings r)
                                (remaining st))) ∧
    Z.of_nat (length (slice0 1 (offeredFromList normalizeCode (resOfferings r)
                                  (remaining st)))) = 1 ∧
    (∀ b, b ∈ remaining st → b ∈ normalizeCode <$> resOfferings r →
          b ∉ slice0 1 (offeredFromList normalizeCode (resOfferings r)
                          (remaining st)) →
          firstIndex normalizeCode ["MATH 240"; "CMPT 225"; "CMPT 295"]
            "MATH 240" <
          firstIndex normalizeCode ["MATH 240"; "CMPT 225"; "CMPT 295"] b) ∧
    [{| year := 2024; term := "fall"; label := "Fall 2024";
        courses := ["MATH 240"]; fromPrediction := None |}] `prefix_of` p.
Proof.
  destruct (scheduler_takes_earliest_ranked
              ["MATH 240"; "CMPT 225"; "CMPT 295"] 1 normalizeCode
              (worldWith writableFs sampleCatalog)) as (p & w' & Ep & _ & H).
  destruct (planIterations ["MATH 240"; "CMPT 225"; "CMPT 295"] 1
              normalizeCode (worldWith writableFs sampleCatalog))
    as [|[[sem st] r] rest] eqn:E; [vm_compute in E; discriminate E|].
  vm_compute in E. injection E as Esem Est Er _.
  destruct (H sem st r (list_elem_of_here _ _))
    as (_ & _ & _ & _ & _ & _ & Hrank & Hlen & Hpush).
  subst sem st r.
  exists p, w'. eexists _, _, _.
  split; [exact Ep|]. split; [apply list_elem_of_here|].
  split; [reflexivity|]. split; [reflexivity|]. split; [reflexivity|].
  split; [split; [lia | vm_compute; reflexivity]|].
  split; [apply Hlen; split; [lia | vm_compute; reflexivity]|].
  split.
  - intros b. apply Hrank. apply list_elem_of_here.
  - apply Hpush. discriminate.
Defined.

(** C8 (as the code has it).  The plan holds each normalized code at
    most once, and every course of a plan item is the last element of the
    desired list with its normalized code: of two display forms of one
    code, the later one is carried. *)
Theorem plan_carries_last_display_form (desired : list string) (cap : Z)
    (norm : string → string) (w : World) :
  ∃ p w',
    buildSemesterPlan desired cap norm w = (Returned p, w') ∧
    NoDup (norm <$> allCourses p) ∧
    ∀ it c, it ∈ p → c ∈ courses it →
      ∃ pre post, desired = pre ++ c :: post ∧ ∀ d, d ∈ post → norm d ≠ norm c.
Proof.
  destruct (buildSemesterPlan_runs norm desired cap w)
    as (stf & w' & E & (_ & Hnd & Hcto & _) & _).
  exists (plan stf), w'. split_and!; [done..|].
  intros it c Hit Hc.
  assert (Hall : c ∈ allCourses (plan stf)).
  { apply list_elem_of_bind. by exists it. }
  by destruct (buildCodeToOriginal_lookup _ _ _ _ (Hcto c Hall)) as [_ ?].
Qed.

Lemma plan_carries_last_display_form_witness :
  ∃ p w',
    buildSemesterPlan ["CMPT 225"; "cmpt225"] 3 normalizeCode
      (worldWith writableFs sampleCatalog) = (Returned p, w') ∧
    NoDup (normalizeCode <$> allCourses p).
Proof.
  destruct (plan_carries_last_display_form ["CMPT 225"; "cmpt225"] 3
              normalizeCode (worldWith writableFs sampleCatalog))
    as (p & w' & E & Hnd & _).
  exists p, w'. split; [exact E | exact Hnd].
Defined.

(** C8, counterexample.  "CMPT 225" and "cmpt225" are two display forms
    of one code; the plan item that schedules it carries "cmpt225", the
    second of them. *)
Lemma plan_carries_second_display_form :
  normalizeCode "CMPT 225" = normalizeCode "cmpt225" ∧
  fst (buildSemesterPlan ["CMPT 225"; "cmpt225"] 3 normalizeCode
         (worldWith writableFs sampleCatalog)) =
    Returned [{| year := 2024; term := "fall"; label := "Fall 2024";
                 courses := ["cmpt225"]; fromPrediction := None |}].
Proof. split; vm_compute; reflexivity. Qed.

(** * Further properties of the code *)

(** ** The cache store: reading, and writing then reading *)

(** X1.  [readCache] never throws and never changes the cache file.  It
    returns the stored cache exactly when the file is readable and holds a
    JSON document with a [semesters] object; a missing, unreadable or
    unparseable file, or a document without [semesters], gives [null]. *)
Theorem readCache_result (w : World) :
  ∃ c f,
    readCache w = (Returned c, withFs f w) ∧
    cacheFile f = cacheFile (fs w) ∧
    (∀ lu sems,
       readFails (fs w) = false →
       cacheFile (fs w) = Some (JsonDoc lu (Some sems)) →
       c = Some {| lastUpdated := lu; semesters := sems |}) ∧
    (readFails (fs w) = true ∨ cacheFile (fs w) = None ∨
     cacheFile (fs w) = Some Unparseable ∨
     (∃ lu, cacheFile (fs w) = Some (JsonDoc lu None)) →
     c = None).
Proof.
  destruct w as [[d c mk rd wr] tk cl fl rm].
  unfold readCache. unfold_io. cbn.
  destruct d, mk, rd, c as [[|lu [sems|]]|]; cbn;
    eexists _, _; (split; [reflexivity|]); cbn;
    (split_and!;
     [reflexivity | intros; congruence
     | intros [?|[?|[?|[? ?]]]]; congruence]).
Qed.

Lemma readCache_result_witness :
  ∃ c w',
    readCache (worldWith shippedFs silentCatalog) = (Returned c, w') ∧
    c = Some cache2023.
Proof.
  destruct (readCache_result (worldWith shippedFs silentCatalog))
    as (c & f & E & _ & Hsome & _).
  eexists c, _. split; [exact E|].
  apply (Hsome _ _ eq_refl eq_refl).
Defined.

Lemma writeCache_then_readCache (data : OfferingsCache) (w : World) :
  writeFails (fs w) = false →
  readFails (fs w) = false →
  dirExists (fs w) = true ∨ mkdirFails (fs w) = false →
  ∃ w1 w2,
    writeCache data w = (Returned tt, w1) ∧
    readCache w1 = (Returned (Some data), w2).
Proof.
  destruct w as [[d c mk rd wr] tk cl fl rm]. cbn.
  intros -> -> Hdir. destruct data as [lu sems].
  unfold writeCache, readCache. unfold_io. cbn.
  destruct d; cbn.
  - eexists _, _. split; reflexivity.
  - destruct Hdir as [?| ->]; [done|]. cbn. eexists _, _. split; reflexivity.
Qed.

(** X2.  On a medium that accepts writes and reads and has (or can
    create) the data directory, a cache written by [writeCache] is what
    the next [readCache] returns. *)
Theorem writeCache_readCache_roundtrip (data : OfferingsCache) (w : World) :
  writeFails (fs w) = false →
  readFails (fs w) = false →
  dirExists (fs w) = true ∨ mkdirFails (fs w) = false →
  ∃ w1 w2,
    writeCache data w = (Returned tt, w1) ∧
    readCache w1 = (Returned (Some data), w2).
Proof.
  destruct w as [[d c mk rd wr] tk cl fl rm]. cbn.
  intros -> -> Hdir. destruct data as [lu sems].
  unfold writeCache, readCache. unfold_io. cbn.
  destruct d; cbn.
  - eexists _, _. split; reflexivity.
  - destruct Hdir as [?| ->]; [done|]. cbn. eexists _, _. split; reflexivity.
Qed.

Lemma writeCache_readCache_roundtrip_witness :
  ∃ w1 w2,
    writeCache cache2023 (worldWith writableFs silentCatalog) = (Returned tt, w1) ∧
    readCache w1 = (Returned (Some cache2023), w2).
Proof.
  apply (writeCache_readCache_roundtrip cache2023
           (worldWith writableFs silentCatalog));
    [reflexivity | reflexivity | left; reflexivity].
Defined.

(** X3.  A write that fails loses nothing: when the medium refuses the
    write, or the data directory is missing and cannot be created,
    [writeCache] returns with the cache file as it was, so [readCache]
    answers as before. *)
Theorem writeCache_failure_keeps_store (data : OfferingsCache) (w : World) :
  writeFails (fs w) = true ∨
  (dirExists (fs w) = false ∧ mkdirFails (fs w) = true) →
  ∃ w1,
    writeCache data w = (Returned tt, w1) ∧
    cacheFile (fs w1) = cacheFile (fs w) ∧
    fst (readCache w1) = fst (readCache w).
Proof.
  destruct w as [[d c mk rd wr] tk cl fl rm]. cbn.
  intros Hfail.
  unfold writeCache, readCache. unfold_io. cbn.
  destruct d, mk, wr; cbn;
    try (exfalso; destruct Hfail as [?|[? ?]]; congruence);
    eexists; (split; [reflexivity|]); cbn; (split; [reflexivity|]);
    destruct c as [[|lu [sems|]]|], rd; reflexivity.
Qed.

Lemma writeCache_failure_keeps_store_witness :
  ∃ w1,
    writeCache {| lastUpdated := "later"; semesters := ∅ |}
      (worldWith shippedFs silentCatalog) = (Returned tt, w1) ∧
    fst (readCache w1) = Returned (Some cache2023).
Proof.
  destruct (writeCache_failure_keeps_store
              {| lastUpdated := "later"; semesters := ∅ |}
              (worldWith shippedFs silentCatalog))
    as (w1 & E & _ & Hread); [left; reflexivity|].
  exists w1. split; [exact E|].
  rewrite Hread. reflexivity.
Defined.

(** ** The resolver and the store *)

(** X4.  After a cache miss on a medium that accepts writes and reads,
    the cache that [getOfferingsForSemester] returns is the one the store
    holds: the next [readCache] returns it. *)
Theorem resolution_persists_miss (y : Z) (t : string)
    (c : option OfferingsCache) (w : World) :
  writeFails (fs w) = false →
  readFails (fs w) = false →
  dirExists (fs w) = true ∨ mkdirFails (fs w) = false →
  (∀ o os, inputSemesters c !! semesterKey y t ≠ Some (o :: os)) →
  ∃ offs next w1 w2,
    getOfferingsForSemester y t c w = (Returned (offs, next), w1) ∧
    readCache w1 = (Returned (Some next), w2).
Proof.
  intros Hwr Hrd Hdir Hmiss. unfold getOfferingsForSemester.
  destruct c as [c|]; cbn in Hmiss |- *.
  - unfold bind at 1, ret at 1. cbn [semesters].
    destruct (semesters c !! semesterKey y t) as [[|o os]|] eqn:E;
      try (by destruct (Hmiss o os)).
    all: unfold bind, fetchSemesterFromAPI, newDate, ret;
      match goal with
      | |- context [writeCache ?d ?w0] =>
          destruct (writeCache_then_readCache d w0 Hwr Hrd Hdir)
            as (w1 & w2 & -> & Hread)
      end; by eexists _, _, _, _.
  - unfold bind at 1, newDate at 1, bind at 1, ret at 1. cbn [semesters].
    rewrite lookup_empty.
    unfold bind, fetchSemesterFromAPI, newDate, ret; cbn [fetchLog remote].
    match goal with
    | |- context [writeCache ?d ?w0] =>
        destruct (writeCache_then_readCache d w0 Hwr Hrd Hdir)
          as (w1 & w2 & -> & Hread)
    end. by eexists _, _, _, _.
Qed.

Lemma resolution_persists_miss_witness :
  ∃ offs next w1 w2,
    getOfferingsForSemester 2024 "fall" (Some cache2023)
      (worldWith writableFs sampleCatalog) = (Returned (offs, next), w1) ∧
    readCache w1 = (Returned (Some next), w2).
Proof.
  apply (resolution_persists_miss 2024 "fall" (Some cache2023)
           (worldWith writableFs sampleCatalog));
    [reflexivity | reflexivity | left; reflexivity |].
  intros o os. vm_compute. discriminate.
Defined.

(** X5.  What the flag of the prediction wrapper means.  With
    [fromPrediction = false] the offerings are non-empty and are the
    entry the returned cache holds under the term key.  With
    [fromPrediction = true] the returned cache holds the empty list under
    the term key: the predicted offerings are handed out but never stored
    as that term's offerings. *)
Theorem prediction_is_not_cached (y : Z) (t : string)
    (c : option OfferingsCache) (w : World) :
  ∃ r w',
    getOfferingsForSemesterWithPrediction y t c w = (Returned r, w') ∧
    (resFromPrediction r = false →
     resOfferings r ≠ [] ∧
     semesters (resCache r) !! semesterKey y t = Some (resOfferings r)) ∧
    (resFromPrediction r = true →
     semesters (resCache r) !! semesterKey y t = Some [] ∧
     resOfferings r =
       default [] (semesters (resCache r) !! semesterKey (y - 1) t)).
Proof.
  destruct (getOfferingsForSemester_returns y t c w)
    as (offs & next & w' & E & _ & Hkey & _).
  unfold getOfferingsForSemesterWithPrediction, bind. rewrite E.
  destruct offs as [|o os]; cbn; eexists _, _; (split; [reflexivity|]); cbn.
  - split; [discriminate|]. intros _. by split.
  - split; [|discriminate]. intros _. by split.
Qed.

Lemma prediction_is_not_cached_witness :
  ∃ r w',
    getOfferingsForSemesterWithPrediction 2024 "fall" (Some cache2023)
      (worldWith writableFs silentCatalog) = (Returned r, w') ∧
    semesters (resCache r) !! semesterKey 2024 "fall" = Some [].
Proof.
  destruct (prediction_is_not_cached 2024 "fall" (Some cache2023)
              (worldWith writableFs silentCatalog))
    as (r & w' & E & _ & Hpred).
  exists r, w'. split; [exact E|].
  apply Hpred.
  vm_compute in E. injection E as <- _. reflexivity.
Defined.

(** ** The horizon *)

Lemma startIndex_range (startTerm : string) : 0 ≤ startIndex startTerm < 3.
Proof.
  unfold startIndex.
  destruct (decide (toLowerCase startTerm ∈ TERMS)) as [Hin|Hout].
  - pose proof (indexOf_elem _ _ Hin) as H.
    change (Z.of_nat (length TERMS)) with 3 in H. lia.
  - rewrite (indexOf_absent _ _ Hout). lia.
Qed.

Lemma listSemestersLoop_closed_form (n : nat) (k y : Z) (out : list Semester) :
  0 ≤ k < 3 →
  listSemestersLoop n k y out = out ++ (semesterAfter y k <$> seq 0 n).
Proof.
  revert k y out. induction n as [|n IH]; intros k y out Hk.
  { cbn. by rewrite app_nil_r. }
  cbn [listSemestersLoop seq fmap list_fmap]. rewrite <-fmap_S_seq, <-list_fmap_compose.
  assert (Hfirst : semesterAfter y k 0 =
            {| semYear := y; semTerm := nth (Z.to_nat k) TERMS "";
               semLabel := cap (nth (Z.to_nat k) TERMS "") +:+ " " +:+ pretty y |}).
  { unfold semesterAfter. cbn [Z.of_nat]. rewrite Z.add_0_r.
    rewrite Z.div_small, Z.mod_small, Z.add_0_r by lia. done. }
  rewrite Hfirst. change (Z.of_nat (length TERMS)) with 3.
  destruct (Z.geb_spec (k + 1) 3) as [Hwrap|Hnext].
  - rewrite IH by lia. rewrite <-app_assoc. cbn [app]. do 2 f_equal.
    apply list_fmap_ext. intros _ i _. unfold compose, semesterAfter.
    assert (k = 2) as -> by lia.
    replace (2 + Z.of_nat (S i)) with (0 + Z.of_nat i + 1 * 3) by lia.
    rewrite Z.div_add, Z.mod_add by lia.
    by replace (y + 1 + (0 + Z.of_nat i) / 3)
      with (y + ((0 + Z.of_nat i) / 3 + 1)) by lia.
  - rewrite IH by lia. rewrite <-app_assoc. cbn [app]. do 2 f_equal.
    apply list_fmap_ext. intros _ i _. unfold compose, semesterAfter.
    by replace (k + 1 + Z.of_nat i) with (k + Z.of_nat (S i)) by lia.
Qed.

Lemma listSemesters_semesterAfter
    (startYear : Z) (startTerm : string) (maxSemesters : Z) :
  listSemesters startYear startTerm maxSemesters =
    semesterAfter startYear (startIndex startTerm)
      <$> seq 0 (Z.to_nat maxSemesters).
Proof.
  unfold listSemesters.
  pose proof (startIndex_range startTerm) as Hk. unfold startIndex in *.
  destruct (Z.ltb_spec (indexOf TERMS (toLowerCase startTerm)) 0) as [Hneg|Hpos].
  - rewrite Z.max_l in Hk |- * by lia.
    by rewrite listSemestersLoop_closed_form by lia.
  - rewrite Z.max_r in Hk |- * by lia.
    by rewrite listSemestersLoop_closed_form by lia.
Qed.

Lemma length_listSemesters
    (startYear : Z) (startTerm : string) (maxSemesters : Z) :
  length (listSemesters startYear startTerm maxSemesters) =
    Z.to_nat maxSemesters.
Proof. by rewrite listSemesters_semesterAfter, length_fmap, length_seq. Qed.

(** X6.  [listSemesters] returns exactly [maxSemesters] semesters (none
    when that is not positive), and its [i]-th one is the term [i] steps
    after the start term in the three-term cycle, the year growing by one
    at each wrap from "fall" to "spring", labelled with the capitalized
    term and the year. *)
Theorem listSemesters_closed_form
    (startYear : Z) (startTerm : string) (maxSemesters : Z) :
  listSemesters startYear startTerm maxSemesters =
    semesterAfter startYear (startIndex startTerm)
      <$> seq 0 (Z.to_nat maxSemesters) ∧
  length (listSemesters startYear startTerm maxSemesters) =
    Z.to_nat maxSemesters.
Proof.
  assert (E : listSemesters startYear startTerm maxSemesters =
            semesterAfter startYear (startIndex startTerm)
              <$> seq 0 (Z.to_nat maxSemesters)).
  { unfold listSemesters.
    pose proof (startIndex_range startTerm) as Hk. unfold startIndex in *.
    destruct (Z.ltb_spec (indexOf TERMS (toLowerCase startTerm)) 0) as [Hneg|Hpos].
    - rewrite Z.max_l in Hk |- * by lia.
      by rewrite listSemestersLoop_closed_form by lia.
    - rewrite Z.max_r in Hk |- * by lia.
      by rewrite listSemestersLoop_closed_form by lia. }
  split; [exact E|]. by rewrite E, length_fmap, length_seq.
Qed.

Lemma indexOf_TERMS_nth (m : Z) :
  0 ≤ m < 3 → indexOf TERMS (nth (Z.to_nat m) TERMS "") = m.
Proof.
  intros Hm.
  assert (m = 0 ∨ m = 1 ∨ m = 2) as [->|[->| ->]] by lia; reflexivity.
Qed.

Lemma listSemesters_lookup_ordinal
    (startYear : Z) (startTerm : string) (maxSemesters : Z)
    (i : nat) (sem : Semester) :
  listSemesters startYear startTerm maxSemesters !! i = Some sem →
  semTerm sem ∈ TERMS ∧
  3 * semYear sem + indexOf TERMS (semTerm sem) =
    3 * startYear + startIndex startTerm + Z.of_nat i.
Proof.
  rewrite listSemesters_semesterAfter, list_lookup_fmap.
  intros Hi. apply fmap_Some in Hi as (i' & Hi'%lookup_seq & ->).
  destruct Hi' as [-> _]. cbn [plus].
  pose proof (startIndex_range startTerm) as Hk.
  set (a := startIndex startTerm + Z.of_nat i).
  assert (Hmod : 0 ≤ a mod 3 < 3) by (apply Z.mod_pos_bound; lia).
  unfold semesterAfter. cbn [semYear semTerm]. fold a. split.
  - assert (a mod 3 = 0 ∨ a mod 3 = 1 ∨ a mod 3 = 2) as [->|[->| ->]] by lia;
      cbn; unfold TERMS; rewrite !elem_of_cons; auto.
  - rewrite indexOf_TERMS_nth by done.
    pose proof (Z.div_mod a 3). lia.
Qed.

(** X7.  The horizon is chronological without gaps or repeats: counting
    terms as [3 * year + index of the term in the cycle], the semester at
    position [i] is exactly [i] terms after the start term, and every term
    of the horizon is a term of the cycle. *)
Theorem listSemesters_consecutive
    (startYear : Z) (startTerm : string) (maxSemesters : Z)
    (i : nat) (sem : Semester) :
  listSemesters startYear startTerm maxSemesters !! i = Some sem →
  semTerm sem ∈ TERMS ∧
  3 * semYear sem + indexOf TERMS (semTerm sem) =
    3 * startYear + startIndex startTerm + Z.of_nat i.
Proof.
  rewrite listSemesters_semesterAfter, list_lookup_fmap.
  intros Hi. apply fmap_Some in Hi as (i' & Hi'%lookup_seq & ->).
  destruct Hi' as [-> _]. cbn [plus].
  pose proof (startIndex_range startTerm) as Hk.
  set (a := startIndex startTerm + Z.of_nat i).
  assert (Hmod : 0 ≤ a mod 3 < 3) by (apply Z.mod_pos_bound; lia).
  unfold semesterAfter. cbn [semYear semTerm]. fold a. split.
  - assert (a mod 3 = 0 ∨ a mod 3 = 1 ∨ a mod 3 = 2) as [->|[->| ->]] by lia;
      cbn; unfold TERMS; rewrite !elem_of_cons; auto.
  - rewrite indexOf_TERMS_nth by done.
    pose proof (Z.div_mod a 3). lia.
Qed.

Lemma listSemesters_consecutive_witness :
  ∃ sem,
    listSemesters 2024 "Fall" 12 !! 4%nat = Some sem ∧
    3 * semYear sem + indexOf TERMS (semTerm sem) = 3 * 2024 + 2 + 4.
Proof.
  eexists. split; [reflexivity|].
  apply (listSemesters_consecutive 2024 "Fall" 12 4). reflexivity.
Defined.

(** ** The scheduler: what the plan holds, and when it is scheduled *)

(** X8.  The plan schedules only desired codes: every course of the plan
    is an element of the desired list as written there, no plan item is
    empty, and the plan holds at most as many courses as the desired list
    has elements; an empty desired list gives an empty plan. *)
Theorem plan_schedules_only_desired (desired : list string) (cap : Z)
    (norm : string → string) (w : World) :
  ∃ p w',
    buildSemesterPlan desired cap norm w = (Returned p, w') ∧
    (∀ c, c ∈ allCourses p → c ∈ desired) ∧
    Forall (λ it, courses it ≠ []) p ∧
    (length (allCourses p) ≤ length desired)%nat ∧
    (desired = [] → p = []).
Proof.
  destruct (buildSemesterPlan_runs norm desired cap w)
    as (stf & w' & E & (_ & Hnd & Hcto & Hall) & _).
  exists (plan stf), w'.
  assert (Hin : ∀ c, c ∈ allCourses (plan stf) → c ∈ desired).
  { intros c Hc.
    destruct (buildCodeToOriginal_lookup _ _ _ _ (Hcto c Hc))
      as (_ & pre & post & -> & _).
    apply elem_of_app. right. by left. }
  assert (Hne : Forall (λ it, courses it ≠ []) (plan stf)).
  { eapply Forall_impl; [exact Hall|]. by intros it [? _]. }
  split_and!; [done..| |].
  - rewrite <-(length_fmap norm (allCourses (plan stf))),
      <-(length_fmap norm desired).
    apply submseteq_length, NoDup_submseteq; [done|].
    intros x (c & -> & Hc)%list_elem_of_fmap.
    by apply list_elem_of_fmap_2, Hin.
  - intros ->. destruct (plan stf) as [|it p]; [done|].
    apply Forall_cons in Hne as [Hit _].
    destruct (courses it) as [|c cs] eqn:Ec; [done|].
    assert (Hc : c ∈ allCourses (it :: p)).
    { unfold allCourses. rewrite bind_cons, Ec. by left. }
    by apply Hin, elem_of_nil in Hc.
Qed.

Lemma plan_schedules_only_desired_witness :
  ∃ p w',
    buildSemesterPlan [] 3 normalizeCode (worldWith writableFs sampleCatalog) =
      (Returned p, w') ∧
    p = [].
Proof.
  destruct (plan_schedules_only_desired [] 3 normalizeCode
              (worldWith writableFs sampleCatalog))
    as (p & w' & E & _ & _ & _ & Hnil).
  exists p, w'. split; [exact E|]. apply Hnil. reflexivity.
Defined.

(** The wrapper performs at most one catalog fetch, for the term asked. *)
Lemma getOfferingsForSemesterWithPrediction_fetch y t c w :
  ∃ r w',
    getOfferingsForSemesterWithPrediction y t c w = (Returned r, w') ∧
    (fetchLog w' = fetchLog w ∨ fetchLog w' = fetchLog w ++ [(y, t)]).
Proof.
  assert (∃ v w',
     getOfferingsForSemester y t c w = (Returned v, w') ∧
     (fetchLog w' = fetchLog w ∨ fetchLog w' = fetchLog w ++ [(y, t)]))
    as (v & w' & E & Hlog).
  { destruct (inputSemesters c !! semesterKey y t) as [[|o os]|] eqn:Ek.
    2: { destruct c as [c|]; [|cbn in Ek; by rewrite lookup_empty in Ek].
         eexists _, w. rewrite (getOfferingsForSemester_hit _ _ _ o os) by done.
         split; [done | by left]. }
    all: destruct (getOfferingsForSemester_miss y t c w) as (lu & w' & -> & Hl & _);
      [intros o os; rewrite Ek; congruence|];
      eexists _, _; split; [done | by right]. }
  unfold getOfferingsForSemesterWithPrediction, bind. rewrite E.
  destruct v as [offs next].
  destruct (0 <? Z.of_nat (length offs)); eexists _, _; split; done.
Qed.

(** The loop pushes items and asks the catalog only for semesters of its
    horizon, in the order of the horizon, each at most once. *)
Lemma forSemesters_within_horizon norm cap cto
    (semesters : list Semester) (st0 : PlanState) (w : World) :
  ∃ stf w' items fetched,
    forSemesters (loopBody norm cap cto) semesters st0 w = (Returned stf, w') ∧
    plan stf = plan st0 ++ items ∧
    (itemSemester <$> items) `sublist_of` semesters ∧
    fetchLog w' = fetchLog w ++ fetched ∧
    fetched `sublist_of` (semesterQuery <$> semesters).
Proof.
  revert st0 w. induction semesters as [|sem rest IH]; intros st0 w; cbn.
  { exists st0, w, [], []. by rewrite !app_nil_r. }
  destruct (remaining st0) as [|code rem] eqn:Erem.
  { exists st0, w, [], []. rewrite !app_nil_r.
    split_and!; [done..|apply sublist_nil_l|done|apply sublist_nil_l]. }
  unfold bind at 1. unfold loopBody at 1. unfold bind at 1.
  destruct (getOfferingsForSemesterWithPrediction_fetch
              (semYear sem) (semTerm sem) (cache st0) w) as (r & w1 & -> & Hlog).
  unfold ret at 1.
  destruct (IH (assignTerm norm cap cto sem r st0) w1)
    as (stf & w' & items & fetched & -> & Hplan & Hitems & Hfetch & Hsub).
  unfold assignTerm in Hplan at 1. cbn [plan] in Hplan.
  set (taken := slice0 cap (offeredFromList norm (resOfferings r) (remaining st0))) in *.
  destruct sem as [sy stm sl]. cbn [semYear semTerm semLabel] in *.
  destruct (0 <? Z.of_nat (length taken));
    destruct Hlog as [Hlog|Hlog]; rewrite Hlog in Hfetch;
    try rewrite <-app_assoc in Hplan; try rewrite <-app_assoc in Hfetch;
    eexists stf, w', _, _;
    (split_and!; [done | exact Hplan | | exact Hfetch | ]);
    cbn; first [by apply sublist_skip | by apply sublist_cons].
Qed.

Lemma planSetup_horizon (desired : list string) (norm : string → string)
    (w : World) :
  ∃ c f,
    planSetup desired norm w =
      (Returned (buildCodeToOriginal norm desired,
                 listSemesters (curYear (semesterOfDate (clock w (ticks w))))
                   (curTerm (semesterOfDate (clock w (ticks w))))
                   MAX_SEMESTERS_PLAN,
                 {| plan := []; remaining := newSet (norm <$> desired);
                    cache := c |}),
       {| fs := f; ticks := S (ticks w); clock := clock w;
          fetchLog := fetchLog w; remote := remote w |}).
Proof.
  unfold planSetup, bind at 1.
  destruct (readCache_never_throws w) as (c & f & ->).
  eexists _, _. reflexivity.
Qed.

(** X9.  The plan is scheduled along the horizon: the semesters of its
    items, in plan order, are a subsequence of the twelve semesters that
    start at the current one, so the plan has at most twelve items, in
    chronological order, none before the current semester. *)
Theorem plan_follows_horizon (desired : list string) (cap : Z)
    (norm : string → string) (w : World) :
  ∃ p w',
    buildSemesterPlan desired cap norm w = (Returned p, w') ∧
    (itemSemester <$> p) `sublist_of`
      listSemesters (curYear (semesterOfDate (clock w (ticks w))))
        (curTerm (semesterOfDate (clock w (ticks w)))) MAX_SEMESTERS_PLAN ∧
    (length p ≤ 12)%nat.
Proof.
  unfold buildSemesterPlan, bind at 1.
  destruct (planSetup_horizon desired norm w) as (c & f & ->).
  cbn beta iota. unfold bind.
  match goal with
  | |- context [forSemesters ?b ?sems ?st ?w0] =>
      destruct (forSemesters_within_horizon norm cap
                  (buildCodeToOriginal norm desired) sems st w0)
        as (stf & w' & items & fetched & E & Hplan & Hsub & _)
  end.
  rewrite E. cbn in Hplan. subst items.
  exists (plan stf), w'. split_and!; [done..|].
  apply sublist_length in Hsub.
  rewrite length_fmap, length_listSemesters in Hsub.
  exact Hsub.
Qed.

(** X10.  [buildSemesterPlan] asks the catalog only about semesters of
    its horizon, in horizon order and each at most once: it makes at most
    twelve catalog fetches. *)
Theorem plan_fetches_within_horizon (desired : list string) (cap : Z)
    (norm : string → string) (w : World) :
  ∃ p w' fetched,
    buildSemesterPlan desired cap norm w = (Returned p, w') ∧
    fetchLog w' = fetchLog w ++ fetched ∧
    fetched `sublist_of`
      (semesterQuery <$>
         listSemesters (curYear (semesterOfDate (clock w (ticks w))))
           (curTerm (semesterOfDate (clock w (ticks w)))) MAX_SEMESTERS_PLAN) ∧
    (length fetched ≤ 12)%nat.
Proof.
  unfold buildSemesterPlan, bind at 1.
  destruct (planSetup_horizon desired norm w) as (c & f & ->).
  cbn beta iota. unfold bind.
  match goal with
  | |- context [forSemesters ?b ?sems ?st ?w0] =>
      destruct (forSemesters_within_horizon norm cap
                  (buildCodeToOriginal norm desired) sems st w0)
        as (stf & w' & items & fetched & E & _ & _ & Hlog & Hsub)
  end.
  rewrite E. cbn in Hlog.
  exists (plan stf), w', fetched. split_and!; [done..|].
  apply sublist_length in Hsub.
  rewrite !length_fmap, length_listSemesters in Hsub.
  exact Hsub.
Qed.

(** ** The scheduler and the storage medium *)

#[local] Arguments writeCache : simpl never.

Ltac step_writeCache :=
  match goal with
  | |- context [writeCache ?d ?w0] =>
      let f := fresh "f" in
      let E := fresh "E" in
      destruct (writeCache_never_throws d w0) as [f E]; rewrite E; clear E
  end.

(** What resolution returns, and what it does to the clock and to the
    fetch log, does not depend on the storage medium. *)
Lemma getOfferingsForSemester_ignores_store y t c w :
  ∃ v w0 f,
    getOfferingsForSemester y t c w = (Returned v, withFs f w0) ∧
    ∀ g, ∃ f',
      getOfferingsForSemester y t c (withFs g w) = (Returned v, withFs f' w0).
Proof.
  destruct w as [f0 tk cl fl rm].
  unfold getOfferingsForSemester, bind, ret, newDate, fetchSemesterFromAPI.
  destruct c as [c|]; cbn.
  - destruct (semesters c !! semesterKey y t) as [[|o os]|] eqn:E.
    + step_writeCache. eexists _, _, _. split; [reflexivity|].
      intros g. step_writeCache. eexists. reflexivity.
    + eexists _, {| fs := f0; ticks := tk; clock := cl; fetchLog := fl;
                    remote := rm |}, f0.
      split; [reflexivity|]. intros g. exists g. reflexivity.
    + step_writeCache. eexists _, _, _. split; [reflexivity|].
      intros g. step_writeCache. eexists. reflexivity.
  - rewrite lookup_empty.
    step_writeCache. eexists _, _, _. split; [reflexivity|].
    intros g. step_writeCache. eexists. reflexivity.
Qed.

Lemma getOfferingsForSemesterWithPrediction_ignores_store y t c w :
  ∃ r w0 f,
    getOfferingsForSemesterWithPrediction y t c w = (Returned r, withFs f w0) ∧
    ∀ g, ∃ f',
      getOfferingsForSemesterWithPrediction y t c (withFs g w) =
        (Returned r, withFs f' w0).
Proof.
  destruct (getOfferingsForSemester_ignores_store y t c w)
    as ([offs next] & w0 & f & E & Hg).
  unfold getOfferingsForSemesterWithPrediction, bind. rewrite E.
  destruct (0 <? Z.of_nat (length offs)) eqn:Ec.
  - eexists _, _, _. split; [reflexivity|].
    intros g. destruct (Hg g) as [f' ->]. rewrite Ec. eexists. reflexivity.
  - eexists _, _, _. split; [reflexivity|].
    intros g. destruct (Hg g) as [f' ->]. rewrite Ec. eexists. reflexivity.
Qed.

Lemma forSemesters_ignores_store norm cap cto
    (semesters : list Semester) (st0 : PlanState) (w : World) :
  ∃ stf w0 f,
    forSemesters (loopBody norm cap cto) semesters st0 w =
      (Returned stf, withFs f w0) ∧
    ∀ g, ∃ f',
      forSemesters (loopBody norm cap cto) semesters st0 (withFs g w) =
        (Returned stf, withFs f' w0).
Proof.
  revert st0 w. induction semesters as [|sem rest IH]; intros st0 w.
  { destruct w as [f0 tk cl fl rm]. cbn.
    eexists st0, {| fs := f0; ticks := tk; clock := cl; fetchLog := fl;
                    remote := rm |}, f0.
    split; [reflexivity|]. intros g. exists g. reflexivity. }
  cbn [forSemesters]. destruct (remaining st0) as [|code rem] eqn:Erem.
  { destruct w as [f0 tk cl fl rm]. cbn.
    eexists st0, {| fs := f0; ticks := tk; clock := cl; fetchLog := fl;
                    remote := rm |}, f0.
    split; [reflexivity|]. intros g. exists g. reflexivity. }
  destruct (getOfferingsForSemesterWithPrediction_ignores_store
              (semYear sem) (semTerm sem) (cache st0) w)
    as (r & w1 & f1 & E1 & Hg1).
  destruct (IH (assignTerm norm cap cto sem r st0) w1)
    as (stf & w0 & f & E & Hg).
  exists stf, w0. destruct (Hg f1) as [f2 E2]. exists f2. split.
  - unfold bind at 1. unfold loopBody at 1. unfold bind at 1.
    rewrite E1. unfold ret at 1. exact E2.
  - intros g. destruct (Hg1 g) as [f1' E1'].
    destruct (Hg f1') as [f2' E2']. exists f2'.
    unfold bind at 1. unfold loopBody at 1. unfold bind at 1.
    rewrite E1'. unfold ret at 1. exact E2'.
Qed.

Lemma planSetup_reads_cache (desired : list string) (norm : string → string)
    (w : World) :
  ∃ c f,
    fst (readCache w) = Returned c ∧
    planSetup desired norm w =
      (Returned (buildCodeToOriginal norm desired,
                 listSemesters (curYear (semesterOfDate (clock w (ticks w))))
                   (curTerm (semesterOfDate (clock w (ticks w))))
                   MAX_SEMESTERS_PLAN,
                 {| plan := []; remaining := newSet (norm <$> desired);
                    cache := c |}),
       withFs f {| fs := fs w; ticks := S (ticks w); clock := clock w;
                   fetchLog := fetchLog w; remote := remote w |}).
Proof.
  unfold planSetup, bind at 1.
  destruct (readCache_never_throws w) as (c & f & E). rewrite E.
  eexists _, _. split; reflexivity.
Qed.

(** X11.  Caching is an optimization only: the plan depends on the
    storage medium through the cache read at the start and through nothing
    else.  Replacing the medium by any other from which [readCache] reads
    the same cache, whether or not it accepts writes, gives the same
    plan. *)
Theorem plan_ignores_store (desired : list string) (cap : Z)
    (norm : string → string) (w : World) (g : FS) :
  fst (readCache (withFs g w)) = fst (readCache w) →
  fst (buildSemesterPlan desired cap norm (withFs g w)) =
    fst (buildSemesterPlan desired cap norm w).
Proof.
  intros Hread. unfold buildSemesterPlan, bind at 1 3.
  destruct (planSetup_reads_cache desired norm w) as (c & f & Ec & ->).
  destruct (planSetup_reads_cache desired norm (withFs g w))
    as (c' & f' & Ec' & ->).
  rewrite Hread, Ec in Ec'. injection Ec' as <-.
  cbn beta iota. unfold bind.
  match goal with
  | |- context [forSemesters ?b ?sems ?st
                  (withFs f {| fs := fs w; ticks := ?tk; clock := ?cl;
                               fetchLog := ?fl; remote := ?rm |})] =>
      destruct (forSemesters_ignores_store norm cap
                  (buildCodeToOriginal norm desired) sems st
                  {| fs := fs w; ticks := tk; clock := cl;
                     fetchLog := fl; remote := rm |})
        as (stf & w0 & f1 & _ & Hg)
  end.
  destruct (Hg f) as [f2 E2]. destruct (Hg f') as [f2' E2'].
  repeat match goal with
  | |- context [forSemesters ?b ?s ?st ?W] =>
      first
        [ replace (forSemesters b s st W) with (Returned stf, withFs f2 w0)
            by (symmetry; exact E2)
        | replace (forSemesters b s st W) with (Returned stf, withFs f2' w0)
            by (symmetry; exact E2') ]
  end.
  reflexivity.
Qed.

Lemma plan_ignores_store_witness :
  fst (buildSemesterPlan ["CMPT 225"; "CMPT 295"; "MATH 240"] 2 normalizeCode
         (withFs readOnlyFs (worldWith writableFs sampleCatalog))) =
  fst (buildSemesterPlan ["CMPT 225"; "CMPT 295"; "MATH 240"] 2 normalizeCode
         (worldWith writableFs sampleCatalog)).
Proof.
  apply (plan_ignores_store ["CMPT 225"; "CMPT 295"; "MATH 240"] 2
           normalizeCode (worldWith writableFs sampleCatalog) readOnlyFs).
  reflexivity.
Defined.

(** ** Completed and taken courses *)

Lemma elem_of_foldl_setAdd (s l : list string) (x : string) :
  x ∈ foldl setAdd s l ↔ x ∈ s ∨ x ∈ l.
Proof.
  revert s. induction l as [|y l IH]; intros s; cbn.
  - rewrite elem_of_nil. tauto.
  - rewrite IH, elem_of_setAdd, elem_of_cons. tauto.
Qed.

Lemma NoDup_foldl_setAdd (s l : list string) :
  NoDup s → NoDup (foldl setAdd s l).
Proof.
  revert s. induction l as [|y l IH]; intros s Hs; cbn; [done|].
  by apply IH, NoDup_setAdd.
Qed.

Lemma elem_of_expandGroup (completed out group : list string) (x : string) :
  x ∈ expandGroup completed out group ↔
  x ∈ out ∨
  (x ∈ normalizeCode <$> group ∧
   ∃ y, y ∈ normalizeCode <$> group ∧ y ∈ completed).
Proof.
  unfold expandGroup.
  destruct (existsb _ _) eqn:E.
  - rewrite elem_of_foldl_setAdd.
    apply existsb_exists in E as (y & Hy%list_elem_of_In & Hc).
    unfold setHas in Hc. apply bool_decide_eq_true in Hc.
    split; [intros [?|?]; [by left|right; eauto]|tauto].
  - split; [by left|]. intros [?|(_ & y & Hy & Hc)]; [done|].
    assert (existsb (λ c, setHas completed c) (normalizeCode <$> group) = true);
      [|congruence].
    apply existsb_exists. exists y. split; [by apply list_elem_of_In|].
    by apply bool_decide_eq_true.
Qed.

Lemma elem_of_foldl_expandGroup (completed out : list string)
    (groups : list (list string)) (x : string) :
  x ∈ foldl (expandGroup completed) out groups ↔
  x ∈ out ∨
  ∃ group, group ∈ groups ∧ x ∈ normalizeCode <$> group ∧
           ∃ y, y ∈ normalizeCode <$> group ∧ y ∈ completed.
Proof.
  revert out. induction groups as [|g groups IH]; intros out; cbn.
  - split; [by left|]. by intros [?|(? & ?%elem_of_nil & _)].
  - rewrite IH, elem_of_expandGroup. split.
    + intros [[?|[? ?]]|(g' & ? & ?)].
      * by left.
      * right. exists g. split; [by left|done].
      * right. exists g'. split; [by right|done].
    + intros [?|(g' & [->|?]%elem_of_cons & ?)].
      * by left; left.
      * by left; right.
      * right. by exists g'.
Qed.

Lemma NoDup_foldl_expandGroup (completed out : list string)
    (groups : list (list string)) :
  NoDup out → NoDup (foldl (expandGroup completed) out groups).
Proof.
  revert out. induction groups as [|g groups IH]; intros out Hout; cbn; [done|].
  apply IH. unfold expandGroup. destruct (existsb _ _); [|done].
  by apply NoDup_foldl_setAdd.
Qed.

Lemma elem_of_expandedTaken (completed : list string) (x : string) :
  x ∈ expandedTaken completed ↔
  x ∈ completed ∨
  ∃ group, group ∈ EQUIVALENCE_GROUPS ∧ x ∈ normalizeCode <$> group ∧
           ∃ y, y ∈ normalizeCode <$> group ∧ y ∈ completed.
Proof.
  unfold expandedTaken. by rewrite elem_of_foldl_expandGroup, elem_of_newSet.
Qed.

(** X12.  [expandedTaken] holds no code twice, and a code is in it
    exactly when it is completed or belongs (normalized) to an equivalence
    group one of whose codes is completed: the completed set is always
    included, and a group is added whole or not at all. *)
Theorem expandedTaken_membership (completed : list string) (x : string) :
  NoDup (expandedTaken completed) ∧
  (x ∈ expandedTaken completed ↔
   x ∈ completed ∨
   ∃ group, group ∈ EQUIVALENCE_GROUPS ∧ x ∈ normalizeCode <$> group ∧
            ∃ y, y ∈ normalizeCode <$> group ∧ y ∈ completed).
Proof.
  unfold expandedTaken. split.
  - apply NoDup_foldl_expandGroup, NoDup_newSet.
  - by rewrite elem_of_foldl_expandGroup, elem_of_newSet.
Qed.

Lemma expandedTaken_membership_witness :
  "MATH 151" ∈ expandedTaken ["CMPT 120"; "MATH 150"].
Proof.
  apply (proj2 (expandedTaken_membership ["CMPT 120"; "MATH 150"] "MATH 151")).
  right. exists ["MATH 150"; "MATH 151"; "MATH 154"; "MATH 157"].
  split; [apply list_elem_of_here|].
  split; [vm_compute; apply list_elem_of_further, list_elem_of_here|].
  exists "MATH 150". split; [vm_compute; apply list_elem_of_here|].
  apply list_elem_of_further, list_elem_of_here.
Defined.

Ltac split_elem_of :=
  repeat match goal with
  | H : _ ∈ _ :: _ |- _ => apply elem_of_cons in H as [H|H]; [try subst|]
  | H : _ ∈ [] |- _ => by apply elem_of_nil in H
  end.

(** No code belongs to two of the equivalence groups. *)
Lemma EQUIVALENCE_GROUPS_disjoint (g1 g2 : list string) (y : string) :
  g1 ∈ EQUIVALENCE_GROUPS → g2 ∈ EQUIVALENCE_GROUPS →
  y ∈ normalizeCode <$> g1 → y ∈ normalizeCode <$> g2 → g1 = g2.
Proof.
  unfold EQUIVALENCE_GROUPS. intros H1 H2 Hy1 Hy2.
  split_elem_of;
    repeat match goal with
    | H : _ ∈ normalizeCode <$> ?g |- _ =>
        let l := eval vm_compute in (normalizeCode <$> g) in
        change (normalizeCode <$> g) with l in H
    end;
    split_elem_of; first [reflexivity | discriminate].
Qed.

(** X13.  Expanding twice adds nothing: [expandedTaken] is a closure,
    because the equivalence groups share no code. *)
Theorem expandedTaken_idempotent (completed : list string) (x : string) :
  x ∈ expandedTaken (expandedTaken completed) ↔ x ∈ expandedTaken completed.
Proof.
  rewrite (elem_of_expandedTaken (expandedTaken completed) x).
  split; [|by left].
  intros [Hx|(g & Hg & Hxg & y & Hyg & Hy)]; [done|].
  apply (elem_of_expandedTaken completed y) in Hy
    as [Hy|(g' & Hg' & Hyg' & z & Hzg' & Hz)];
    apply (elem_of_expandedTaken completed x); right.
  - exists g. eauto.
  - rewrite (EQUIVALENCE_GROUPS_disjoint g g' y) in Hxg by done.
    exists g'. eauto.
Qed.

Lemma elem_of_completedSet (parsed : ParsedTranscript) (x : string) :
  x ∈ completedSet parsed ↔
  ∃ code, Some code ∈ default [] (completed_courses parsed) ∧
          code ≠ "" ∧ x = normalizeCode code.
Proof.
  unfold completedSet.
  generalize (default [] (completed_courses parsed)). intros l.
  induction l as [|c l IH] using rev_ind; cbn.
  - split; [by intros ?%elem_of_nil | by intros (? & ?%elem_of_nil & _)].
  - rewrite foldl_snoc. destruct c as [code|].
    + case_bool_decide as Hc.
      * rewrite IH. split; intros (c' & Hin & ? & ?); exists c'.
        -- split; [apply elem_of_app; by left|done].
        -- apply elem_of_app in Hin as [?|Hin%list_elem_of_singleton]; [done|].
           congruence.
      * rewrite elem_of_setAdd, IH. split.
        -- intros [(c' & Hin & ? & ?)| ->].
           ++ exists c'. split; [apply elem_of_app; by left|done].
           ++ exists code. split; [apply elem_of_app; right; by left|done].
        -- intros (c' & Hin & ? & ->).
           apply elem_of_app in Hin as [?|Hin%list_elem_of_singleton].
           ++ left. by exists c'.
           ++ right. congruence.
    + rewrite IH. split; intros (c' & Hin & ? & ?); exists c'.
      * split; [apply elem_of_app; by left|done].
      * apply elem_of_app in Hin as [?|Hin%list_elem_of_singleton]; [done|].
        congruence.
Qed.

(** X14.  A transcript without a course list has nothing taken.  Every
    course the transcript lists with a non-empty code is taken, under its
    normalized code; and when that code belongs to an equivalence group,
    every course of the group is taken as well. *)
Theorem transcript_group_is_taken (parsed : ParsedTranscript) :
  (completed_courses parsed = None → expandedTaken (completedSet parsed) = []) ∧
  ∀ code, Some code ∈ default [] (completed_courses parsed) → code ≠ "" →
    normalizeCode code ∈ expandedTaken (completedSet parsed) ∧
    ∀ group member,
      group ∈ EQUIVALENCE_GROUPS →
      normalizeCode code ∈ normalizeCode <$> group →
      member ∈ group →
      normalizeCode member ∈ expandedTaken (completedSet parsed).
Proof.
  split.
  - unfold completedSet. intros ->. reflexivity.
  - intros code Hin Hne.
    assert (Hc : normalizeCode code ∈ completedSet parsed).
    { apply elem_of_completedSet. by exists code. }
    split.
    + apply elem_of_expandedTaken. by left.
    + intros group member Hg Hcg Hm.
      apply elem_of_expandedTaken. right. exists group.
      split; [done|]. split; [by apply list_elem_of_fmap_2|].
      by exists (normalizeCode code).
Qed.

Lemma transcript_group_is_taken_witness :
  normalizeCode "MATH 157" ∈ expandedTaken (completedSet sampleTranscript).
Proof.
  apply (proj2 (transcript_group_is_taken sampleTranscript) "math150")
    with (group := ["MATH 150"; "MATH 151"; "MATH 154"; "MATH 157"]).
  - apply list_elem_of_here.
  - discriminate.
  - apply list_elem_of_here.
  - vm_compute. apply list_elem_of_here.
  - do 3 apply list_elem_of_further. apply list_elem_of_here.
Defined.

(** ** Normalizing course codes *)

Lemma append_cons (c : ascii) (a b : string) : String c a +:+ b = String c (a +:+ b).
Proof. reflexivity. Qed.

Lemma append_nil_l (s : string) : "" +:+ s = s.
Proof. reflexivity. Qed.

Lemma append_nil_r (s : string) : s +:+ "" = s.
Proof. induction s as [|c s IH]; [done|]. by rewrite append_cons, IH. Qed.

Lemma append_assoc (a b c : string) : (a +:+ b) +:+ c = a +:+ (b +:+ c).
Proof. induction a as [|x a IH]; [done|]. by rewrite !append_cons, IH. Qed.

Lemma rev_app_acc (s acc : string) :
  String.rev_app s acc = String.rev_app s "" +:+ acc.
Proof.
  revert acc. induction s as [|c s IH]; intros acc; [done|].
  cbn. rewrite (IH (String c acc)), (IH (String c "")), append_assoc. done.
Qed.

Lemma rev_cons (c : ascii) (s : string) :
  String.rev (String c s) = String.rev s +:+ String c "".
Proof. unfold String.rev. cbn. by rewrite rev_app_acc. Qed.

Lemma rev_snoc (c : ascii) (s : string) :
  String.rev (s +:+ String c "") = String c (String.rev s).
Proof.
  induction s as [|x s IH]; [done|].
  rewrite append_cons, rev_cons, IH, rev_cons. done.
Qed.

Lemma dropSpaces_app (a b : string) :
  dropSpaces (a +:+ b) =
    match dropSpaces a with
    | EmptyString => dropSpaces b
    | String c r => String c r +:+ b
    end.
Proof.
  induction a as [|x a IH]; [done|].
  rewrite append_cons. cbn. destruct (isSpace x); [exact IH|done].
Qed.

Lemma rev_eq_nil (s : string) : String.rev s = "" → s = "".
Proof.
  destruct s as [|c s]; [done|]. rewrite rev_cons.
  destruct (String.rev s); discriminate.
Qed.

Lemma trailing_structural (s : string) :
  String.rev (dropSpaces (String.rev s)) = dropTrailingSpaces s.
Proof.
  induction s as [|c s IH]; [done|].
  rewrite rev_cons, dropSpaces_app. cbn [dropTrailingSpaces].
  destruct (dropSpaces (String.rev s)) as [|x r] eqn:E.
  - cbn in IH. rewrite <-IH. cbn. by destruct (isSpace c).
  - rewrite rev_snoc, IH.
    destruct (dropTrailingSpaces s) as [|y t] eqn:Et; [|done].
    by apply rev_eq_nil in IH.
Qed.

Lemma trim_structural (s : string) : trim s = dropTrailingSpaces (dropSpaces s).
Proof. unfold trim. apply trailing_structural. Qed.

Ltac all_ascii c := destruct c as [[] [] [] [] [] [] [] []]; vm_compute; try reflexivity; try discriminate.

Lemma isSpace_upperChar c : isSpace (upperChar c) = isSpace c.
Proof. all_ascii c. Qed.
Lemma isSpace_lowerChar c : isSpace (lowerChar c) = isSpace c.
Proof. all_ascii c. Qed.
Lemma upperChar_idemp c : upperChar (upperChar c) = upperChar c.
Proof. all_ascii c. Qed.
Lemma upperChar_lowerChar c : upperChar (lowerChar c) = upperChar c.
Proof. all_ascii c. Qed.
Lemma upperChar_isUpperAZ c : isUpperAZ c = true → upperChar c = c.
Proof. all_ascii c. Qed.
Lemma upperChar_isDigit c : isDigit c = true → upperChar c = c.
Proof. all_ascii c. Qed.
Lemma isSpace_isUpperAZ c : isUpperAZ c = true → isSpace c = false.
Proof. all_ascii c. Qed.
Lemma isSpace_isDigit c : isDigit c = true → isSpace c = false.
Proof. all_ascii c. Qed.
Lemma isUpperAZ_isDigit c : isDigit c = true → isUpperAZ c = false.
Proof. all_ascii c. Qed.
Lemma isUpperAZ_space : isUpperAZ " " = false.
Proof. reflexivity. Qed.

Lemma toUpperCase_mapString s : toUpperCase s = mapString upperChar s.
Proof. induction s as [|c s IH]; [done|]. cbn. by rewrite IH. Qed.
Lemma toLowerCase_mapString s : toLowerCase s = mapString lowerChar s.
Proof. induction s as [|c s IH]; [done|]. cbn. by rewrite IH. Qed.

Section MapString.
Context (f : ascii → ascii) (Hf : ∀ c, isSpace (f c) = isSpace c)
  (Hsp : f " "%char = " "%char).

Lemma mapString_eq_nil s : mapString f s = "" ↔ s = "".
Proof. by destruct s. Qed.

Lemma dropSpaces_mapString s :
  dropSpaces (mapString f s) = mapString f (dropSpaces s).
Proof.
  induction s as [|c s IH]; [done|]. cbn. rewrite Hf.
  by destruct (isSpace c).
Qed.

Lemma collapseWhitespace_mapString s :
  collapseWhitespace (mapString f s) = mapString f (collapseWhitespace s).
Proof.
  induction s as [|c s IH]; [done|].
  cbn [mapString collapseWhitespace]. rewrite Hf.
  destruct (isSpace c).
  - destruct s as [|c' s']; [cbn; by rewrite Hsp|].
    cbn [mapString] in *. rewrite Hf.
    destruct (isSpace c'); [exact IH|]. rewrite IH. cbn [mapString]. by rewrite Hsp.
  - by rewrite IH.
Qed.

Lemma dropTrailingSpaces_mapString s :
  dropTrailingSpaces (mapString f s) = mapString f (dropTrailingSpaces s).
Proof.
  induction s as [|c s IH]; [done|].
  cbn [mapString dropTrailingSpaces]. rewrite IH, Hf.
  destruct (dropTrailingSpaces s); cbn; [by destruct (isSpace c)|done].
Qed.

Lemma trim_mapString s : trim (mapString f s) = mapString f (trim s).
Proof.
  by rewrite !trim_structural, dropSpaces_mapString, dropTrailingSpaces_mapString.
Qed.

End MapString.

Lemma mapString_compose f g s :
  mapString f (mapString g s) = mapString (λ c, f (g c)) s.
Proof. induction s as [|c s IH]; [done|]. cbn. by rewrite IH. Qed.

Lemma mapString_ext f g s : (∀ c, f c = g c) → mapString f s = mapString g s.
Proof. intros H. induction s as [|c s IH]; [done|]. cbn. by rewrite H, IH. Qed.

Lemma mapString_app f a b :
  mapString f (a +:+ b) = mapString f a +:+ mapString f b.
Proof.
  induction a as [|c a IH]; [done|].
  rewrite append_cons. cbn [mapString]. by rewrite append_cons, IH.
Qed.

Lemma collapseWhitespace_wsNormal s : wsNormal (collapseWhitespace s).
Proof.
  induction s as [|c s IH]; [done|].
  cbn [collapseWhitespace]. destruct (isSpace c) eqn:Ec.
  - destruct s as [|c' s']; [by cbn|].
    destruct (isSpace c') eqn:Ec'; [exact IH|].
    cbn [collapseWhitespace] in IH |- *. rewrite Ec' in IH |- *.
    split; [|exact IH]. intros _. split; [done|exact Ec'].
  - split; [|exact IH]. rewrite Ec. discriminate.
Qed.

Lemma collapseWhitespace_id s : wsNormal s → collapseWhitespace s = s.
Proof.
  induction s as [|c s IH]; [done|]. intros [Hc Hs].
  cbn [collapseWhitespace]. destruct (isSpace c) eqn:Ec.
  - destruct (Hc eq_refl) as [-> Hnext].
    destruct s as [|c' s']; [done|]. rewrite Hnext. by rewrite IH.
  - by rewrite IH.
Qed.

Lemma wsNormal_dropSpaces s : wsNormal s → wsNormal (dropSpaces s).
Proof.
  induction s as [|c s IH]; [done|]. intros [Hc Hs]. cbn [dropSpaces].
  destruct (isSpace c) eqn:E; [by apply IH|].
  split; [|done]. intros H. congruence.
Qed.

Lemma dropTrailingSpaces_head s c r :
  dropTrailingSpaces s = String c r → ∃ t, s = String c t.
Proof.
  destruct s as [|x s]; [done|]. cbn.
  destruct (dropTrailingSpaces s); [destruct (isSpace x)|]; intros [= -> _]; eauto.
Qed.

Lemma wsNormal_dropTrailingSpaces s : wsNormal s → wsNormal (dropTrailingSpaces s).
Proof.
  induction s as [|c s IH]; [done|]. intros [Hc Hs]. cbn [dropTrailingSpaces].
  specialize (IH Hs).
  destruct (dropTrailingSpaces s) as [|c' r] eqn:E.
  - destruct (isSpace c) eqn:Ec; [done|]. split; [|done]. intros H. congruence.
  - split; [|exact IH]. intros Hsp. destruct (Hc Hsp) as [-> Hnext].
    split; [done|]. by apply dropTrailingSpaces_head in E as [t ->].
Qed.

Lemma dropSpaces_head s c r : dropSpaces s = String c r → isSpace c = false.
Proof.
  induction s as [|x s IH]; [done|]. cbn.
  destruct (isSpace x) eqn:Ex; [exact IH|]. by intros [= <- _].
Qed.

Lemma dropSpaces_id s :
  match s with String c _ => isSpace c = false | EmptyString => True end →
  dropSpaces s = s.
Proof. destruct s as [|c s]; [done|]. cbn. by intros ->. Qed.

Lemma dropTrailingSpaces_idemp s :
  dropTrailingSpaces (dropTrailingSpaces s) = dropTrailingSpaces s.
Proof.
  induction s as [|c s IH]; [done|]. cbn [dropTrailingSpaces].
  destruct (dropTrailingSpaces s) as [|c' r] eqn:E.
  - destruct (isSpace c) eqn:Ec; [done|]. cbn. by rewrite Ec.
  - change (dropTrailingSpaces (String c (String c' r)))
      with (match dropTrailingSpaces (String c' r) with
            | EmptyString => if isSpace c then EmptyString else String c EmptyString
            | String x y => String c (String x y)
            end).
    by rewrite IH.
Qed.

Lemma trim_head s :
  match trim s with String c _ => isSpace c = false | EmptyString => True end.
Proof.
  rewrite trim_structural.
  destruct (dropTrailingSpaces (dropSpaces s)) as [|c r] eqn:E; [done|].
  apply dropTrailingSpaces_head in E as [t E].
  by apply dropSpaces_head in E.
Qed.

Lemma trim_idemp s : trim (trim s) = trim s.
Proof.
  rewrite (trim_structural (trim s)), dropSpaces_id by apply trim_head.
  rewrite trim_structural. apply dropTrailingSpaces_idemp.
Qed.

Lemma wsNormal_trim s : wsNormal s → wsNormal (trim s).
Proof.
  intros H. rewrite trim_structural.
  by apply wsNormal_dropTrailingSpaces, wsNormal_dropSpaces.
Qed.

Lemma preNormal_idemp s : preNormal (preNormal s) = preNormal s.
Proof.
  unfold preNormal. rewrite !toUpperCase_mapString.
  rewrite collapseWhitespace_mapString by (apply isSpace_upperChar || done).
  rewrite trim_mapString by apply isSpace_upperChar.
  rewrite mapString_compose.
  rewrite (mapString_ext _ upperChar) by apply upperChar_idemp.
  rewrite (collapseWhitespace_id (trim _))
    by apply wsNormal_trim, collapseWhitespace_wsNormal.
  by rewrite trim_idemp.
Qed.

Lemma spanUpper_spec s l r :
  spanUpper s = (l, r) →
  s = l +:+ r ∧ allChars isUpperAZ l = true ∧
  headIs (λ c, negb (isUpperAZ c)) r.
Proof.
  revert l r. induction s as [|c s IH]; intros l r; cbn.
  - by intros [= <- <-].
  - destruct (isUpperAZ c) eqn:Ec.
    + destruct (spanUpper s) as [l' r'] eqn:Es. intros [= <- <-].
      destruct (IH _ _ eq_refl) as (-> & Hl & Hr).
      rewrite append_cons. cbn. by rewrite Ec, Hl.
    + intros [= <- <-]. cbn. by rewrite Ec.
Qed.

Lemma spanUpper_app d x :
  allChars isUpperAZ d = true →
  headIs (λ c, negb (isUpperAZ c)) x →
  spanUpper (d +:+ x) = (d, x).
Proof.
  intros Hd Hx. induction d as [|c d IH].
  - rewrite append_nil_l. destruct x as [|c x]; [done|]. cbn in Hx |- *.
    by apply negb_true_iff in Hx as ->.
  - cbn in Hd. apply andb_true_iff in Hd as [Hc Hd].
    rewrite append_cons. cbn. by rewrite Hc, (IH Hd).
Qed.

Lemma dropSpaces_suffix s : ∃ sp, s = sp +:+ dropSpaces s.
Proof.
  induction s as [|c s [sp IH]]; [by exists ""|]. cbn.
  destruct (isSpace c).
  - exists (String c sp). by rewrite append_cons, <-IH.
  - by exists "".
Qed.

Lemma wsNormal_app_r a b : wsNormal (a +:+ b) → wsNormal b.
Proof.
  induction a as [|c a IH]; [done|]. rewrite append_cons. intros [_ H]. by apply IH.
Qed.

Lemma wsNormal_upper_app d x :
  allChars isUpperAZ d = true → wsNormal x → wsNormal (d +:+ x).
Proof.
  intros Hd Hx. induction d as [|c d IH]; [done|].
  cbn in Hd. apply andb_true_iff in Hd as [Hc Hd].
  rewrite append_cons. split; [|by apply IH].
  intros Hsp. by rewrite (isSpace_isUpperAZ c Hc) in Hsp.
Qed.

Lemma wsNormal_mapString f s :
  (∀ c, isSpace (f c) = isSpace c) → f " "%char = " "%char →
  wsNormal s → wsNormal (mapString f s).
Proof.
  intros Hf Hsp. induction s as [|c s IH]; [done|]. intros [Hc Hs].
  cbn [mapString]. split; [|by apply IH].
  rewrite Hf. intros Hc'. destruct (Hc Hc') as [-> Hnext].
  split; [done|]. destruct s as [|c' s']; [done|]. cbn. by rewrite Hf.
Qed.

Lemma noTrailing_app_r a b :
  dropTrailingSpaces (a +:+ b) = a +:+ b → b ≠ "" → dropTrailingSpaces b = b.
Proof.
  intros H Hb. induction a as [|c a IH]; [done|].
  rewrite append_cons in H. cbn [dropTrailingSpaces] in H.
  destruct (dropTrailingSpaces (a +:+ b)) as [|x r] eqn:E.
  - destruct (isSpace c); [discriminate H|].
    injection H as H. destruct a; [by rewrite append_nil_l in H|discriminate H].
  - injection H as H. by apply IH.
Qed.

Lemma noTrailing_app a b :
  dropTrailingSpaces b = b → b ≠ "" → dropTrailingSpaces (a +:+ b) = a +:+ b.
Proof.
  intros H Hb. induction a as [|c a IH]; [done|].
  rewrite append_cons. cbn [dropTrailingSpaces]. rewrite IH.
  destruct (a +:+ b) as [|x r] eqn:E; [|done].
  destruct a; [by rewrite append_nil_l in E|discriminate E].
Qed.

Lemma toUpperCase_upper d : allChars isUpperAZ d = true → toUpperCase d = d.
Proof.
  induction d as [|c d IH]; [done|]. cbn.
  intros [Hc Hd]%andb_true_iff. by rewrite (upperChar_isUpperAZ c Hc), IH.
Qed.

Lemma toUpperCase_app a b : toUpperCase (a +:+ b) = toUpperCase a +:+ toUpperCase b.
Proof. rewrite !toUpperCase_mapString. apply mapString_app. Qed.

Lemma toUpperCase_dropSpaces s : toUpperCase (dropSpaces s) = dropSpaces (toUpperCase s).
Proof.
  rewrite !toUpperCase_mapString.
  symmetry. apply dropSpaces_mapString, isSpace_upperChar.
Qed.

Lemma preNormal_fixed r :
  wsNormal r → headIs (λ c, negb (isSpace c)) r →
  dropTrailingSpaces r = r → toUpperCase r = r → preNormal r = r.
Proof.
  intros Hws Hhead Htr Hup. unfold preNormal.
  rewrite (collapseWhitespace_id r Hws), trim_structural, dropSpaces_id, Htr, Hup; [done|].
  destruct r as [|c r]; [done|]. cbn in Hhead. by apply negb_true_iff in Hhead.
Qed.

Lemma preNormal_facts s :
  wsNormal (preNormal s) ∧
  dropTrailingSpaces (preNormal s) = preNormal s ∧
  toUpperCase (preNormal s) = preNormal s.
Proof.
  unfold preNormal. rewrite !toUpperCase_mapString. split_and!.
  - apply wsNormal_mapString; [apply isSpace_upperChar|done|].
    apply wsNormal_trim, collapseWhitespace_wsNormal.
  - rewrite dropTrailingSpaces_mapString by apply isSpace_upperChar.
    by rewrite trim_structural, dropTrailingSpaces_idemp.
  - rewrite mapString_compose. apply mapString_ext, upperChar_idemp.
Qed.

(** A successful match fixes its own normal form. *)
Lemma matchDeptNumber_normal s d n :
  matchDeptNumber (preNormal s) = Some (d, n) →
  preNormal (d +:+ " " +:+ n) = d +:+ " " +:+ n ∧
  matchDeptNumber (d +:+ " " +:+ n) = Some (d, n).
Proof.
  destruct (preNormal_facts s) as (Hws & Htr & Hup).
  unfold matchDeptNumber.
  destruct (spanUpper (preNormal s)) as [l rest] eqn:Es.
  destruct (spanUpper_spec _ _ _ Es) as (Hp & Hl & Hrest).
  destruct l as [|l0 l']; [discriminate|].
  destruct (dropSpaces rest) as [|dg tl] eqn:Ed; [discriminate|].
  destruct (isDigit dg) eqn:Edg; [|discriminate].
  intros [= <- <-].
  destruct (dropSpaces_suffix rest) as [sp Hsp]. rewrite Ed in Hsp.
  set (d := String l0 l') in *. set (n := String dg tl) in *.
  assert (Hn_ws : wsNormal n).
  { rewrite Hp, Hsp in Hws. by apply wsNormal_app_r, wsNormal_app_r in Hws. }
  assert (Hn_tr : dropTrailingSpaces n = n).
  { rewrite Hp, Hsp, <-append_assoc in Htr. by apply noTrailing_app_r in Htr. }
  assert (Hn_up : toUpperCase n = n).
  { rewrite Hp, toUpperCase_app, (toUpperCase_upper d Hl) in Hup.
    apply String.app_inj in Hup.
    by rewrite <-Ed, toUpperCase_dropSpaces, Hup. }
  split.
  - apply preNormal_fixed.
    + apply wsNormal_upper_app; [done|]. split; [|done].
      intros _. split; [done|]. by apply isSpace_isDigit.
    + unfold d in Hl |- *. rewrite append_cons. cbn in Hl |- *.
      apply andb_true_iff in Hl as [Hl0 _].
      by rewrite (isSpace_isUpperAZ _ Hl0).
    + apply noTrailing_app; [|done].
      rewrite append_cons, append_nil_l. cbn [dropTrailingSpaces]. by rewrite Hn_tr.
    + rewrite !toUpperCase_app, (toUpperCase_upper d Hl), Hn_up. done.
  - rewrite spanUpper_app by done. subst d n.
    rewrite append_cons, append_nil_l.
    change (dropSpaces (String " " (String dg tl)))
      with (dropSpaces (String dg tl)).
    cbn [dropSpaces]. rewrite (isSpace_isDigit dg Edg), Edg. done.
Qed.

Lemma normalizeCode_unfold s :
  normalizeCode s =
    match matchDeptNumber (preNormal s) with
    | Some (d, n) => d +:+ " " +:+ n
    | None => preNormal s
    end.
Proof. reflexivity. Qed.

(** [normalizeCode] stays within the ASCII strings. *)
Lemma isAsciiChar_upperChar c : isAsciiChar c = true → isAsciiChar (upperChar c) = true.
Proof. all_ascii c. Qed.
Lemma isAsciiChar_lowerChar c : isAsciiChar c = true → isAsciiChar (lowerChar c) = true.
Proof. all_ascii c. Qed.

Lemma allChars_app P a b : allChars P (a +:+ b) = allChars P a && allChars P b.
Proof.
  induction a as [|c a IH]; [by rewrite append_nil_l|].
  rewrite append_cons. cbn. by rewrite IH, andb_assoc.
Qed.

Lemma allChars_mapString P f s :
  (∀ c, P c = true → P (f c) = true) →
  allChars P s = true → allChars P (mapString f s) = true.
Proof.
  intros Hf. induction s as [|c s IH]; [done|]. cbn.
  intros [Hc Hs]%andb_true_iff. by rewrite (Hf c Hc), IH.
Qed.

Lemma allChars_dropSpaces P s :
  allChars P s = true → allChars P (dropSpaces s) = true.
Proof.
  induction s as [|c s IH]; [done|]. cbn.
  destruct (isSpace c); [|done]. intros [_ Hs]%andb_true_iff. by apply IH.
Qed.

Lemma allChars_dropTrailingSpaces P s :
  allChars P s = true → allChars P (dropTrailingSpaces s) = true.
Proof.
  induction s as [|c s IH]; [done|]. cbn [allChars dropTrailingSpaces].
  intros [Hc Hs]%andb_true_iff. specialize (IH Hs).
  destruct (dropTrailingSpaces s) as [|c' r].
  - destruct (isSpace c); [done|]. cbn. by rewrite Hc.
  - cbn [allChars] in IH |- *. by rewrite Hc, IH.
Qed.

Lemma allChars_collapseWhitespace P s :
  P " "%char = true →
  allChars P s = true → allChars P (collapseWhitespace s) = true.
Proof.
  intros Hsp. induction s as [|c s IH]; [done|].
  cbn [allChars]. intros [Hc Hs]%andb_true_iff. specialize (IH Hs).
  cbn [collapseWhitespace]. destruct (isSpace c).
  - destruct s as [|c' s']; [cbn; by rewrite Hsp|].
    destruct (isSpace c'); [done|]. cbn [allChars]. by rewrite Hsp, IH.
  - cbn [allChars]. by rewrite Hc, IH.
Qed.

Lemma allChars_preNormal s :
  allChars isAsciiChar s = true → allChars isAsciiChar (preNormal s) = true.
Proof.
  intros H. unfold preNormal. rewrite toUpperCase_mapString, trim_structural.
  apply allChars_mapString; [apply isAsciiChar_upperChar|].
  by apply allChars_dropTrailingSpaces, allChars_dropSpaces,
    allChars_collapseWhitespace.
Qed.

Lemma allChars_matchDeptNumber P s d n :
  matchDeptNumber s = Some (d, n) →
  allChars P s = true → allChars P d = true ∧ allChars P n = true.
Proof.
  unfold matchDeptNumber.
  destruct (spanUpper s) as [l rest] eqn:Es.
  destruct (spanUpper_spec _ _ _ Es) as (-> & _ & _).
  rewrite allChars_app.
  destruct l as [|l0 l']; [discriminate|].
  destruct (dropSpaces rest) as [|dg tl] eqn:Ed; [discriminate|].
  destruct (isDigit dg); [|discriminate].
  intros [= <- <-] [Hl Hr]%andb_true_iff. split; [done|].
  rewrite <-Ed. by apply allChars_dropSpaces.
Qed.

Lemma allChars_normalizeCode s :
  allChars isAsciiChar s = true → allChars isAsciiChar (normalizeCode s) = true.
Proof.
  intros H%allChars_preNormal. rewrite normalizeCode_unfold.
  destruct (matchDeptNumber (preNormal s)) as [[d n]|] eqn:E; [|done].
  destruct (allChars_matchDeptNumber _ _ _ _ E H) as [Hd Hn].
  rewrite !allChars_app, Hd, Hn. done.
Qed.

(** X15.  On an ASCII string [normalizeCode] gives an ASCII string and
    is idempotent: a normalized code is its own normal form. *)
Theorem normalizeCode_idempotent (s : string) :
  allChars isAsciiChar s = true →
  allChars isAsciiChar (normalizeCode s) = true ∧
  normalizeCode (normalizeCode s) = normalizeCode s.
Proof.
  intros Hs. split; [by apply allChars_normalizeCode|].
  rewrite (normalizeCode_unfold s).
  destruct (matchDeptNumber (preNormal s)) as [[d n]|] eqn:E.
  - destruct (matchDeptNumber_normal s d n E) as [Hpre Hm].
    by rewrite normalizeCode_unfold, Hpre, Hm.
  - by rewrite normalizeCode_unfold, preNormal_idemp, E.
Qed.

Lemma normalizeCode_idempotent_witness :
  allChars isAsciiChar "  cmpt120w " = true ∧
  normalizeCode "  cmpt120w " = "CMPT 120W" ∧
  normalizeCode (normalizeCode "  cmpt120w ") = normalizeCode "  cmpt120w ".
Proof.
  split; [reflexivity|]. split; [reflexivity|].
  apply (normalizeCode_idempotent "  cmpt120w "). reflexivity.
Defined.

(** X16.  On an ASCII string [normalizeCode] ignores letter case: the
    lower-cased and the upper-cased form of a code are ASCII strings with
    the same normal form as the code. *)
Theorem normalizeCode_case_insensitive (s : string) :
  allChars isAsciiChar s = true →
  (allChars isAsciiChar (toLowerCase s) = true ∧
   normalizeCode (toLowerCase s) = normalizeCode s) ∧
  (allChars isAsciiChar (toUpperCase s) = true ∧
   normalizeCode (toUpperCase s) = normalizeCode s).
Proof.
  intros Hs.
  assert (H : ∀ f, (∀ c, isSpace (f c) = isSpace c) → f " "%char = " "%char →
            (∀ c, upperChar (f c) = upperChar c) →
            normalizeCode (mapString f s) = normalizeCode s).
  { intros f Hf Hsp Hup. rewrite !normalizeCode_unfold. unfold preNormal.
    rewrite collapseWhitespace_mapString, trim_mapString by done.
    rewrite !toUpperCase_mapString, mapString_compose.
    by rewrite (mapString_ext _ upperChar) by done. }
  rewrite toLowerCase_mapString, toUpperCase_mapString. split; split.
  - by apply allChars_mapString; [apply isAsciiChar_lowerChar|].
  - apply H; [apply isSpace_lowerChar|done|apply upperChar_lowerChar].
  - by apply allChars_mapString; [apply isAsciiChar_upperChar|].
  - apply H; [apply isSpace_upperChar|done|apply upperChar_idemp].
Qed.

Lemma normalizeCode_case_insensitive_witness :
  allChars isAsciiChar "Cmpt 120w" = true ∧
  normalizeCode "cmpt 120w" = normalizeCode "Cmpt 120w" ∧
  normalizeCode "CMPT 120W" = normalizeCode "Cmpt 120w".
Proof.
  split; [reflexivity|].
  destruct (normalizeCode_case_insensitive "Cmpt 120w") as [[_ Hl] [_ Hu]];
    [reflexivity|].
  split; [exact Hl | exact Hu].
Defined.

Lemma codeChar_noSpace c : codeChar c = true → isSpace c = false.
Proof. all_ascii c. Qed.
Lemma codeChar_upper c : codeChar c = true → upperChar c = c.
Proof. all_ascii c. Qed.

Lemma allChars_wsNormal P s :
  (∀ c, P c = true → isSpace c = false) → allChars P s = true → wsNormal s.
Proof.
  intros HP. induction s as [|c s IH]; [done|]. cbn.
  intros [Hc Hs]%andb_true_iff. split; [|by apply IH].
  intros H. by rewrite (HP c Hc) in H.
Qed.

Lemma allChars_noTrailing P s :
  (∀ c, P c = true → isSpace c = false) → allChars P s = true →
  dropTrailingSpaces s = s.
Proof.
  intros HP. induction s as [|c s IH]; [done|]. cbn.
  intros [Hc Hs]%andb_true_iff. rewrite (IH Hs), (HP c Hc). by destruct s.
Qed.

Lemma allChars_upper P s :
  (∀ c, P c = true → upperChar c = c) → allChars P s = true → toUpperCase s = s.
Proof.
  intros HP. induction s as [|c s IH]; [done|]. cbn.
  intros [Hc Hs]%andb_true_iff. by rewrite (HP c Hc), IH.
Qed.

Lemma collapseWhitespace_upper_app d x :
  allChars isUpperAZ d = true →
  collapseWhitespace (d +:+ x) = d +:+ collapseWhitespace x.
Proof.
  induction d as [|c d IH]; [done|]. cbn [allChars].
  intros [Hc Hd]%andb_true_iff. rewrite !append_cons. cbn [collapseWhitespace].
  by rewrite (isSpace_isUpperAZ c Hc), IH.
Qed.

Lemma collapseWhitespace_spaces_app sp n :
  sp ≠ "" → allChars isSpace sp = true →
  headIs (λ c, negb (isSpace c)) n → n ≠ "" →
  collapseWhitespace (sp +:+ n) = String " " (collapseWhitespace n).
Proof.
  intros Hne Hsp Hn Hnn. induction sp as [|c sp IH]; [done|].
  cbn [allChars] in Hsp. apply andb_true_iff in Hsp as [Hc Hsp].
  rewrite append_cons. cbn [collapseWhitespace]. rewrite Hc.
  destruct sp as [|c' sp'].
  - rewrite append_nil_l. destruct n as [|x n]; [done|].
    cbn in Hn. apply negb_true_iff in Hn. by rewrite Hn.
  - rewrite append_cons. cbn [allChars] in Hsp.
    apply andb_true_iff in Hsp as [Hc' Hsp']. rewrite Hc'.
    rewrite <-append_cons. apply IH; [done|]. cbn. by rewrite Hc'.
Qed.

(** X17.  Whitespace between the department and the number is
    immaterial: upper-case department letters, any run of whitespace
    (none, one space, tabs, several), then a number that starts with a
    digit and continues with digits and upper-case letters, normalize to
    department, one space, number. *)
Theorem normalizeCode_spacing (d sp : string) (dg : ascii) (tl : string) :
  d ≠ "" → allChars isUpperAZ d = true →
  allChars isSpace sp = true →
  isDigit dg = true → allChars codeChar tl = true →
  normalizeCode (d +:+ sp +:+ String dg tl) = d +:+ " " +:+ String dg tl.
Proof.
  intros Hd Hup Hsp Hdg Htl.
  set (n := String dg tl).
  assert (Hn : allChars codeChar n = true).
  { cbn. unfold codeChar at 1. by rewrite Hdg, Htl. }
  pose proof (allChars_wsNormal _ _ codeChar_noSpace Hn) as Hn_ws.
  pose proof (allChars_noTrailing _ _ codeChar_noSpace Hn) as Hn_tr.
  pose proof (allChars_upper _ _ codeChar_upper Hn) as Hn_up.
  assert (Hhead : headIs (λ c, negb (isSpace c)) n).
  { cbn. by rewrite (isSpace_isDigit dg Hdg). }
  set (w := if bool_decide (sp = "") then "" else " ").
  assert (Hpre : preNormal (d +:+ sp +:+ n) = d +:+ w +:+ n).
  { assert (Hc : collapseWhitespace (d +:+ sp +:+ n) = d +:+ w +:+ n).
    { rewrite collapseWhitespace_upper_app by done. f_equal. unfold w.
      case_bool_decide as Hs.
      - subst sp. rewrite !append_nil_l. by apply collapseWhitespace_id.
      - rewrite collapseWhitespace_spaces_app by done.
        by rewrite (collapseWhitespace_id n Hn_ws). }
    assert (HwsY : wsNormal (d +:+ w +:+ n)).
    { apply wsNormal_upper_app; [done|]. unfold w.
      case_bool_decide; [by rewrite append_nil_l|].
      rewrite append_cons, append_nil_l. split; [|done].
      intros _. split; [done|]. by apply isSpace_isDigit. }
    assert (Hfix : preNormal (d +:+ w +:+ n) = d +:+ w +:+ n).
    { apply preNormal_fixed; [done| | |].
      - destruct d as [|c d]; [done|]. cbn in Hup.
        apply andb_true_iff in Hup as [Hc0 _].
        rewrite append_cons. cbn. by rewrite (isSpace_isUpperAZ c Hc0).
      - apply noTrailing_app.
        + unfold w. case_bool_decide; [by rewrite append_nil_l|].
          rewrite append_cons, append_nil_l. cbn [dropTrailingSpaces].
          by rewrite Hn_tr.
        + unfold w. by case_bool_decide.
      - rewrite !toUpperCase_app, (toUpperCase_upper d Hup), Hn_up.
        unfold w. by case_bool_decide. }
    unfold preNormal in Hfix |- *.
    rewrite Hc. by rewrite (collapseWhitespace_id _ HwsY) in Hfix. }
  rewrite normalizeCode_unfold, Hpre.
  assert (Hm : matchDeptNumber (d +:+ w +:+ n) = Some (d, n)).
  { unfold matchDeptNumber. rewrite spanUpper_app; [|done|].
    - destruct d as [|c d]; [done|].
      assert (dropSpaces (w +:+ n) = n) as ->.
      { unfold w. case_bool_decide.
        - rewrite append_nil_l. cbn. by rewrite (isSpace_isDigit dg Hdg).
        - rewrite append_cons, append_nil_l.
          change (dropSpaces (String " " n)) with (dropSpaces n).
          cbn. by rewrite (isSpace_isDigit dg Hdg). }
      unfold n. by rewrite Hdg.
    - unfold w. case_bool_decide.
      + rewrite append_nil_l. cbn. by rewrite (isUpperAZ_isDigit dg Hdg).
      + rewrite append_cons. done. }
  by rewrite Hm.
Qed.

Lemma normalizeCode_spacing_witness :
  normalizeCode ("CMPT" +:+ String "009" " " +:+ String "1" "05W") = "CMPT 105W".
Proof.
  apply (normalizeCode_spacing "CMPT" (String "009" " ") "1" "05W");
    [discriminate | reflexivity ..].
Defined.

(** ** Cache keys *)

Lemma lowerChar_idemp c : lowerChar (lowerChar c) = lowerChar c.
Proof. all_ascii c. Qed.
Lemma lowerChar_upperChar c : lowerChar (upperChar c) = lowerChar c.
Proof. all_ascii c. Qed.

Lemma toLowerCase_idemp s : toLowerCase (toLowerCase s) = toLowerCase s.
Proof.
  rewrite !toLowerCase_mapString, mapString_compose.
  apply mapString_ext, lowerChar_idemp.
Qed.

Lemma toLowerCase_toUpperCase s : toLowerCase (toUpperCase s) = toLowerCase s.
Proof.
  rewrite !toLowerCase_mapString, toUpperCase_mapString, mapString_compose.
  apply mapString_ext, lowerChar_upperChar.
Qed.

Lemma pretty_N_char_digit x : isDigit (pretty_N_char x) = true.
Proof. unfold pretty_N_char. by repeat case_match. Qed.

Lemma pretty_N_go_digits x s :
  allChars isDigit s = true → allChars isDigit (pretty_N_go x s) = true.
Proof.
  revert s. induction (N.lt_wf_0 x) as [x _ IH]; intros s Hs.
  assert (x = 0 ∨ 0 < x)%N as [->|?] by lia.
  - by rewrite pretty_N_go_0.
  - rewrite pretty_N_go_step by done. apply IH.
    { by apply N.div_lt. }
    cbn. by rewrite pretty_N_char_digit, Hs.
Qed.

Lemma pretty_N_go_nonempty x s : s ≠ "" → pretty_N_go x s ≠ "".
Proof.
  revert s. induction (N.lt_wf_0 x) as [x _ IH]; intros s Hs.
  assert (x = 0 ∨ 0 < x)%N as [->|?] by lia.
  - by rewrite pretty_N_go_0.
  - rewrite pretty_N_go_step by done. apply IH; [by apply N.div_lt|done].
Qed.

Lemma pretty_N_digits (x : N) :
  allChars isDigit (pretty x) = true ∧ pretty x ≠ "".
Proof.
  unfold pretty, pretty_N. case_decide as Hx; [done|]. split.
  - by apply pretty_N_go_digits.
  - rewrite pretty_N_go_step by lia. by apply pretty_N_go_nonempty.
Qed.

Lemma digits_dash_inj d1 d2 a b :
  allChars isDigit d1 = true → allChars isDigit d2 = true →
  d1 +:+ String "-" a = d2 +:+ String "-" b → d1 = d2 ∧ a = b.
Proof.
  revert d2. induction d1 as [|c d1 IH]; intros [|c' d2] H1 H2;
    rewrite ?append_nil_l, ?append_cons; intros [= ]; subst.
  - done.
  - cbn in H2. by apply andb_true_iff in H2 as [? _].
  - cbn in H1. by apply andb_true_iff in H1 as [? _].
  - cbn in H1, H2. apply andb_true_iff in H1 as [_ H1].
    apply andb_true_iff in H2 as [_ H2].
    destruct (IH d2 H1 H2) as [-> ->]; done.
Qed.

Lemma pretty_Z_dash_inj (y1 y2 : Z) a b :
  pretty y1 +:+ String "-" a = pretty y2 +:+ String "-" b → y1 = y2 ∧ a = b.
Proof.
  assert (Hpos : ∀ p : positive,
            allChars isDigit (pretty (Z.pos p)) = true ∧
            ∃ c r, pretty (Z.pos p) = String c r ∧ isDigit c = true).
  { intros p. destruct (pretty_N_digits (N.pos p)) as [Hd Hne].
    split; [exact Hd|].
    change (pretty (Z.pos p)) with (pretty (N.pos p)).
    destruct (pretty (N.pos p)) as [|c r]; [done|].
    exists c, r. split; [done|]. cbn in Hd. by apply andb_true_iff in Hd as [? _]. }
  assert (Hnonneg : ∀ y, 0 ≤ y →
            allChars isDigit (pretty y) = true ∧
            ∃ c r, pretty y = String c r ∧ isDigit c = true).
  { intros [|p|p] Hy; [|apply Hpos|lia]. split; [done|]. by exists "0"%char, "". }
  assert (Hneg : ∀ p : positive, pretty (Z.neg p) = String "-" (pretty (Z.pos p))).
  { done. }
  intros H.
  destruct (Z.le_gt_cases 0 y1) as [H1|H1], (Z.le_gt_cases 0 y2) as [H2|H2].
  - destruct (Hnonneg y1 H1) as [D1 _], (Hnonneg y2 H2) as [D2 _].
    destruct (digits_dash_inj _ _ _ _ D1 D2 H) as [Hp ->].
    split; [|done]. by apply (inj pretty).
  - destruct y2 as [|p|p]; try lia. rewrite Hneg in H.
    destruct (Hnonneg y1 H1) as [_ (c & r & E & Hc)]. rewrite E in H.
    rewrite !append_cons in H. injection H as -> _. done.
  - destruct y1 as [|p|p]; try lia. rewrite Hneg in H.
    destruct (Hnonneg y2 H2) as [_ (c & r & E & Hc)]. rewrite E in H.
    rewrite !append_cons in H. injection H as <- _. done.
  - destruct y1 as [|p1|p1]; try lia. destruct y2 as [|p2|p2]; try lia.
    rewrite !Hneg, !append_cons in H. injection H as H.
    destruct (Hpos p1) as [D1 _], (Hpos p2) as [D2 _].
    destruct (digits_dash_inj _ _ _ _ D1 D2 H) as [Hp ->].
    split; [|done]. apply (inj pretty) in Hp. by injection Hp as ->.
Qed.

(** X18.  Two terms share a cache key exactly when they are the same
    year and the same term name up to letter case: distinct terms never
    collide in the cache, and "Fall" and "fall" are one entry. *)
Theorem semesterKey_inj (y1 y2 : Z) (t1 t2 : string) :
  semesterKey y1 t1 = semesterKey y2 t2 ↔
  y1 = y2 ∧ toLowerCase t1 = toLowerCase t2.
Proof.
  unfold semesterKey. split.
  - rewrite !append_cons, !append_nil_l. apply pretty_Z_dash_inj.
  - by intros [-> ->].
Qed.

Corollary semesterKey_case_insensitive (y : Z) (t : string) :
  semesterKey y (toLowerCase t) = semesterKey y t ∧
  semesterKey y (toUpperCase t) = semesterKey y t.
Proof.
  unfold semesterKey.
  by rewrite toLowerCase_idemp, toLowerCase_toUpperCase.
Qed.

Lemma toLowerCase_TERMS t : t ∈ TERMS → toLowerCase t = t.
Proof.
  unfold TERMS. intros H.
  repeat (apply elem_of_cons in H as [->|H]; [reflexivity|]).
  by apply elem_of_nil in H.
Qed.

(** X19.  The semesters of a horizon have pairwise distinct cache keys:
    walking the horizon never resolves the same cache entry twice. *)
Theorem listSemesters_distinct_keys
    (startYear : Z) (startTerm : string) (maxSemesters : Z) :
  NoDup ((λ sem, semesterKey (semYear sem) (semTerm sem))
           <$> listSemesters startYear startTerm maxSemesters).
Proof.
  apply NoDup_alt. intros i j k Hi Hj.
  rewrite list_lookup_fmap in Hi, Hj.
  apply fmap_Some in Hi as (si & Hi & ->).
  apply fmap_Some in Hj as (sj & Hj & Hk).
  unfold semesterKey in Hk. rewrite !append_cons, !append_nil_l in Hk.
  apply pretty_Z_dash_inj in Hk as [Hy Ht].
  destruct (listSemesters_lookup_ordinal _ _ _ _ _ Hi) as [Hti Hoi].
  destruct (listSemesters_lookup_ordinal _ _ _ _ _ Hj) as [Htj Hoj].
  rewrite !toLowerCase_TERMS in Ht by done.
  rewrite Hy, Ht in Hoi. lia.
Qed.

(** ** Building the cache for a range of terms *)

Lemma indexOf_lower_bound (arr : list string) (x : string) : -1 ≤ indexOf arr x.
Proof.
  induction arr as [|y arr IH]; cbn; [lia|].
  case_bool_decide; [lia|]. destruct (Z.ltb_spec (indexOf arr x) 0); lia.
Qed.

(** What [readCache] returns and what it leaves of the medium. *)
Lemma readCache_stored (w : World) :
  ∃ f,
    readCache w =
      (Returned (if readFails (fs w) then None
                 else storedCache (cacheFile (fs w))), withFs f w) ∧
    cacheFile f = cacheFile (fs w) ∧
    readFails f = readFails (fs w) ∧
    writeFails f = writeFails (fs w) ∧
    mkdirFails f = mkdirFails (fs w) ∧
    (workingStore (fs w) → dirExists f = true).
Proof.
  destruct w as [[d c mk rd wr] tk cl fl rm].
  unfold readCache, workingStore. unfold_io. cbn.
  destruct d, mk, rd, c as [[|lu [sems|]]|]; cbn;
    eexists; (split; [reflexivity|]); cbn;
    (split_and!; try reflexivity; intros (_ & _ & [?|?]); congruence).
Qed.

Lemma writeCache_working (data : OfferingsCache) (w : World) :
  workingStore (fs w) →
  ∃ f,
    writeCache data w = (Returned tt, withFs f w) ∧
    workingStore f ∧ storedCache (cacheFile f) = Some data.
Proof.
  destruct w as [[d c mk rd wr] tk cl fl rm]. destruct data as [lu sems].
  unfold workingStore. cbn. intros (-> & -> & Hdir).
  unfold writeCache. unfold_io. cbn.
  destruct d; cbn.
  - eexists. split; [reflexivity|]. cbn. split_and!; auto.
  - destruct Hdir as [?| ->]; [done|]. cbn.
    eexists. split; [reflexivity|]. cbn. split_and!; auto.
Qed.

(** On a working store, resolving from the stored cache leaves a stored
    cache that has the resolved key and every key it had. *)
Lemma getOfferingsForSemester_working y t w :
  workingStore (fs w) →
  ∃ v w1 c',
    getOfferingsForSemester y t (storedCache (cacheFile (fs w))) w =
      (Returned v, w1) ∧
    workingStore (fs w1) ∧
    storedCache (cacheFile (fs w1)) = Some c' ∧
    is_Some (semesters c' !! semesterKey y t) ∧
    ∀ k, is_Some (inputSemesters (storedCache (cacheFile (fs w))) !! k) →
         is_Some (semesters c' !! k).
Proof.
  intros Hw. set (c := storedCache (cacheFile (fs w))).
  destruct (inputSemesters c !! semesterKey y t) as [[|o os]|] eqn:Ek.
  2: { destruct c as [c0|] eqn:Ec; [|cbn in Ek; by rewrite lookup_empty in Ek].
       exists (o :: os, c0), w, c0.
       rewrite (getOfferingsForSemester_hit _ _ _ o os) by done.
       split_and!; [done..| |done]. cbn in Ek. by rewrite Ek. }
  all: unfold getOfferingsForSemester;
    destruct c as [c0|] eqn:Ec; cbn in Ek |- *;
    unfold bind, ret, newDate, fetchSemesterFromAPI; cbn [semesters];
    rewrite ?Ek, ?lookup_empty;
    match goal with
    | |- context [writeCache ?d ?w0] =>
        destruct (writeCache_working d w0 Hw) as (f & -> & Hf & Hst)
    end;
    eexists _, _, _; (split; [reflexivity|]); cbn [fs withFs];
    (split_and!; [exact Hf | exact Hst | cbn; by rewrite lookup_insert_eq |]);
    intros k [v Hk]; cbn;
    (destruct (decide (semesterKey y t = k)) as [->|Hne];
     [by rewrite lookup_insert_eq | rewrite lookup_insert_ne by done; eauto]).
Qed.

Lemma termAt_Some (t : Z) (term : string) :
  termAt t = Some term → 0 ≤ t < 3.
Proof.
  unfold termAt. destruct (Z.ltb_spec t 0) as [?|Hge]; [done|].
  intros Hlt%lookup_lt_Some. cbn in Hlt. lia.
Qed.

Lemma termAt_valid (t : Z) : 0 ≤ t < 3 → ∃ term, termAt t = Some term.
Proof.
  intros Ht. assert (t = 0 ∨ t = 1 ∨ t = 2) as [->|[->| ->]] by lia;
    eexists; reflexivity.
Qed.

Lemma rangeTerms_working (fuel : nat) (y t : Z) (w : World) :
  workingStore (fs w) → 0 ≤ t → t + Z.of_nat fuel ≤ 3 →
  ∃ w',
    rangeTerms fuel y t (storedCache (cacheFile (fs w))) w =
      (RangeOk (storedCache (cacheFile (fs w'))), w') ∧
    workingStore (fs w') ∧
    (∀ k, is_Some (inputSemesters (storedCache (cacheFile (fs w))) !! k) →
          is_Some (inputSemesters (storedCache (cacheFile (fs w'))) !! k)) ∧
    (∀ ti term, t ≤ ti < t + Z.of_nat fuel → termAt ti = Some term →
       is_Some (inputSemesters (storedCache (cacheFile (fs w')))
                  !! semesterKey y term)).
Proof.
  revert t w. induction fuel as [|fuel IH]; intros t w Hw Ht Hfuel.
  { exists w. split_and!; [done..|]. intros ti term ?. lia. }
  cbn [rangeTerms].
  destruct (termAt_valid t) as [term Eterm]; [lia|]. rewrite Eterm.
  destruct (getOfferingsForSemester_working y term w Hw)
    as (v & w1 & c' & -> & Hw1 & Hst1 & Hkey & Hkeep).
  destruct (readCache_stored w1) as (f & -> & Hcf & Hrf & Hwf & Hmf & Hdir).
  destruct Hw1 as (Hwr1 & Hrd1 & Hd1). rewrite Hrd1.
  set (w2 := withFs f w1).
  assert (Hw2 : workingStore (fs w2)).
  { unfold workingStore, w2. cbn. rewrite Hwf, Hrf. split_and!; [done..|].
    left. by apply Hdir. }
  assert (Hst2 : storedCache (cacheFile (fs w2)) = Some c').
  { unfold w2. cbn. by rewrite Hcf. }
  rewrite <-Hcf.
  change (cacheFile f) with (cacheFile (fs w2)).
  destruct (IH (t + 1) w2 Hw2) as (w' & -> & Hw' & Hkeep' & Hcover); [lia..|].
  exists w'. split_and!; [done..| |].
  - intros k Hk. apply Hkeep'. rewrite Hst2. cbn. by apply Hkeep.
  - intros ti term' Hti Hterm'.
    destruct (decide (ti = t)) as [->|Hne].
    + apply Hkeep'. rewrite Hst2. cbn.
      rewrite Eterm in Hterm'. by injection Hterm' as <-.
    + apply (Hcover ti term'); [lia|done].
Qed.

Lemma rangeYears_working (fuel : nat) (y startYear endYear sIdx eIdx : Z)
    (w : World) :
  workingStore (fs w) → 0 ≤ sIdx < 3 → 0 ≤ eIdx < 3 →
  ∃ w',
    rangeYears fuel y startYear endYear sIdx eIdx
      (storedCache (cacheFile (fs w))) w =
      (RangeOk (storedCache (cacheFile (fs w'))), w') ∧
    workingStore (fs w') ∧
    (∀ k, is_Some (inputSemesters (storedCache (cacheFile (fs w))) !! k) →
          is_Some (inputSemesters (storedCache (cacheFile (fs w'))) !! k)) ∧
    (∀ y' ti term,
       y ≤ y' < y + Z.of_nat fuel →
       (y' = startYear → sIdx ≤ ti) → (y' = endYear → ti ≤ eIdx) →
       termAt ti = Some term →
       is_Some (inputSemesters (storedCache (cacheFile (fs w')))
                  !! semesterKey y' term)).
Proof.
  intros Hw Hs He. revert y w Hw.
  induction fuel as [|fuel IH]; intros y w Hw.
  { exists w. split_and!; [done..|]. intros y' ti term ?. lia. }
  cbn [rangeYears]. change (Z.of_nat (length TERMS) - 1) with 2.
  set (start := if y =? startYear then sIdx else 0).
  set (end_ := if y =? endYear then eIdx else 2).
  assert (Hstart : 0 ≤ start < 3) by (unfold start; destruct (y =? startYear); lia).
  assert (Hend : 0 ≤ end_ < 3) by (unfold end_; destruct (y =? endYear); lia).
  destruct (rangeTerms_working (Z.to_nat (end_ - start + 1)) y start w Hw)
    as (w1 & -> & Hw1 & Hkeep1 & Hcover1); [lia..|].
  destruct (IH (y + 1) w1 Hw1) as (w' & -> & Hw' & Hkeep' & Hcover').
  exists w'. split_and!; [done..| |].
  - intros k Hk. by apply Hkeep', Hkeep1.
  - intros y' ti term Hy' Hlo Hhi Hterm.
    destruct (decide (y' = y)) as [->|Hne].
    + apply Hkeep', (Hcover1 ti term); [|done].
      pose proof (termAt_Some _ _ Hterm).
      unfold start, end_.
      destruct (Z.eqb_spec y startYear), (Z.eqb_spec y endYear);
        repeat match goal with
        | H : ?a = ?b → _, E : ?a = ?b |- _ => specialize (H E)
        end; lia.
    + apply (Hcover' y' ti term); [lia|done..].
Qed.

(** X20.  On a working store, for start and end terms of the cycle,
    [buildCacheForRange] returns a cache that has an entry for every term
    of the range, from the start term of the start year to the end term of
    the end year, and that still has every entry the stored cache had. *)
Theorem buildCacheForRange_covers (startYear : Z) (startTerm : string)
    (endYear : Z) (endTerm : string) (w : World) :
  workingStore (fs w) →
  toLowerCase startTerm ∈ TERMS → toLowerCase endTerm ∈ TERMS →
  ∃ c w',
    buildCacheForRange startYear startTerm endYear endTerm w = (RangeOk c, w') ∧
    (∀ k, is_Some (inputSemesters (storedCache (cacheFile (fs w))) !! k) →
          is_Some (semesters c !! k)) ∧
    (∀ y ti term,
       startYear ≤ y ≤ endYear →
       (y = startYear → indexOf TERMS (toLowerCase startTerm) ≤ ti) →
       (y = endYear → ti ≤ indexOf TERMS (toLowerCase endTerm)) →
       termAt ti = Some term →
       is_Some (semesters c !! semesterKey y term)).
Proof.
  intros Hw Hs He.
  pose proof (indexOf_elem _ _ Hs) as Hsi.
  pose proof (indexOf_elem _ _ He) as Hei.
  change (Z.of_nat (length TERMS)) with 3 in Hsi, Hei.
  unfold buildCacheForRange.
  destruct (readCache_stored w) as (f & -> & Hcf & Hrf & Hwf & Hmf & Hdir).
  destruct Hw as (Hwr & Hrd & Hd). rewrite Hrd.
  set (w0 := withFs f w).
  assert (Hw0 : workingStore (fs w0)).
  { unfold workingStore, w0. cbn. rewrite Hwf, Hrf. split_and!; [done..|].
    left. by apply Hdir. }
  rewrite <-Hcf. change (cacheFile f) with (cacheFile (fs w0)).
  destruct (rangeYears_working (Z.to_nat (endYear - startYear + 1)) startYear
              startYear endYear _ _ w0 Hw0 Hsi Hei)
    as (w1 & -> & Hw1 & Hkeep & Hcover).
  destruct (readCache_stored w1) as (f1 & -> & Hcf1 & _).
  destruct Hw1 as (_ & -> & _).
  assert (Hall : ∀ c,
            semesters c = inputSemesters (storedCache (cacheFile (fs w1))) →
            (∀ k, is_Some (inputSemesters (storedCache (cacheFile (fs w0))) !! k) →
                  is_Some (semesters c !! k)) ∧
            (∀ y ti term,
               startYear ≤ y ≤ endYear →
               (y = startYear → indexOf TERMS (toLowerCase startTerm) ≤ ti) →
               (y = endYear → ti ≤ indexOf TERMS (toLowerCase endTerm)) →
               termAt ti = Some term →
               is_Some (semesters c !! semesterKey y term))).
  { intros c ->. split; [exact Hkeep|].
    intros y ti term Hy Hlo Hhi Hterm. apply (Hcover y ti term); [lia|done..]. }
  destruct (storedCache (cacheFile (fs w1))) as [c|] eqn:Ec.
  - exists c, (withFs f1 w1). split; [done|]. by apply Hall.
  - eexists _, _. split; [reflexivity|]. by apply Hall.
Qed.

(** X21.  A start term outside the cycle is not defaulted here: with a
    non-empty year range [buildCacheForRange] fails with the TypeError of
    reading the undefined term, before any catalog fetch. *)
Theorem buildCacheForRange_unknown_start (startYear : Z) (startTerm : string)
    (endYear : Z) (endTerm : string) (w : World) :
  toLowerCase startTerm ∉ TERMS → startYear ≤ endYear →
  ∃ w',
    buildCacheForRange startYear startTerm endYear endTerm w =
      (RangeFailed TypeError, w') ∧
    fetchLog w' = fetchLog w.
Proof.
  intros Hs Hy. unfold buildCacheForRange.
  destruct (readCache_stored w) as (f & -> & _).
  rewrite (indexOf_absent _ _ Hs).
  destruct (Z.to_nat (endYear - startYear + 1)) as [|fuel] eqn:Ef; [lia|].
  cbn [rangeYears]. rewrite Z.eqb_refl.
  change (Z.of_nat (length TERMS) - 1) with 2.
  pose proof (indexOf_lower_bound TERMS (toLowerCase endTerm)) as He.
  set (end_ := if startYear =? endYear then _ else 2).
  assert (Hend : -1 ≤ end_) by (unfold end_; destruct (startYear =? endYear); lia).
  destruct (Z.to_nat (end_ - -1 + 1)) as [|fuel'] eqn:Ef'; [lia|].
  cbn. eexists. split; reflexivity.
Qed.

(** X22.  When the end year is before the start year
    [buildCacheForRange] fetches nothing and returns the cache the store
    holds, or an empty cache when the store has none it can read. *)
Theorem buildCacheForRange_empty_range (startYear : Z) (startTerm : string)
    (endYear : Z) (endTerm : string) (w : World) :
  endYear < startYear →
  ∃ c w',
    buildCacheForRange startYear startTerm endYear endTerm w = (RangeOk c, w') ∧
    fetchLog w' = fetchLog w ∧
    semesters c =
      (if readFails (fs w) then ∅
       else inputSemesters (storedCache (cacheFile (fs w)))).
Proof.
  intros Hy. unfold buildCacheForRange.
  destruct (readCache_stored w) as (f & -> & Hcf & Hrf & _).
  replace (Z.to_nat (endYear - startYear + 1)) with O by lia.
  cbn [rangeYears].
  destruct (readCache_stored (withFs f w)) as (f1 & -> & _).
  cbn [fs withFs]. rewrite Hrf, Hcf.
  destruct (readFails (fs w)).
  - eexists _, _. split; [reflexivity|]. done.
  - destruct (storedCache (cacheFile (fs w))) as [c|].
    + eexists _, _. split; [reflexivity|]. done.
    + eexists _, _. split; [reflexivity|]. done.
Qed.

Lemma buildCacheForRange_covers_witness :
  ∃ c w',
    buildCacheForRange 2024 "Fall" 2025 "spring"
      (worldWith writableFs sampleCatalog) = (RangeOk c, w') ∧
    is_Some (semesters c !! semesterKey 2025 "spring").
Proof.
  destruct (buildCacheForRange_covers 2024 "Fall" 2025 "spring"
              (worldWith writableFs sampleCatalog))
    as (c & w' & E & _ & Hcover).
  - unfold workingStore. cbn. auto.
  - vm_compute. do 2 apply list_elem_of_further. apply list_elem_of_here.
  - vm_compute. apply list_elem_of_here.
  - exists c, w'. split; [exact E|].
    apply (Hcover 2025 0 "spring"); [lia | intros; lia | | reflexivity].
    intros _. vm_compute. discriminate.
Defined.

Lemma buildCacheForRange_unknown_start_witness :
  ∃ w',
    buildCacheForRange 2024 "winter" 2025 "spring"
      (worldWith writableFs sampleCatalog) = (RangeFailed TypeError, w') ∧
    fetchLog w' = [].
Proof.
  apply (buildCacheForRange_unknown_start 2024 "winter" 2025 "spring"
           (worldWith writableFs sampleCatalog)); [|lia].
  vm_compute. intros H.
  repeat (apply elem_of_cons in H as [H|H]; [discriminate H|]).
  by apply elem_of_nil in H.
Defined.

Lemma buildCacheForRange_empty_range_witness :
  ∃ c w',
    buildCacheForRange 2025 "spring" 2024 "fall"
      (worldWith shippedFs sampleCatalog) = (RangeOk c, w') ∧
    fetchLog w' = [] ∧
    semesters c = semesters cache2023.
Proof.
  apply (buildCacheForRange_empty_range 2025 "spring" 2024 "fall"
           (worldWith shippedFs sampleCatalog)).
  lia.
Defined.

(** ** From the ranking to the plan *)

Lemma foldl_recommendStep outlineTitle (rs : list RankedCourse)
    (out : list RecommendedCourse) (seen : list string) :
  (normalizeCode ∘ course_code) <$> out = seen → NoDup seen →
  Forall (λ rc, course_code rc ≠ "") out →
  ∃ out' extra,
    fst (foldl (recommendStep outlineTitle) (out, seen) rs) = out' ∧
    NoDup ((normalizeCode ∘ course_code) <$> out') ∧
    Forall (λ rc, course_code rc ≠ "") out' ∧
    out' = out ++ extra ∧
    (course_code <$> extra) `sublist_of` (rankedCodeOf <$> rs).
Proof.
  revert out seen. induction rs as [|r rs IH]; intros out seen Hseen Hnd Hne.
  { exists out, []. cbn. rewrite app_nil_r, Hseen. done. }
  cbn [foldl]. unfold recommendStep at 2. cbn [fst snd].
  destruct (bool_decide (rankedCodeOf r = "") ||
            setHas seen (normalizeCode (rankedCodeOf r))) eqn:E.
  - destruct (IH out seen Hseen Hnd Hne) as (out' & extra & E1 & ? & ? & ? & ?).
    exists out', extra. split_and!; [done..|]. cbn. by apply sublist_cons.
  - apply orb_false_iff in E as [Hcode Hnew].
    apply bool_decide_eq_false in Hcode.
    unfold setHas in Hnew. apply bool_decide_eq_false in Hnew.
    unfold setAdd, setHas. rewrite bool_decide_eq_false_2 by done.
    set (rc := {| course_code := rankedCodeOf r;
                  course_name := outlineTitle (normalizeCode (rankedCodeOf r));
                  reason := default "Relevant for your target role."
                              (rankedReason r) |}).
    destruct (IH (out ++ [rc]) (seen ++ [normalizeCode (rankedCodeOf r)]))
      as (out' & extra & E1 & ? & ? & -> & ?).
    + by rewrite fmap_app, Hseen.
    + apply NoDup_app. split_and!; [done| |apply NoDup_singleton].
      by intros x Hx ->%list_elem_of_singleton.
    + apply Forall_app. split; [done|]. by apply Forall_singleton.
    + exists ((out ++ [rc]) ++ extra), (rc :: extra).
      split_and!; [done..| |].
      * by rewrite <-app_assoc.
      * cbn. by apply sublist_skip.
Qed.

Lemma recommendedCourses_invariant outlineTitle (ranked : list RankedCourse) :
  NoDup ((normalizeCode ∘ course_code) <$> recommendedCourses outlineTitle ranked) ∧
  Forall (λ rc, course_code rc ≠ "") (recommendedCourses outlineTitle ranked) ∧
  (course_code <$> recommendedCourses outlineTitle ranked)
    `sublist_of` (rankedCodeOf <$> slice0 TOP_N ranked) ∧
  (length (recommendedCourses outlineTitle ranked) ≤ 10)%nat.
Proof.
  unfold recommendedCourses.
  destruct (foldl_recommendStep outlineTitle (slice0 TOP_N ranked) [] [])
    as (out' & extra & -> & Hnd & Hne & -> & Hsub);
    [done | apply NoDup_nil_2 | constructor |].
  cbn [app] in *. split_and!; [done..|].
  apply sublist_length in Hsub. rewrite !length_fmap in Hsub.
  pose proof (slice0_length TOP_N ranked) as Hl. unfold TOP_N in *. lia.
Qed.

(** X23.  The recommended courses the route builds from the ranking are
    at most ten, none has an empty code, no two share a normalized code,
    and their codes are, in ranking order, trimmed codes of the first ten
    ranked entries. *)
Theorem recommendedCourses_distinct outlineTitle (ranked : list RankedCourse) :
  NoDup ((normalizeCode ∘ course_code) <$> recommendedCourses outlineTitle ranked) ∧
  Forall (λ rc, course_code rc ≠ "") (recommendedCourses outlineTitle ranked) ∧
  (course_code <$> recommendedCourses outlineTitle ranked)
    `sublist_of` (rankedCodeOf <$> slice0 TOP_N ranked) ∧
  (length (recommendedCourses outlineTitle ranked) ≤ 10)%nat.
Proof.
  unfold recommendedCourses.
  destruct (foldl_recommendStep outlineTitle (slice0 TOP_N ranked) [] [])
    as (out' & extra & -> & Hnd & Hne & -> & Hsub);
    [done | apply NoDup_nil_2 | constructor |].
  cbn [app] in *. split_and!; [done..|].
  apply sublist_length in Hsub. rewrite !length_fmap in Hsub.
  pose proof (slice0_length TOP_N ranked) as Hl. unfold TOP_N in *. lia.
Qed.

Lemma NoDup_fmap_inj_on {A B} (f : A → B) (l : list A) (x y : A) :
  NoDup (f <$> l) → x ∈ l → y ∈ l → f x = f y → x = y.
Proof.
  intros Hnd [i Hi]%list_elem_of_lookup [j Hj]%list_elem_of_lookup Hf.
  assert (i = j) as ->.
  { apply (proj1 (NoDup_alt (f <$> l)) Hnd i j (f x)).
    - by rewrite list_lookup_fmap, Hi.
    - by rewrite list_lookup_fmap, Hj, Hf. }
  congruence.
Qed.

(** X24.  The plan the route returns: every item has at least one
    course and at most the pace's number of courses (three, or five for
    "speedrun"); the plan holds at most ten courses, none twice; and every
    course in it is the code of a recommended course, written exactly as
    recommended, since no other recommended course has its normalized
    code. *)
Theorem routeSemesterPlan_composes outlineTitle (ranked : list RankedCourse)
    (pace : string) (w : World) :
  ∃ p w',
    routeSemesterPlan outlineTitle ranked pace w = (Returned p, w') ∧
    Forall (λ it, courses it ≠ [] ∧
                  Z.of_nat (length (courses it)) ≤ coursesPerSemesterOf pace ∧
                  coursesPerSemesterOf pace ≤ 5) p ∧
    NoDup (normalizeCode <$> allCourses p) ∧
    (length (allCourses p) ≤ 10)%nat ∧
    ∀ c, c ∈ allCourses p →
      c ∈ course_code <$> recommendedCourses outlineTitle ranked ∧
      ∀ rc, rc ∈ recommendedCourses outlineTitle ranked →
            normalizeCode (course_code rc) = normalizeCode c →
            course_code rc = c.
Proof.
  unfold routeSemesterPlan.
  set (desired := course_code <$> recommendedCourses outlineTitle ranked).
  destruct (recommendedCourses_invariant outlineTitle ranked)
    as (Hdist & _ & _ & Hlen).
  destruct (buildSemesterPlan_runs normalizeCode desired
              (coursesPerSemesterOf pace) w)
    as (stf & w' & E & (_ & Hnd & Hcto & Hall) & _).
  assert (Hcap : 0 ≤ coursesPerSemesterOf pace ≤ 5).
  { unfold coursesPerSemesterOf, COURSES_PER_SEMESTER_SPEEDRUN,
      COURSES_PER_SEMESTER_NORMAL. case_bool_decide; lia. }
  assert (Hin : ∀ c, c ∈ allCourses (plan stf) → c ∈ desired).
  { intros c Hc.
    destruct (buildCodeToOriginal_lookup _ _ _ _ (Hcto c Hc))
      as (_ & pre & post & -> & _).
    apply elem_of_app. right. by left. }
  exists (plan stf), w'. split_and!; [done| |done| |].
  - eapply Forall_impl; [exact Hall|]. intros it [Hne Hle].
    split_and!; [done|apply Hle; lia|lia].
  - etrans; [|exact Hlen].
    rewrite <-(length_fmap course_code (recommendedCourses outlineTitle ranked)).
    fold desired.
    rewrite <-(length_fmap normalizeCode (allCourses (plan stf))),
      <-(length_fmap normalizeCode desired).
    apply submseteq_length, NoDup_submseteq; [done|].
    intros x (c & -> & Hc)%list_elem_of_fmap.
    by apply list_elem_of_fmap_2, Hin.
  - intros c Hc. split; [by apply Hin|].
    intros rc Hrc Heq.
    apply Hin in Hc. unfold desired in Hc.
    apply list_elem_of_fmap in Hc as (rc' & -> & Hrc').
    f_equal.
    by apply (NoDup_fmap_inj_on (normalizeCode ∘ course_code)
                (recommendedCourses outlineTitle ranked)).
Qed.

(** ** The two copies of the resolver *)

Lemma part003_writeCache_agrees (data : OfferingsCache) (w : World) :
  writeFails (fs w) = false →
  dirExists (fs w) = true ∨ mkdirFails (fs w) = false →
  Part003.writeCache data w = writeCache data w.
Proof.
  destruct w as [[d c mk rd wr] tk cl fl rm]. cbn. intros -> Hdir.
  unfold Part003.writeCache, Part003.getCachePath, writeCache. unfold_io. cbn.
  destruct d; cbn; [done|].
  destruct Hdir as [?| ->]; done.
Qed.

(** X25.  The two copies of the resolver agree whenever the medium
    accepts the write and has, or can create, the data directory: from the
    same cache and world they return the same result and leave the same
    world. *)
Theorem part003_agrees_on_working_store (y : Z) (t : string)
    (c : option OfferingsCache) (w : World) :
  writeFails (fs w) = false →
  dirExists (fs w) = true ∨ mkdirFails (fs w) = false →
  Part003.getOfferingsForSemester y t c w = getOfferingsForSemester y t c w.
Proof.
  intros Hwr Hdir.
  unfold Part003.getOfferingsForSemester, getOfferingsForSemester.
  unfold bind, ret, newDate, fetchSemesterFromAPI.
  destruct c as [c|]; cbn [semesters].
  - destruct (semesters c !! semesterKey y t) as [[|o os]|]; [|done|];
      by rewrite part003_writeCache_agrees.
  - rewrite lookup_empty. by rewrite part003_writeCache_agrees.
Qed.

Lemma part003_writeCache_throws (data : OfferingsCache) (w : World) :
  writeFails (fs w) = true ∨
  (dirExists (fs w) = false ∧ mkdirFails (fs w) = true) →
  ∃ e w', Part003.writeCache data w = (Thrown e, w').
Proof.
  destruct w as [[d c mk rd wr] tk cl fl rm]. cbn. intros Hfail.
  unfold Part003.writeCache, Part003.getCachePath. unfold_io. cbn.
  destruct d, mk, wr; cbn;
    try (exfalso; destruct Hfail as [?|[? ?]]; congruence);
    eexists _, _; reflexivity.
Qed.

(** X26.  On a medium that refuses the write, or whose data directory
    is missing and cannot be created, every cache miss makes the resolver
    of the older copy throw, where the resolver of
    [src/lib/sfuOfferings.ts] returns. *)
Theorem part003_throws_on_miss (y : Z) (t : string)
    (c : option OfferingsCache) (w : World) :
  writeFails (fs w) = true ∨
  (dirExists (fs w) = false ∧ mkdirFails (fs w) = true) →
  (∀ o os, inputSemesters c !! semesterKey y t ≠ Some (o :: os)) →
  (∃ e, fst (Part003.getOfferingsForSemester y t c w) = Thrown e) ∧
  (∃ v, fst (getOfferingsForSemester y t c w) = Returned v).
Proof.
  intros Hfail Hmiss. split.
  - unfold Part003.getOfferingsForSemester.
    unfold bind, ret, newDate, fetchSemesterFromAPI.
    destruct c as [c|]; cbn [semesters]; cbn in Hmiss.
    + destruct (semesters c !! semesterKey y t) as [[|o os]|] eqn:E;
        try (by destruct (Hmiss o os));
        match goal with
        | |- context [Part003.writeCache ?d ?w0] =>
            destruct (part003_writeCache_throws d w0 Hfail) as (e & w' & ->)
        end; by exists e.
    + rewrite lookup_empty.
      match goal with
      | |- context [Part003.writeCache ?d ?w0] =>
          destruct (part003_writeCache_throws d w0 Hfail) as (e & w' & ->)
      end. by exists e.
  - destruct (getOfferingsForSemester_returns y t c w) as (offs & next & w' & -> & _).
    by eexists.
Qed.

Lemma part003_agrees_on_working_store_witness :
  Part003.getOfferingsForSemester 2024 "fall" (Some cache2023)
    (worldWith writableFs sampleCatalog) =
  getOfferingsForSemester 2024 "fall" (Some cache2023)
    (worldWith writableFs sampleCatalog).
Proof.
  apply (part003_agrees_on_working_store 2024 "fall" (Some cache2023)
           (worldWith writableFs sampleCatalog));
    [reflexivity | left; reflexivity].
Defined.

Lemma part003_throws_on_miss_witness :
  (∃ e, fst (Part003.getOfferingsForSemester 2024 "fall" (Some cache2023)
               (worldWith readOnlyFs sampleCatalog)) = Thrown e) ∧
  (∃ v, fst (getOfferingsForSemester 2024 "fall" (Some cache2023)
               (worldWith readOnlyFs sampleCatalog)) = Returned v).
Proof.
  apply (part003_throws_on_miss 2024 "fall" (Some cache2023)
           (worldWith readOnlyFs sampleCatalog)); [left; reflexivity|].
  intros o os. vm_compute. discriminate.
Defined.

(** ** The catalog client and the courses not yet taken *)

Lemma elem_of_addDeptCourses dept resp (courses : list string) (x : string) :
  x ∈ addDeptCourses dept resp courses ↔
  x ∈ courses ∨
  ∃ nums n, resp = Records nums ∧ n ∈ nums ∧ recordValue n ≠ "" ∧
            x = toUpperCase dept +:+ " " +:+ recordValue n.
Proof.
  destruct resp as [| |nums]; cbn.
  1,2: split; [by left | by intros [?|(? & ? & ? & _)]].
  revert courses. induction nums as [|n nums IH] using rev_ind; intros courses.
  - cbn. split; [by left|]. intros [?|(? & ? & [= <-] & ?%elem_of_nil & _)]; done.
  - rewrite foldl_snoc. cbn beta zeta. case_bool_decide as Hn.
    + rewrite IH. split.
      * intros [?|(nums' & n' & [= <-] & Hin & ? & ?)]; [by left|].
        right. exists (nums ++ [n]), n'. split_and!; [done| |done..].
        apply elem_of_app. by left.
      * intros [?|(nums' & n' & [= <-] & Hin & Hne & ?)]; [by left|].
        apply elem_of_app in Hin as [Hin|Hin%list_elem_of_singleton].
        -- right. by exists nums, n'.
        -- congruence.
    + rewrite elem_of_setAdd, IH. split.
      * intros [[?|(nums' & n' & [= <-] & Hin & ? & ?)]| ->].
        -- by left.
        -- right. exists (nums ++ [n]), n'. split_and!; [done| |done..].
           apply elem_of_app. by left.
        -- right. exists (nums ++ [n]), n. split_and!; [done| |done..].
           apply elem_of_app. right. by left.
      * intros [?|(nums' & n' & [= <-] & Hin & Hne & ->)]; [left; by left|].
        apply elem_of_app in Hin as [Hin|Hin%list_elem_of_singleton].
        -- left. right. by exists nums, n'.
        -- right. by subst.
Qed.

Lemma NoDup_addDeptCourses dept resp (courses : list string) :
  NoDup courses → NoDup (addDeptCourses dept resp courses).
Proof.
  destruct resp as [| |nums]; cbn; [done..|].
  revert courses. induction nums as [|n nums IH]; intros courses Hnd; cbn; [done|].
  apply IH. case_bool_decide; [done|]. by apply NoDup_setAdd.
Qed.

Lemma elem_of_collectDepts numRes (i : nat) (depts courses : list string)
    (x : string) :
  x ∈ collectDepts numRes i depts courses ↔
  x ∈ courses ∨
  ∃ j dept nums n,
    depts !! j = Some dept ∧ numRes (i + j)%nat dept = Records nums ∧
    n ∈ nums ∧ recordValue n ≠ "" ∧
    x = toUpperCase dept +:+ " " +:+ recordValue n.
Proof.
  revert i courses. induction depts as [|dept depts IH]; intros i courses; cbn.
  - split; [by left|]. by intros [?|(j & ? & ? & ? & ? & _)].
  - rewrite IH, elem_of_addDeptCourses. split.
    + intros [[?|(nums & n & ? & ? & ? & ?)]|(j & d & nums & n & ? & Hr & ? & ? & ?)].
      * by left.
      * right. exists 0%nat, dept, nums, n. rewrite Nat.add_0_r. done.
      * right. exists (S j), d, nums, n.
        replace (i + S j)%nat with (S i + j)%nat by lia. done.
    + intros [?|(j & d & nums & n & Hj & Hr & ? & ? & ?)]; [left; by left|].
      destruct j as [|j]; cbn in Hj.
      * injection Hj as <-. rewrite Nat.add_0_r in Hr.
        left. right. by exists nums, n.
      * right. exists j, d, nums, n.
        replace (S i + j)%nat with (i + S j)%nat by lia. done.
Qed.

Lemma NoDup_collectDepts numRes (i : nat) (depts courses : list string) :
  NoDup courses → NoDup (collectDepts numRes i depts courses).
Proof.
  revert i courses. induction depts as [|dept depts IH]; intros i courses Hnd;
    cbn; [done|].
  by apply IH, NoDup_addDeptCourses.
Qed.

(** X27.  The catalog client tolerates failures: when the department
    request fails the result is empty, and otherwise the result holds, once
    each, exactly the codes "DEPT number" (department upper-cased, number
    trimmed and non-empty) of the departments whose request was answered
    with an array; a department whose request fails is skipped and takes
    nothing away from the others. *)
Theorem fetchSemesterCourses_spec (deptsRes : HttpResponse)
    (numRes : nat → string → HttpResponse) :
  NoDup (fetchSemesterCourses deptsRes numRes) ∧
  (deptsRes = RequestFailed → fetchSemesterCourses deptsRes numRes = []) ∧
  ∀ x,
    x ∈ fetchSemesterCourses deptsRes numRes ↔
    ∃ depts j dept nums n,
      deptsRes = Records depts ∧
      deptValuesOf depts !! j = Some dept ∧ dept ≠ "" ∧
      numRes j dept = Records nums ∧
      n ∈ nums ∧ recordValue n ≠ "" ∧
      x = toUpperCase dept +:+ " " +:+ recordValue n.
Proof.
  split_and!.
  - destruct deptsRes; cbn; [apply NoDup_nil_2..|].
    apply NoDup_collectDepts, NoDup_nil_2.
  - by intros ->.
  - intros x. destruct deptsRes as [| |depts]; cbn.
    1,2: split; [by intros ?%elem_of_nil | by intros (? & ? & ? & ? & ? & ? & _)].
    rewrite elem_of_collectDepts. split.
    + intros [?%elem_of_nil|(j & dept & nums & n & Hj & ? & ? & ? & ?)]; [done|].
      exists depts, j, dept, nums, n. split_and!; try done.
      apply list_elem_of_lookup_2 in Hj.
      unfold deptValuesOf in Hj. by apply list_elem_of_filter in Hj as [? _].
    + intros (depts' & j & dept & nums & n & [= <-] & ? & ? & ? & ? & ? & ?).
      right. by exists j, dept, nums, n.
Qed.

(** X28.  The outlines the route keeps for ranking are, in their
    order, exactly those whose normalized code is neither completed nor in
    an equivalence group with a completed code. *)
Theorem untakenOutlines_spec {A} (dept number : A → string)
    (completed : list string) (allOutlines : list A) :
  untakenOutlines dept number (expandedTaken completed) allOutlines
    `sublist_of` allOutlines ∧
  ∀ o,
    o ∈ untakenOutlines dept number (expandedTaken completed) allOutlines ↔
    o ∈ allOutlines ∧
    (normalizeCode (outlineCode dept number o) ∉ completed) ∧
    ∀ group y,
      group ∈ EQUIVALENCE_GROUPS →
      normalizeCode (outlineCode dept number o) ∈ normalizeCode <$> group →
      y ∈ normalizeCode <$> group → y ∉ completed.
Proof.
  split; [apply sublist_filter|].
  intros o. unfold untakenOutlines. rewrite list_elem_of_filter.
  unfold setHas. rewrite bool_decide_eq_false, elem_of_expandedTaken.
  split.
  - intros [Hnot Ho]. split_and!; [done| |].
    + intros Hc. apply Hnot. by left.
    + intros group y Hg Hog Hyg Hy. apply Hnot. right.
      exists group. split_and!; [done..|]. by exists y.
  - intros (Ho & Hnc & Hgroups). split; [|done].
    intros [?|(group & Hg & Hog & y & Hyg & Hy)]; [done|].
    by apply (Hgroups group y).
Qed.

Lemma fetchSemesterCourses_spec_witness :
  "CMPT 105w" ∈ fetchSemesterCourses sampleDepts sampleNums.
Proof.
  apply (proj2 (proj2 (fetchSemesterCourses_spec sampleDepts sampleNums))).
  eexists _, 0%nat, "cmpt", _, {| apiText := None; apiValue := Some "105w" |}.
  split_and!; [reflexivity | reflexivity | discriminate | reflexivity | |
               discriminate | reflexivity].
  do 3 apply list_elem_of_further. apply list_elem_of_here.
Defined.

Lemma untakenOutlines_spec_witness :
  ("CMPT", "225") ∈
    untakenOutlines fst snd (expandedTaken ["MATH 150"])
      [("MATH", "151"); ("CMPT", "225")].
Proof.
  apply (proj2 (untakenOutlines_spec fst snd ["MATH 150"]
                  [("MATH", "151"); ("CMPT", "225")])).
  split_and!.
  - apply list_elem_of_further, list_elem_of_here.
  - vm_compute. intros H. apply elem_of_cons in H as [H|H]; [discriminate H|].
    by apply elem_of_nil in H.
  - intros group y Hg Hog. exfalso. unfold EQUIVALENCE_GROUPS in Hg.
    split_elem_of;
      match goal with
      | H : _ ∈ normalizeCode <$> ?g |- _ =>
          let l := eval vm_compute in (normalizeCode <$> g) in
          change (normalizeCode <$> g) with l in H;
          let c := eval vm_compute in
                     (normalizeCode (outlineCode fst snd ("CMPT", "225"))) in
          change (normalizeCode (outlineCode fst snd ("CMPT", "225")))
            with c in H
      end;
      split_elem_of; discriminate.
Defined.
